(** * chiprec: chip identification for ARM Cortex-M firmware

    A shallow embedding of [chiprec.py]: the Thumb scan that recovers
    peripheral register accesses ([find_used_registers]) and the
    candidate-narrowing matcher ([find_devices]) over the SVD catalog. *)

From Stdlib Require Import ZArith List Lia Bool Sorted.
From Stdlib.Strings Require Import Byte.
From stdpp Require Import base list strings gmap sets.

Local Open Scope Z_scope.
Set Warnings "-clear-no-such-hyp".  (* raised inside stdpp solvers *)

(** ** Python primitives used by the script *)

Module Py.

(** Exceptions the script's operations can raise. *)
Inductive exn := ValueError | KeyError | AttributeError | TypeError.

Definition result (A : Type) : Type := exn + A.

Definition bind {A B} (m : result A) (k : A → result B) : result B :=
  match m with
  | inl e => inl e
  | inr a => k a
  end.

Definition byte_val (b : byte) : Z := Z.of_N (Byte.to_N b).

(** [int.from_bytes(bs, "little")] *)
Fixpoint int_from_bytes_little (bs : list byte) : Z :=
  match bs with
  | [] => 0
  | b :: bs' => byte_val b + 256 * int_from_bytes_little bs'
  end.

(** Index normalisation of a slice bound: negative bounds count from
    the end, and every bound is clamped to [0, len]. *)
Definition norm_index (len i : Z) : Z :=
  if i <? 0 then Z.max (i + len) 0 else Z.min i len.

(** [l[i:j]]; never raises. *)
Definition slice {A} (l : list A) (i j : Z) : list A :=
  let len := Z.of_nat (length l) in
  let lo := norm_index len i in
  let hi := norm_index len j in
  take (Z.to_nat (hi - lo)) (drop (Z.to_nat lo) l).

(** [range(start, stop, step)] for a positive step. *)
Definition range (start stop step : Z) : list Z :=
  map (λ k, start + step * Z.of_nat k)
      (seq 0 (Z.to_nat ((stop - start + step - 1) / step))).

(** [x in l] on a list of ints. *)
Definition contains (x : Z) (l : list Z) : bool := existsb (Z.eqb x) l.

(** [l.remove(x)]: drops the first occurrence, [ValueError] if none. *)
Fixpoint list_remove (x : Z) (l : list Z) : result (list Z) :=
  match l with
  | [] => inl ValueError
  | y :: l' =>
      if x =? y then inr l'
      else match list_remove x l' with
           | inl e => inl e
           | inr r => inr (y :: r)
           end
  end.

End Py.

Notation "'try' x := m 'in' k" := (Py.bind m (λ x, k))
  (at level 10, x binder, m at level 100, k at level 200, only parsing).

(** ** Evidence items *)

Inductive access := Read | Write.

#[global] Instance access_eq_dec : EqDecision access.
Proof. solve_decision. Defined.

#[global] Instance access_countable : Countable access.
Proof.
  refine (inj_countable' (λ a, match a with Read => false | Write => true end)
                         (λ b : bool, if b then Write else Read) _).
  by intros [].
Defined.

(** An evidence item is the tuple [(addr, "read")] or [(addr, "write")]. *)
Definition evidence : Type := Z * access.

(** ** The firmware scan *)

(** Peripheral windows tested before an item is recorded. *)
Definition in_window (addr : Z) : bool :=
  ((0x40000000 <=? addr) && (addr <? 0x60000000))
  || ((0xA0000000 <=? addr) && (addr <? 0xE0000000)).

(** Outcome of one iteration of the inner loop after the two [break]
    guards: stop ([Break]), go on with an updated register list and
    possibly one item to record ([Next]), or an exception. *)
Inductive step_result :=
| Break
| Next (registers_containing_addr : list Z) (item : option evidence)
| Raise (e : Py.exn).

(** [if rd2 in registers_containing_addr: registers_containing_addr.remove(rd2)] *)
Definition remove_if_tracked (rd2 : Z) (registers_containing_addr : list Z)
  : step_result :=
  if Py.contains rd2 registers_containing_addr then
    match Py.list_remove rd2 registers_containing_addr with
    | inl e => Raise e
    | inr l => Next l None
    end
  else Next registers_containing_addr None.

(** The body shared by the three store branches and the taken load
    branch: record [(addr, kind)] when [addr] is in a peripheral window. *)
Definition record_if_window (registers_containing_addr : list Z) (addr : Z)
    (kind : access) : step_result :=
  if in_window addr then Next registers_containing_addr (Some (addr, kind))
  else Next registers_containing_addr None.

(** The [if]/[elif] chain on [instr2] (source lines 56-116). *)
Definition inner_step (data instr2 : Z) (registers_containing_addr : list Z)
  : step_result :=
  if Z.land instr2 0xF800 =? 0x6800 then
    (* LDR reg+imm *)
    let rd2 := Z.land (Z.shiftr instr2 0) 0x07 in
    let rn2 := Z.land (Z.shiftr instr2 3) 0x07 in
    if Py.contains rn2 registers_containing_addr then
      let addr := data + Z.shiftl (Z.land (Z.shiftr instr2 6) 0x1F) 2 in
      record_if_window registers_containing_addr addr Read
    else remove_if_tracked rd2 registers_containing_addr
  else if Z.land instr2 0xF800 =? 0x6000 then
    (* STR reg+imm *)
    let rn2 := Z.land (Z.shiftr instr2 3) 0x07 in
    if Py.contains rn2 registers_containing_addr then
      let addr := data + Z.shiftl (Z.land (Z.shiftr instr2 6) 0x1F) 2 in
      record_if_window registers_containing_addr addr Write
    else Next registers_containing_addr None
  else if Z.land instr2 0xF800 =? 0x8000 then
    (* STRH reg+imm *)
    let rn2 := Z.land (Z.shiftr instr2 3) 0x07 in
    if Py.contains rn2 registers_containing_addr then
      let addr := data + Z.shiftl (Z.land (Z.shiftr instr2 6) 0x1F) 1 in
      record_if_window registers_containing_addr addr Write
    else Next registers_containing_addr None
  else if Z.land instr2 0xF800 =? 0x7000 then
    (* STRB reg+imm *)
    let rn2 := Z.land (Z.shiftr instr2 3) 0x07 in
    if Py.contains rn2 registers_containing_addr then
      let addr := data + Z.land (Z.shiftr instr2 6) 0x1F in
      record_if_window registers_containing_addr addr Write
    else Next registers_containing_addr None
  else if Z.land instr2 0xF800 =? 0x4800 then
    (* LDR PC+imm *)
    remove_if_tracked (Z.land (Z.shiftr instr2 8) 0x07) registers_containing_addr
  else if Z.land instr2 0xFE00 =? 0x1A00 then
    (* SUBS *)
    remove_if_tracked (Z.land (Z.shiftr instr2 0) 0x7) registers_containing_addr
  else if Z.land instr2 0xF800 =? 0x2000 then
    (* MOVS imm *)
    remove_if_tracked (Z.land (Z.shiftr instr2 8) 0x07) registers_containing_addr
  else
    (* Unknown instruction, stop *)
    Break.

(** The halfword read at an offset: [int.from_bytes(firmware[o : o + 2], "little")]. *)
Definition halfword_at (firmware : list byte) (o : Z) : Z :=
  Py.int_from_bytes_little (Py.slice firmware o (o + 2)).

(** [rb = (instr & 0xFF) << 2; data_offset = (fw_offset + rb) // 4 * 4 + 4] *)
Definition data_offset (fw_offset instr : Z) : Z :=
  let rb := Z.shiftl (Z.land instr 0xFF) 2 in
  (fw_offset + rb) / 4 * 4 + 4.

(** [data = int.from_bytes(firmware[data_offset : data_offset + 4], "little")] *)
Definition literal_data (firmware : list byte) (fw_offset instr : Z) : Z :=
  let data_offset := data_offset fw_offset instr in
  Py.int_from_bytes_little (Py.slice firmware data_offset (data_offset + 4)).

(** [range(2, len(firmware), 2)]: the offsets the outer loop visits. *)
Definition outer_offsets (firmware : list byte) : list Z :=
  Py.range 2 (Z.of_nat (length firmware)) 2.

Section Scan.
(** The scan is written once over the container that [regs] is and its
    [add] method. *)
Context {R : Type} (regs_add : evidence → R → R).

Definition record (item : option evidence) (regs : R) : R :=
  match item with
  | Some it => regs_add it regs
  | None => regs
  end.

(** The inner [for fw_offset2 in range(fw_offset + 2, len(firmware), 2)]
    loop, over the offsets still to visit.  [prev_instr] is the variable
    assigned by the outer loop. *)
Fixpoint forward_scan (firmware : list byte) (prev_instr data : Z)
    (offsets : list Z) (registers_containing_addr : list Z) (regs : R)
  : Py.result R :=
  match offsets with
  | [] => inr regs
  | fw_offset2 :: offsets' =>
      match registers_containing_addr with
      | [] => inr regs (* lost addr *)
      | _ :: _ =>
          let instr2 := halfword_at firmware fw_offset2 in
          if Z.land prev_instr 0xE000 =? 0xE000 then inr regs
          else
            match inner_step data instr2 registers_containing_addr with
            | Break => inr regs
            | Raise e => inl e
            | Next l item =>
                forward_scan firmware prev_instr data offsets' l
                             (record item regs)
            end
      end
  end.

(** The body of the outer loop at one [fw_offset]. *)
Definition scan_candidate (firmware : list byte) (fw_offset : Z) (regs : R)
  : Py.result R :=
  let instr := halfword_at firmware fw_offset in
  if negb (Z.land instr 0xF800 =? 0x4800) then inr regs
  else
    let prev_instr :=
      Py.int_from_bytes_little (Py.slice firmware (fw_offset - 2) fw_offset) in
    if Z.land prev_instr 0xE000 =? 0xE000 then inr regs
    else
      let rd := Z.land (Z.shiftr instr 8) 0x07 in
      let data := literal_data firmware fw_offset instr in
      forward_scan firmware prev_instr data
        (Py.range (fw_offset + 2) (Z.of_nat (length firmware)) 2) [rd] regs.

(** The outer loop over a list of offsets. *)
Fixpoint outer_loop (firmware : list byte) (offsets : list Z) (regs : R)
  : Py.result R :=
  match offsets with
  | [] => inr regs
  | fw_offset :: offsets' =>
      try regs' := scan_candidate firmware fw_offset regs in
      outer_loop firmware offsets' regs'
  end.

(** [for fw_offset in range(2, len(firmware), 2)] from an empty [regs]. *)
Definition find_used_registers_in (empty : R) (firmware : list byte)
  : Py.result R :=
  outer_loop firmware (outer_offsets firmware) empty.

(** The same scan with the [prev_instr] test of the inner loop (source
    lines 53-54) deleted. *)
Fixpoint forward_scan_nocheck (firmware : list byte) (data : Z)
    (offsets : list Z) (registers_containing_addr : list Z) (regs : R)
  : Py.result R :=
  match offsets with
  | [] => inr regs
  | fw_offset2 :: offsets' =>
      match registers_containing_addr with
      | [] => inr regs
      | _ :: _ =>
          let instr2 := halfword_at firmware fw_offset2 in
          match inner_step data instr2 registers_containing_addr with
          | Break => inr regs
          | Raise e => inl e
          | Next l item =>
              forward_scan_nocheck firmware data offsets' l (record item regs)
          end
      end
  end.

Definition scan_candidate_nocheck (firmware : list byte) (fw_offset : Z)
    (regs : R) : Py.result R :=
  let instr := halfword_at firmware fw_offset in
  if negb (Z.land instr 0xF800 =? 0x4800) then inr regs
  else
    let prev_instr :=
      Py.int_from_bytes_little (Py.slice firmware (fw_offset - 2) fw_offset) in
    if Z.land prev_instr 0xE000 =? 0xE000 then inr regs
    else
      let rd := Z.land (Z.shiftr instr 8) 0x07 in
      let data := literal_data firmware fw_offset instr in
      forward_scan_nocheck firmware data
        (Py.range (fw_offset + 2) (Z.of_nat (length firmware)) 2) [rd] regs.

Fixpoint outer_loop_nocheck (firmware : list byte) (offsets : list Z)
    (regs : R) : Py.result R :=
  match offsets with
  | [] => inr regs
  | fw_offset :: offsets' =>
      try regs' := scan_candidate_nocheck firmware fw_offset regs in
      outer_loop_nocheck firmware offsets' regs'
  end.

Definition find_used_registers_nocheck_in (empty : R) (firmware : list byte)
  : Py.result R :=
  outer_loop_nocheck firmware (outer_offsets firmware) empty.

End Scan.

(** [regs = set()] and [regs.add(item)]: the container of the source is a
    hash set, which keeps the items and nothing about their insertion. *)
Definition set_add (item : evidence) (regs : gset evidence) : gset evidence :=
  regs ∪ {[ item ]}.

Definition find_used_registers (firmware : list byte)
  : Py.result (gset evidence) :=
  find_used_registers_in set_add ∅ firmware.

Definition find_used_registers_nocheck (firmware : list byte)
  : Py.result (gset evidence) :=
  find_used_registers_nocheck_in set_add ∅ firmware.

(** The container the docstring describes ("addresses are ordered by
    position in file"): items in order of first recording, each once. *)
Definition ordered_add (item : evidence) (regs : list evidence) : list evidence :=
  if bool_decide (item ∈ regs) then regs else regs ++ [item].

(** The order in which the scan records its items. *)
Definition discovery_order (firmware : list byte) : Py.result (list evidence) :=
  find_used_registers_in ordered_add [] firmware.

(** *** Ghost trace of the scan *)

(** Base register field [rn2 = (instr2 >> 3) & 0x07] of the four
    register-plus-immediate accesses. *)
Definition base_reg (instr2 : Z) : Z := Z.land (Z.shiftr instr2 3) 0x07.

(** The accesses a forward scan records: offset of the access, its base
    register and the item. *)
Fixpoint forward_accesses (firmware : list byte) (data : Z) (offsets : list Z)
    (registers_containing_addr : list Z) : list (Z * Z * evidence) :=
  match offsets with
  | [] => []
  | fw_offset2 :: offsets' =>
      match registers_containing_addr with
      | [] => []
      | _ :: _ =>
          let instr2 := halfword_at firmware fw_offset2 in
          match inner_step data instr2 registers_containing_addr with
          | Next l item =>
              match item with
              | Some it => [(fw_offset2, base_reg instr2, it)]
              | None => []
              end ++ forward_accesses firmware data offsets' l
          | _ => []
          end
      end
  end.

(** A halfword is an accepted literal load at [fw_offset]: the opcode
    matches and the halfword before it passes the test of source line 35,
    that is, its top three bits are not all set. *)
Definition accepted (firmware : list byte) (fw_offset : Z) : bool :=
  (Z.land (halfword_at firmware fw_offset) 0xF800 =? 0x4800)
  && negb (Z.land (halfword_at firmware (fw_offset - 2)) 0xE000 =? 0xE000).

Definition candidate_accesses (firmware : list byte) (fw_offset : Z)
  : list (Z * Z * evidence) :=
  if accepted firmware fw_offset then
    let instr := halfword_at firmware fw_offset in
    forward_accesses firmware (literal_data firmware fw_offset instr)
      (Py.range (fw_offset + 2) (Z.of_nat (length firmware)) 2)
      [Z.land (Z.shiftr instr 8) 0x07]
  else [].

Definition scan_accesses (firmware : list byte) (offsets : list Z)
  : list (Z * Z * evidence) :=
  flat_map (candidate_accesses firmware) offsets.

(** Recording a list of accesses, in order, into a container. *)
Definition record_all {R} (regs_add : evidence → R → R)
    (accesses : list (Z * Z * evidence)) (regs : R) : R :=
  fold_left (λ regs a, regs_add a.2 regs) accesses regs.

(** *** Vocabulary of the specification *)

(** Rounding down to a multiple of four. *)
Definition align4 (x : Z) : Z := x - x mod 4.

(** The [imm8] field of a literal load. *)
Definition imm8 (instr : Z) : Z := instr mod 256.


(** What a halfword redefines during a forward scan: the destination of
    a literal load, of [MOVS] immediate or of [SUBS], or the destination
    of a word load whose base register is not tracked. *)
Definition redefines (instr2 : Z) (registers_containing_addr : list Z)
  : option Z :=
  if Z.land instr2 0xF800 =? 0x6800 then
    if Py.contains (base_reg instr2) registers_containing_addr then None
    else Some (Z.land instr2 0x07)
  else if Z.land instr2 0xF800 =? 0x4800 then Some (Z.land (Z.shiftr instr2 8) 0x07)
  else if Z.land instr2 0xFE00 =? 0x1A00 then Some (Z.land instr2 0x07)
  else if Z.land instr2 0xF800 =? 0x2000 then Some (Z.land (Z.shiftr instr2 8) 0x07)
  else None.

(** ** The catalog *)

Record device_row := {
  device_pk : Z;
  device_name : string;
  device_vendor : string;
  svd_filename : string;
}.

Record peripheral_row := {
  peripheral_pk : Z;
  device_id : Z;
  peripheral_name : string;
  peripheral_address : Z;
}.

Record register_row := {
  register_pk : Z;
  peripheral_id : Z;
  register_name : string;
  register_access : string;
  register_address : Z;
  register_size : Z;
}.

(** The three tables behind a cursor.  Integer columns are taken as
    unbounded integers (no 64-bit overflow) and never NULL, as the
    importer writes them. *)
Record database := {
  device : list device_row;
  peripheral : list peripheral_row;
  register : list register_row;
}.

(** [FROM register JOIN peripheral ON peripheral_id == peripheral.id] *)
Definition register_join_peripheral (cursor : database)
  : list (register_row * peripheral_row) :=
  flat_map
    (λ r, map (pair r)
              (filter (λ p, peripheral_id r = peripheral_pk p) (peripheral cursor)))
    (register cursor).

(** The [WHERE] clause; [/] on two integers truncates toward zero. *)
Definition where_clause (addr : Z) (r : register_row) : bool :=
  (register_address r <=? addr)
  && (addr <? register_address r + 32)
  && (addr <? register_address r + register_size r ÷ 8).

(** The order of [register_register_address_idx], the index that the
    schema of the importer declares on [register(register_address)]: by
    the indexed column, then by [id]. *)
Definition index_before (r r' : register_row) : bool :=
  (register_address r <? register_address r')
  || ((register_address r =? register_address r')
      && (register_pk r <=? register_pk r')).

(** Sorting in that order; rows with the same key stay as they are. *)
Fixpoint index_insert (rp : register_row * peripheral_row)
    (rows : list (register_row * peripheral_row))
  : list (register_row * peripheral_row) :=
  match rows with
  | [] => [rp]
  | rp' :: rows' =>
      if index_before rp.1 rp'.1 then rp :: rows
      else rp' :: index_insert rp rows'
  end.

Definition index_order (rows : list (register_row * peripheral_row))
  : list (register_row * peripheral_row) :=
  foldr index_insert [] rows.

(** The rows the [SELECT] returns.  The query has no [ORDER BY]: SQLite
    answers [register_address <= ?1] by walking the index upwards and
    looks up the peripheral of each register by its primary key, so the
    rows come by ascending [register_address] and, at equal addresses, by
    ascending [id], whatever the order of the table. *)
Definition select_rows (cursor : database) (addr : Z)
  : list (register_row * peripheral_row) :=
  index_order
    (filter (λ rp, where_clause addr rp.1 = true)
            (register_join_peripheral cursor)).

(** A hit record [[peripheral_name, register_name, access]]. *)
Definition hit : Type := string * string * access.

(** List objects live in a store and are named by their index in it: the
    values of the match dictionaries are references, so that the in-place
    [+=] of [dict_intersection_merge] is seen through every dictionary
    that holds the list. *)
Abbreviation heap := (list (list hit)).

Definition deref (h : heap) (l : nat) : list hit := default [] (h !! l).

(** The hit record [attr + [access]] of a selected row. *)
Definition hit_of (access_ : access) (rp : register_row * peripheral_row) : hit :=
  (peripheral_name rp.2, register_name rp.1, access_).

(** [{dev_id: [attr + [access]] for dev_id, *attr in res.fetchall()}] *)
Definition find_devices_by_register (cursor : database) (addr : Z)
    (access_ : access) (h : heap) : heap * gmap Z nat :=
  fold_left
    (λ (st : heap * gmap Z nat) (rp : register_row * peripheral_row),
       (st.1 ++ [[hit_of access_ rp]],
        <[device_id rp.2 := length st.1]> st.2))
    (select_rows cursor addr) (h, ∅).

(** One iteration of [for key in [k for k in d1.keys()]]. *)
Definition merge_step (d2 : gmap Z nat) (st : heap * gmap Z nat) (key : Z)
  : Py.result (heap * gmap Z nat) :=
  match d2 !! key with
  | None =>
      (* d1.pop(key) *)
      match st.2 !! key with
      | None => inl Py.KeyError
      | Some _ => inr (st.1, delete key st.2)
      end
  | Some l2 =>
      (* d1[key] += d2[key] *)
      match st.2 !! key with
      | None => inl Py.KeyError
      | Some l1 => inr (<[l1 := deref st.1 l1 ++ deref st.1 l2]> st.1, st.2)
      end
  end.

Fixpoint merge_loop (d2 : gmap Z nat) (keys : list Z) (st : heap * gmap Z nat)
  : Py.result (heap * gmap Z nat) :=
  match keys with
  | [] => inr st
  | key :: keys' =>
      try st' := merge_step d2 st key in merge_loop d2 keys' st'
  end.

(** [None] for [d1] means "all".  The copy is shallow: it shares the
    list objects of [d1]. *)
Definition dict_intersection_merge (h : heap) (d1 : option (gmap Z nat))
    (d2 : gmap Z nat) : Py.result (heap * gmap Z nat) :=
  match d1 with
  | None => inr (h, d2)
  | Some d1 => merge_loop d2 (map_to_list d1).*1 (h, d1)
  end.

(** The body of the loop of [find_devices] for one evidence item. *)
Definition find_devices_step (cursor : database)
    (st : heap * option (gmap Z nat)) (item : evidence)
  : Py.result (heap * option (gmap Z nat)) :=
  let '(h1, m) := find_devices_by_register cursor item.1 item.2 st.1 in
  if bool_decide (m = ∅) then inr (h1, st.2) (* no devices match, skipping *)
  else
    try new := dict_intersection_merge h1 st.2 m in
    if bool_decide (new.2 = ∅) then inr (new.1, st.2) (* empty, skipping *)
    else inr (new.1, Some new.2).

Fixpoint find_devices_loop (cursor : database) (regs : list evidence)
    (st : heap * option (gmap Z nat)) : Py.result (heap * option (gmap Z nat)) :=
  match regs with
  | [] => inr st
  | item :: regs' =>
      try st' := find_devices_step cursor st item in
      find_devices_loop cursor regs' st'
  end.

(** [find_devices], given [list(regs)]; [matchs] starts as [None]. *)
Definition find_devices (cursor : database) (regs : list evidence)
  : Py.result (heap * option (gmap Z nat)) :=
  find_devices_loop cursor regs ([], None).

(** What a match state shows: each candidate with its hit records. *)
Definition hits_of (st : heap * option (gmap Z nat))
  : option (gmap Z (list hit)) :=
  (λ d : gmap Z nat, deref st.1 <$> d) <$> st.2.

(** Every list a match state refers to is in the store. *)
Definition heap_ok (st : heap * option (gmap Z nat)) : Prop :=
  ∀ d dev l, st.2 = Some d → d !! dev = Some l → (l < length st.1)%nat.

(** The candidate device ids of a match state. *)
Definition candidates (st : heap * option (gmap Z nat)) : option (gset Z) :=
  dom <$> st.2.

(** The devices owning a selected row. *)
Definition matching_devices (cursor : database) (addr : Z) : gset Z :=
  list_to_set ((λ rp : register_row * peripheral_row, device_id rp.2)
                 <$> select_rows cursor addr).

(** A device covers an address: one of its registers satisfies the
    half-open range test. *)
Definition in_range (addr : Z) (r : register_row) : bool :=
  (register_address r <=? addr)
  && (addr <? register_address r + register_size r ÷ 8).

Definition covers (cursor : database) (dev : Z) (addr : Z) : Prop :=
  ∃ rp, rp ∈ register_join_peripheral cursor
        ∧ device_id rp.2 = dev ∧ in_range addr rp.1 = true.

(** ** The command line, for one firmware file *)

Section Main.
(** [list(regs)] and [for ... in regs]: the order in which a hash set
    is iterated is a function of the set that the script does not
    control. *)
Variable set_iter : gset evidence → list evidence.

(** [SELECT ... FROM device WHERE id == ?] then [fetchone()] and the
    tuple unpacking, which raises [TypeError] on [None]. *)
Definition device_header (cursor : database) (dev_id : Z)
  : Py.result string :=
  match filter (λ d, device_pk d = dev_id) (device cursor) with
  | [] => inl Py.TypeError
  | d :: _ =>
      let dev_name :=
        if bool_decide (device_vendor d = "") then device_name d
        else device_vendor d +:+ " " +:+ device_name d in
      inr (dev_name +:+ " (" +:+ svd_filename d +:+ "):")
  end.

Fixpoint report (cursor : database) (h : heap) (items : list (Z * nat))
  : Py.result (list (string * list hit)) :=
  match items with
  | [] => inr []
  | (dev_id, registers) :: items' =>
      try header := device_header cursor dev_id in
      try rest := report cursor h items' in
      inr ((header, deref h registers) :: rest)
  end.

(** The body of [for f in args.filename]: the evidence, then
    [matchs.items()], which raises [AttributeError] when [matchs] is
    [None].  The devices are listed in key order, not in the insertion
    order of the dictionary; the printed lines are otherwise the same. *)
Definition main_file (cursor : database) (firmware : list byte)
  : Py.result (list (string * list hit)) :=
  try regs := find_used_registers firmware in
  try st := find_devices cursor (set_iter regs) in
  match st.2 with
  | None => inl Py.AttributeError
  | Some matchs => report cursor st.1 (map_to_list matchs)
  end.
End Main.

(** ** Further vocabulary of the scan *)

(** The halfwords the [if]/[elif] chain of the inner loop has a branch
    for; every other halfword ends the forward scan. *)
Definition recognized (instr2 : Z) : bool :=
  (Z.land instr2 0xF800 =? 0x6800) || (Z.land instr2 0xF800 =? 0x6000)
  || (Z.land instr2 0xF800 =? 0x8000) || (Z.land instr2 0xF800 =? 0x7000)
  || (Z.land instr2 0xF800 =? 0x4800) || (Z.land instr2 0xFE00 =? 0x1A00)
  || (Z.land instr2 0xF800 =? 0x2000).

(** The [imm5] field, bits 6 to 10. *)
Definition imm5 (instr2 : Z) : Z := (instr2 / 64) mod 32.

(** The destination register field of a literal load, bits 8 to 10. *)
Definition literal_rd (instr : Z) : Z := Z.land (Z.shiftr instr 8) 0x07.

(** ** The matcher on values *)

(** The matcher written on dictionaries of lists as values, every list
    copied when it is extended: what [find_devices] would compute if no
    list object were shared. *)
Definition lookup_hits (cursor : database) (addr : Z) (access_ : access)
  : gmap Z (list hit) :=
  fold_left
    (λ (d : gmap Z (list hit)) (rp : register_row * peripheral_row),
       <[device_id rp.2 := [hit_of access_ rp]]> d)
    (select_rows cursor addr) ∅.

Definition merge_hits (d1 : option (gmap Z (list hit)))
    (d2 : gmap Z (list hit)) : gmap Z (list hit) :=
  match d1 with
  | None => d2
  | Some d1 => intersection_with (λ hits1 hits2, Some (hits1 ++ hits2)) d1 d2
  end.

Definition narrow_step (cursor : database) (matchs : option (gmap Z (list hit)))
    (item : evidence) : option (gmap Z (list hit)) :=
  let m := lookup_hits cursor item.1 item.2 in
  if bool_decide (m = ∅) then matchs
  else
    let new_matchs := merge_hits matchs m in
    if bool_decide (new_matchs = ∅) then matchs else Some new_matchs.

Definition narrow (cursor : database) (regs : list evidence)
  : option (gmap Z (list hit)) :=
  fold_left (narrow_step cursor) regs None.

(** No two keys of a dictionary hold the same list object. *)
Definition dict_inj (d : gmap Z nat) : Prop :=
  ∀ k k' l, d !! k = Some l → d !! k' = Some l → k = k'.

Definition store_ok (st : list (list hit) * option (gmap Z nat)) : Prop :=
  heap_ok st ∧ ∀ d, st.2 = Some d → dict_inj d.

(** A hit record that one of the items gives for a device: the record of
    a row of that device selected for the address of the item. *)
Definition hit_from (cursor : database) (items : list evidence) (dev : Z)
    (ht : hit) : Prop :=
  ∃ item rp, item ∈ items ∧ rp ∈ select_rows cursor item.1
             ∧ device_id rp.2 = dev ∧ ht = hit_of item.2 rp.

(** The state of the matcher on values after some items: no candidates
    yet, or candidates that all have [n] hit records, each given by one of
    the items seen. *)
Definition hits_inv (cursor : database) (seen : list evidence) (n : nat)
    (s : option (gmap Z (list hit))) : Prop :=
  match s with
  | None => n = 0%nat
  | Some d =>
      (1 ≤ n)%nat
      ∧ ∀ dev hits, d !! dev = Some hits →
          length hits = n ∧ Forall (hit_from cursor seen dev) hits
  end.

(** Every peripheral row names a device that has a row. *)
Definition devices_exist (cursor : database) : Prop :=
  ∀ p, p ∈ peripheral cursor →
       ∃ d, d ∈ device cursor ∧ device_pk d = device_id p.

(** * The SVD importer ([chiprec_svd_import.py]) *)

Module Svd.

(** Exceptions of the importer. *)
Inductive exn :=
| AttributeError | ValueError | TypeError | AssertionError | OverflowError.

Definition result (A : Type) : Type := exn + A.

(** [s.replace(old, new)] for a non-empty [old]: every occurrence of [old]
    found scanning from the left, without overlap, is replaced.  [skip]
    counts the characters of a matched occurrence still to be passed.
    Strings are taken as UTF-8 bytes; the patterns used are ASCII. *)
Fixpoint str_replace_from (old new : string) (skip : nat) (s : string)
  : string :=
  match s with
  | EmptyString => EmptyString
  | String c s' =>
      match skip with
      | S n => str_replace_from old new n s'
      | O =>
          if String.prefix old s
          then new +:+ str_replace_from old new (String.length old - 1) s'
          else String c (str_replace_from old new 0 s')
      end
  end.

Definition str_replace (old new s : string) : string :=
  str_replace_from old new 0 s.

Definition canonical_access : list string :=
  ["read-write"; "write-only"; "read-only"].

(** [fix_reg_access_typo]; the [assert] raises [AssertionError]. *)
Definition fix_reg_access_typo (access_ : string) : result string :=
  let access_ := str_replace "read-onlye" "read-only" access_ in
  let access_ := str_replace "read-wirte" "read-write" access_ in
  let access_ := str_replace "read_write" "read-write" access_ in
  let access_ := str_replace "read-writeonce" "read-write" access_ in
  let access_ := str_replace "writeonce" "write-only" access_ in
  let access_ := if bool_decide (access_ = "read") then "read-only" else access_ in
  let access_ := if bool_decide (access_ = "write") then "write-only" else access_ in
  if bool_decide (access_ ∈ canonical_access) then inr access_
  else inl AssertionError.

Definition bind {A B} (m : result A) (k : A → result B) : result B :=
  match m with
  | inl e => inl e
  | inr a => k a
  end.

Notation "'attempt' x := m 'in' k" := (bind m (λ x, k))
  (at level 10, x binder, m at level 100, k at level 200, only parsing).

(** [for x in l] with a loop body that may raise. *)
Fixpoint for_each {A S} (body : S → A → result S) (l : list A) (s : S)
  : result S :=
  match l with
  | [] => inr s
  | x :: l' => attempt s' := body s x in for_each body l' s'
  end.

(** ** The element tree *)

(** An element as [xml.etree.ElementTree] gives it: tag, attributes,
    text (which may be [None]) and children in document order. *)
#[local] Unset Elimination Schemes.
Inductive element :=
| Element (tag : string) (attrib : list (string * string))
    (text : option string) (children : list element).
#[local] Set Elimination Schemes.

Definition tag_of (e : element) : string :=
  match e with Element tag _ _ _ => tag end.
Definition attrib_of (e : element) : list (string * string) :=
  match e with Element _ attrib _ _ => attrib end.
Definition text_of (e : element) : option string :=
  match e with Element _ _ text _ => text end.
Definition children_of (e : element) : list element :=
  match e with Element _ _ _ children => children end.

(** [e.findall(path)] for the paths the importer uses, [t1/.../tn] or
    [./t1/.../tn], given by their tags: the matching descendants in
    document order. *)
Fixpoint findall_from (es : list element) (tags : list string)
  : list element :=
  match tags with
  | [] => es
  | t :: tags' =>
      findall_from
        (flat_map (λ e, filter (λ c, tag_of c = t) (children_of e)) es) tags'
  end.

Definition findall (e : element) (tags : list string) : list element :=
  findall_from [e] tags.

(** [e.find(path)]: the first match, or [None]. *)
Definition find (e : element) (tags : list string) : option element :=
  head (findall e tags).

(** [e.get(key, default)] *)
Definition get (e : element) (key default : string) : string :=
  match filter (λ kv, kv.1 = key) (attrib_of e) with
  | kv :: _ => kv.2
  | [] => default
  end.

(** ** The statements of the importer *)

(** A Python int bound to an SQLite [INTEGER] must fit 64 bits. *)
Definition sqlite_int (z : Z) : result Z :=
  if (- 2 ^ 63 <=? z) && (z <? 2 ^ 63) then inr z else inl OverflowError.

Section Importer.
(** The [id] that [AUTOINCREMENT] gives to a new row of a table, from the
    name of the table and the ids in it.  SQLite takes one more than the
    counter it keeps for the table in [sqlite_sequence], and an
    [INSERT OR IGNORE] that is ignored advances that counter as well: the
    id is above the ids in the table, and which one it is the three
    tables do not tell.  A table is longer after each row it is given, so
    no two rows are given to the same ids, and a function of the table
    and its ids describes any run. *)
Variable next_id : string → list Z → Z.

(** [INSERT OR IGNORE INTO device ...] under [UNIQUE(device_name)]. *)
Definition insert_device (cursor : database) (name vendor filename : string)
  : database :=
  if bool_decide (Exists (λ d, device_name d = name) (device cursor))
  then cursor
  else
    {| device :=
         device cursor
         ++ [ {| device_pk := next_id "device" (device_pk <$> device cursor);
                 device_name := name; device_vendor := vendor;
                 svd_filename := filename |} ];
       peripheral := peripheral cursor;
       register := register cursor |}.

(** [SELECT id FROM device WHERE device_name = ?] and [fetchone()]. *)
Definition select_device_id (cursor : database) (name : string) : option Z :=
  device_pk <$> head (filter (λ d, device_name d = name) (device cursor)).

(** [INSERT OR IGNORE INTO peripheral ...] under
    [UNIQUE(peripheral_name, device_id)]. *)
Definition insert_peripheral (cursor : database) (dev_id : Z) (name : string)
    (address : Z) : database :=
  if bool_decide (Exists (λ p, peripheral_name p = name ∧ device_id p = dev_id)
                    (peripheral cursor))
  then cursor
  else
    {| device := device cursor;
       peripheral :=
         peripheral cursor
         ++ [ {| peripheral_pk :=
                   next_id "peripheral" (peripheral_pk <$> peripheral cursor);
                 device_id := dev_id; peripheral_name := name;
                 peripheral_address := address |} ];
       register := register cursor |}.

Definition select_peripheral_id (cursor : database) (name : string)
    (dev_id : Z) : option Z :=
  peripheral_pk
    <$> head (filter (λ p, peripheral_name p = name ∧ device_id p = dev_id)
                (peripheral cursor)).

(** [INSERT OR IGNORE INTO register ...] under
    [UNIQUE(register_name, peripheral_id)]; a [None] name violates
    [NOT NULL] and is ignored as well. *)
Definition insert_register (cursor : database) (p_id : Z)
    (name : option string) (access_ : string) (address size : Z) : database :=
  match name with
  | None => cursor
  | Some name =>
      if bool_decide (Exists (λ r, register_name r = name ∧ peripheral_id r = p_id)
                        (register cursor))
      then cursor
      else
        {| device := device cursor;
           peripheral := peripheral cursor;
           register :=
             register cursor
             ++ [ {| register_pk :=
                       next_id "register" (register_pk <$> register cursor);
                     peripheral_id := p_id; register_name := name;
                     register_access := access_;
                     register_address := address; register_size := size |} ] |}
  end.

(** [str.strip], [str.upper], [str.lower] and [int(s, 0)] ([None] for
    [ValueError]) are those of the Python library. *)
Variables (strip upper lower : string → string) (py_int : string → option Z).

Definition int_of (s : string) : result Z :=
  match py_int s with
  | Some z => inr z
  | None => inl ValueError
  end.

(** [xml_get_text_or] *)
Definition xml_get_text_or (root : element) (key : list string)
    (default : string) : string :=
  match find root key with
  | Some res =>
      match text_of res with
      | Some t => strip t
      | None => default
      end
  | None => default
  end.

(** The body of the first loop, which collects [peripherals_offset]. *)
Definition offset_step (peripherals_offset : gmap (option string) Z)
    (peripheral_ : element) : result (gmap (option string) Z) :=
  match find peripheral_ ["name"] with
  | None => inl AttributeError
  | Some name =>
      let p_name := text_of name in
      match find peripheral_ ["addressBlock"; "offset"] with
      | Some p_offset =>
          match text_of p_offset with
          | Some t =>
              attempt z := int_of t in inr (<[p_name := z]> peripherals_offset)
          | None => inr peripherals_offset
          end
      | None => inr peripherals_offset
      end
  end.

(** The body of the loop over the registers of a peripheral. *)
Definition register_step (p_id p_address : Z) (cursor : database)
    (register_ : element) : result database :=
  match find register_ ["name"] with
  | None => inl AttributeError
  | Some name =>
      let r_name := text_of name in
      match find register_ ["addressOffset"] with
      | None => inl AttributeError
      | Some offset =>
          match text_of offset with
          | None => inl TypeError
          | Some t =>
              attempt o := int_of t in
              let r_address := p_address + o in
              attempt r_size := int_of (xml_get_text_or register_ ["size"] "32") in
              attempt r_access :=
                fix_reg_access_typo
                  (lower (xml_get_text_or register_ ["access"] "read-write")) in
              attempt r_address := sqlite_int r_address in
              attempt r_size := sqlite_int r_size in
              inr (insert_register cursor p_id r_name r_access r_address r_size)
          end
      end
  end.

(** The body of the loop over the peripherals. *)
Definition peripheral_step (dev_id : Z)
    (peripherals_offset : gmap (option string) Z) (cursor : database)
    (peripheral_ : element) : result database :=
  match find peripheral_ ["name"] with
  | None => inl AttributeError
  | Some name =>
      match text_of name with
      | None => inl AttributeError
      | Some t =>
          let p_name := upper (strip t) in
          match find peripheral_ ["baseAddress"] with
          | None => inr cursor (* missing base address, skipping *)
          | Some base_addr =>
              match text_of base_addr with
              | None => inr cursor
              | Some b =>
                  attempt p_address := int_of b in
                  let derived_from := get peripheral_ "derivedFrom" p_name in
                  let p_address :=
                    p_address
                    + default 0 (peripherals_offset !! Some derived_from) in
                  attempt p_address := sqlite_int p_address in
                  let cursor := insert_peripheral cursor dev_id p_name p_address in
                  match select_peripheral_id cursor p_name dev_id with
                  | None => inl TypeError
                  | Some p_id =>
                      for_each (register_step p_id p_address)
                        (findall peripheral_ ["registers"; "register"]) cursor
                  end
              end
          end
      end
  end.

(** [add_svd_to_database], given the base name of the file and the root
    of the parsed document; the result is the catalog when the function
    returns. *)
Definition add_svd_to_database (cursor : database) (filename : string)
    (root : element) : result database :=
  attempt peripherals_offset :=
    for_each offset_step (findall root ["peripherals"; "peripheral"]) ∅ in
  match find root ["name"] with
  | None => inl AttributeError
  | Some name =>
      match text_of name with
      | None => inl AttributeError
      | Some t =>
          let dev_name := strip t in
          let dev_vendor := xml_get_text_or root ["vendor"] "" in
          let cursor := insert_device cursor dev_name dev_vendor filename in
          match select_device_id cursor dev_name with
          | None => inl TypeError
          | Some dev_id =>
              for_each (peripheral_step dev_id peripherals_offset)
                (findall root ["peripherals"; "peripheral"]) cursor
          end
      end
  end.
End Importer.

(** ** Vocabulary for the catalog *)

(** A catalog extends another: every table has the rows of the other
    first, in the same order. *)
Definition extends (c c' : database) : Prop :=
  device c `prefix_of` device c'
  ∧ peripheral c `prefix_of` peripheral c'
  ∧ register c `prefix_of` register c'.

(** References between the tables resolve. *)
Definition references_ok (c : database) : Prop :=
  devices_exist c
  ∧ ∀ r, r ∈ register c →
         ∃ p, p ∈ peripheral c ∧ peripheral_pk p = peripheral_id r.

(** The [UNIQUE] constraints of the schema. *)
Definition unique_ok (c : database) : Prop :=
  NoDup (device_name <$> device c)
  ∧ NoDup ((λ p, (peripheral_name p, device_id p)) <$> peripheral c)
  ∧ NoDup ((λ r, (register_name r, peripheral_id r)) <$> register c).

Definition empty_database : database :=
  {| device := []; peripheral := []; register := [] |}.

End Svd.

(** A step that only appends rows and that, run again on any catalog
    extending its result, changes nothing. *)
Definition replays {A} (body : database → A → Svd.result database) : Prop :=
  ∀ x c c1, body c x = inr c1 →
    Svd.extends c c1 ∧ ∀ c', Svd.extends c1 c' → body c' x = inr c'.

(** ** Sample images *)

(** [LDR r0, [pc, #4]] at offset 2 (literal [0x40000000] at offset 8),
    then [LDR r1, [r0]] and [STR r1, [r0, #4]]. *)
Definition fw_read_then_write : list byte :=
  [x00; x00; x01; x48; x01; x68; x41; x60; x00; x00; x00; x40].

(** The same image with the load and the store exchanged. *)
Definition fw_write_then_read : list byte :=
  [x00; x00; x01; x48; x41; x60; x01; x68; x00; x00; x00; x40].


(** [LDR r0, [pc, #4]] at offset 2, [MOVS r0, #0] at offset 4, then
    [LDR r1, [r0]]. *)
Definition fw_redefined : list byte :=
  [x00; x00; x01; x48; x00; x20; x01; x68; x00; x00; x00; x40].

(** [LDR r0, [pc, #4]] at offset 2 whose literal slot [8, 12) is cut after
    two bytes, then [LDR r1, [r0]]. *)
Definition fw_truncated : list byte :=
  [x00; x00; x01; x48; x01; x68; x00; x00; x00; x40].

(** An image of odd length whose last byte is [0x48]. *)
Definition fw_odd : list byte := [x00; x00; x00; x00; x48].

(** The shortest image with evidence: [LDR r0, [pc, #0]] at offset 2
    reads the word at offset 4, whose low halfword [0x6800] is itself
    [LDR r0, [r0]]. *)
Definition fw_eight_bytes : list byte :=
  [x00; x00; x00; x48; x00; x68; x00; x40].

(** A literal load at offset 2 behind the halfword [0xE000], the 16-bit
    branch [B]. *)
Definition fw_after_branch : list byte :=
  [x00; xe0; x01; x48; x01; x68; x41; x60; x00; x00; x00; x40].

(** [LDR r0, [pc, #4]] at offset 2 (literal [0x40000000] at offset 8),
    then [LDR r0, [r0]], which loads into its own base register, and
    [STR r1, [r0, #4]]. *)
Definition fw_self_load : list byte :=
  [x00; x00; x01; x48; x00; x68; x41; x60; x00; x00; x00; x40].

(** ** A sample description *)

(** A device [STM32] with one peripheral [GPIOA] at [0x40000000] holding
    one register [MODER] at offset 0 and one register with a mistyped
    access. *)
Definition sample_svd : Svd.element :=
  Svd.Element "device" [] None
    [ Svd.Element "name" [] (Some "STM32") [];
      Svd.Element "peripherals" [] None
        [ Svd.Element "peripheral" [] None
            [ Svd.Element "name" [] (Some "GPIOA") [];
              Svd.Element "baseAddress" [] (Some "0x40000000") [];
              Svd.Element "registers" [] None
                [ Svd.Element "register" [] None
                    [ Svd.Element "name" [] (Some "MODER") [];
                      Svd.Element "addressOffset" [] (Some "0x0") [] ];
                  Svd.Element "register" [] None
                    [ Svd.Element "name" [] (Some "IDR") [];
                      Svd.Element "addressOffset" [] (Some "0x10") [];
                      Svd.Element "access" [] (Some "read-onlye") [] ] ] ] ] ].

(** A register whose [addressOffset] element is empty. *)
Definition sample_svd_no_offset : Svd.element :=
  Svd.Element "device" [] None
    [ Svd.Element "name" [] (Some "STM32") [];
      Svd.Element "peripherals" [] None
        [ Svd.Element "peripheral" [] None
            [ Svd.Element "name" [] (Some "GPIOA") [];
              Svd.Element "baseAddress" [] (Some "0x40000000") [];
              Svd.Element "registers" [] None
                [ Svd.Element "register" [] None
                    [ Svd.Element "name" [] (Some "MODER") [];
                      Svd.Element "addressOffset" [] None [] ] ] ] ] ].

(** Stand-ins for the library on the strings of the samples. *)
Definition sample_int (s : string) : option Z :=
  if bool_decide (s = "0x40000000") then Some 0x40000000
  else if bool_decide (s = "0x0") then Some 0
  else if bool_decide (s = "0x10") then Some 16
  else if bool_decide (s = "32") then Some 32
  else None.

Definition sample_str (s : string) : string := s.

(** The ids of tables all of whose rows were inserted one after the
    other, no insert ignored before: one more than the highest id. *)
Definition sample_next_id (table : string) (ids : list Z) : Z :=
  1 + foldr Z.max 0 ids.

(** ** Sample catalogs *)

(** Two devices: device 1 has registers at [0x40000000] and [0x40000004],
    device 2 only at [0x40000000]. *)
Definition db_two_devices : database := {|
  device := [ {| device_pk := 1; device_name := "A"; device_vendor := "";
                 svd_filename := "a.svd" |};
              {| device_pk := 2; device_name := "B"; device_vendor := "V";
                 svd_filename := "b.svd" |} ];
  peripheral := [ {| peripheral_pk := 1; device_id := 1;
                     peripheral_name := "GPIOA";
                     peripheral_address := 0x40000000 |};
                  {| peripheral_pk := 2; device_id := 2;
                     peripheral_name := "TIM";
                     peripheral_address := 0x40000000 |} ];
  register := [ {| register_pk := 1; peripheral_id := 1;
                   register_name := "MODER"; register_access := "read-write";
                   register_address := 0x40000000; register_size := 32 |};
                {| register_pk := 2; peripheral_id := 1;
                   register_name := "OTYPER"; register_access := "read-write";
                   register_address := 0x40000004; register_size := 32 |};
                {| register_pk := 3; peripheral_id := 2;
                   register_name := "CR1"; register_access := "read-write";
                   register_address := 0x40000000; register_size := 32 |} ];
|}.

(** One device with one register of 512 bits at [0x40000000]. *)
Definition db_wide_register : database := {|
  device := [ {| device_pk := 1; device_name := "W"; device_vendor := "";
                 svd_filename := "w.svd" |} ];
  peripheral := [ {| peripheral_pk := 1; device_id := 1;
                     peripheral_name := "CRYP";
                     peripheral_address := 0x40000000 |} ];
  register := [ {| register_pk := 1; peripheral_id := 1;
                   register_name := "KEY"; register_access := "write-only";
                   register_address := 0x40000000; register_size := 512 |} ];
|}.



(** Two devices with one register each, at different addresses. *)
Definition db_conflict : database := {|
  device := [ {| device_pk := 1; device_name := "A"; device_vendor := "";
                 svd_filename := "a.svd" |};
              {| device_pk := 2; device_name := "B"; device_vendor := "";
                 svd_filename := "b.svd" |} ];
  peripheral := [ {| peripheral_pk := 1; device_id := 1;
                     peripheral_name := "GPIOA";
                     peripheral_address := 0x40000000 |};
                  {| peripheral_pk := 2; device_id := 2;
                     peripheral_name := "TIM";
                     peripheral_address := 0x40000004 |} ];
  register := [ {| register_pk := 1; peripheral_id := 1;
                   register_name := "MODER"; register_access := "read-write";
                   register_address := 0x40000000; register_size := 32 |};
                {| register_pk := 2; peripheral_id := 2;
                   register_name := "CR1"; register_access := "read-write";
                   register_address := 0x40000004; register_size := 32 |} ];
|}.

(** * Properties *)

(** ** Python primitives *)

Lemma contains_elem_of x l : Py.contains x l = true ↔ x ∈ l.
Proof.
  unfold Py.contains. rewrite existsb_exists. split.
  - intros (y & Hy & ->%Z.eqb_eq). by apply list_elem_of_In.
  - intros H. exists x. split; [by apply list_elem_of_In | apply Z.eqb_refl].
Qed.

Lemma list_remove_elem_of x l :
  x ∈ l → ∃ l', Py.list_remove x l = inr l' ∧ l' `sublist_of` l
               ∧ (NoDup l → x ∉ l').
Proof.
  induction l as [|y l IH]; intros Hin; [by apply elem_of_nil in Hin|].
  simpl. destruct (Z.eqb_spec x y) as [->|Hne].
  - exists l. split_and!; [done | by apply sublist_cons | by intros [? ?]%NoDup_cons].
  - apply elem_of_cons in Hin as [?|Hin]; [done|].
    destruct (IH Hin) as (l' & -> & Hsub & Hnd).
    exists (y :: l'). split_and!; [done | by apply sublist_skip |].
    intros [Hy Hl]%NoDup_cons [?|?]%elem_of_cons; [done | by apply Hnd].
Qed.

Lemma byte_val_bound b : 0 ≤ Py.byte_val b < 256.
Proof.
  unfold Py.byte_val. pose proof (Byte.to_N_bounded b). lia.
Qed.

Lemma int_from_bytes_little_bound bs :
  0 ≤ Py.int_from_bytes_little bs < 256 ^ Z.of_nat (length bs).
Proof.
  induction bs as [|b bs IH]; [simpl; lia|].
  cbn [Py.int_from_bytes_little length].
  rewrite Nat2Z.inj_succ, Z.pow_succ_r by lia.
  pose proof (byte_val_bound b). lia.
Qed.

Lemma slice_length {A} (l : list A) i j :
  0 ≤ i → i ≤ j →
  Z.of_nat (length (Py.slice l i j))
  = Z.min j (Z.of_nat (length l)) - Z.min i (Z.of_nat (length l)).
Proof.
  intros Hi Hj. unfold Py.slice, Py.norm_index.
  destruct (Z.ltb_spec i 0); [lia|]. destruct (Z.ltb_spec j 0); [lia|].
  rewrite length_take, length_drop. lia.
Qed.

Lemma range_elem_of start stop o :
  o ∈ Py.range start stop 2 ↔ start ≤ o < stop ∧ (o - start) mod 2 = 0.
Proof.
  unfold Py.range. rewrite list_elem_of_In, in_map_iff. split.
  - intros (k & <- & Hk%in_seq). split.
    + assert (Z.of_nat k < (stop - start + 2 - 1) / 2) by lia.
      assert (Z.of_nat k + 1 ≤ (stop - start + 2 - 1) / 2) by lia.
      pose proof (Z.mul_div_le (stop - start + 2 - 1) 2). lia.
    + replace (start + 2 * Z.of_nat k - start) with (Z.of_nat k * 2) by lia.
      apply Z.mod_mul. lia.
  - intros [Hr Hm]. exists (Z.to_nat ((o - start) / 2)).
    pose proof (Z.div_mod (o - start) 2). rewrite in_seq. split.
    + rewrite Z2Nat.id by (apply Z.div_pos; lia). lia.
    + split; [lia|]. simpl.
      apply Z2Nat.inj_lt; [apply Z.div_pos; lia | |].
      * apply Z.div_pos; lia.
      * apply Z.div_lt_upper_bound; [lia|].
        pose proof (Z.div_mod (stop - start + 2 - 1) 2).
        pose proof (Z.mod_pos_bound (stop - start + 2 - 1) 2). lia.
Qed.

Lemma range_cons start stop :
  start < stop → Py.range start stop 2 = start :: Py.range (start + 2) stop 2.
Proof.
  intros Hlt. unfold Py.range.
  replace ((stop - start + 2 - 1) / 2) with (Z.succ ((stop - (start + 2) + 2 - 1) / 2)).
  2:{ replace (stop - start + 2 - 1) with ((stop - (start + 2) + 2 - 1) + 1 * 2) by lia.
      rewrite Z.div_add by lia. lia. }
  rewrite Z2Nat.inj_succ.
  2:{ apply Z.div_pos; lia. }
  cbn [seq map]. f_equal; [lia|].
  rewrite <-seq_shift, map_map. apply map_ext. intros k. lia.
Qed.

Lemma range_nil start stop : stop ≤ start → Py.range start stop 2 = [].
Proof.
  intros Hle. unfold Py.range.
  replace (Z.to_nat ((stop - start + 2 - 1) / 2)) with 0%nat; [done|].
  assert ((stop - start + 2 - 1) / 2 ≤ 0); [|lia].
  assert ((stop - start + 2 - 1) / 2 < 1); [|lia].
  apply Z.div_lt_upper_bound; lia.
Qed.

(** ** The inner step *)

Lemma land_mask_bound x n : 0 ≤ n → 0 ≤ Z.land x (Z.ones n) < 2 ^ n.
Proof.
  intros Hn. rewrite Z.land_ones by done. apply Z.mod_pos_bound.
  by apply Z.pow_pos_nonneg.
Qed.

Lemma imm5_bound x : 0 ≤ Z.land x 0x1F ≤ 31.
Proof. pose proof (land_mask_bound x 5). change (Z.ones 5) with 31 in *. lia. Qed.

Lemma small_not_opcode v mask :
  0 ≤ v < 256 → Z.land mask 0xFF = 0 → Z.land v mask = 0.
Proof.
  intros Hv Hm. rewrite <-(Z.mod_small v (2 ^ 8)) by lia.
  rewrite <-Z.land_ones by lia. change (Z.ones 8) with 0xFF.
  by rewrite <-Z.land_assoc, (Z.land_comm 0xFF), Hm, Z.land_0_r.
Qed.

Lemma remove_if_tracked_spec rd2 l :
  ∃ l', remove_if_tracked rd2 l = Next l' None ∧ l' `sublist_of` l
        ∧ (NoDup l → rd2 ∉ l').
Proof.
  unfold remove_if_tracked. destruct (Py.contains rd2 l) eqn:Hc.
  - apply contains_elem_of in Hc.
    destruct (list_remove_elem_of _ _ Hc) as (l' & -> & ? & ?). eauto.
  - exists l. split_and!; [done..|]. intros _ Hin%contains_elem_of. congruence.
Qed.

Lemma record_if_window_spec l addr kind :
  ∃ item, record_if_window l addr kind = Next l item
          ∧ ∀ it, item = Some it → it = (addr, kind) ∧ in_window addr = true.
Proof.
  unfold record_if_window. destruct (in_window addr) eqn:Hw.
  - eexists. split; [done|]. by intros ? [= <-].
  - eexists. split; [done|]. by intros ? [=].
Qed.

(** The step never raises; it only shrinks the register list; and an item
    is recorded only through a tracked base register, at an address inside
    a window and at most 124 bytes above [data]. *)
Lemma inner_step_spec data instr2 l :
  inner_step data instr2 l = Break
  ∨ ∃ l' item, inner_step data instr2 l = Next l' item
      ∧ l' `sublist_of` l
      ∧ ∀ it, item = Some it →
          l' = l ∧ base_reg instr2 ∈ l ∧ in_window it.1 = true
          ∧ data ≤ it.1 ≤ data + 124.
Proof.
  pose proof (imm5_bound (Z.shiftr instr2 6)) as Hb.
  assert (∀ addr kind, data ≤ addr ≤ data + 124 →
            Py.contains (base_reg instr2) l = true →
            ∃ l' item, record_if_window l addr kind = Next l' item
              ∧ l' `sublist_of` l
              ∧ ∀ it, item = Some it →
                  l' = l ∧ base_reg instr2 ∈ l ∧ in_window it.1 = true
                  ∧ data ≤ it.1 ≤ data + 124) as Hrec.
  { intros addr kind Ha Hc.
    destruct (record_if_window_spec l addr kind) as (item & -> & Hit).
    exists l, item. split_and!; [done..|].
    intros it [-> ?]%Hit. by rewrite <-contains_elem_of. }
  assert (∀ rd2, ∃ l' item, remove_if_tracked rd2 l = Next l' item
              ∧ l' `sublist_of` l
              ∧ ∀ it, item = Some it →
                  l' = l ∧ base_reg instr2 ∈ l ∧ in_window it.1 = true
                  ∧ data ≤ it.1 ≤ data + 124) as Hrem.
  { intros rd2. destruct (remove_if_tracked_spec rd2 l) as (l' & -> & ? & _).
    exists l', None. by split_and!. }
  assert (∃ l' item, Next l None = Next l' item
              ∧ l' `sublist_of` l
              ∧ ∀ it, item = Some it →
                  l' = l ∧ base_reg instr2 ∈ l ∧ in_window it.1 = true
                  ∧ data ≤ it.1 ≤ data + 124) as Hnone.
  { exists l, None. by split_and!. }
  unfold inner_step. fold (base_reg instr2).
  rewrite !Z.shiftl_mul_pow2 by lia.
  repeat case_match; try (by left); right;
    try apply Hrem; try apply Hnone; apply Hrec; try done; lia.
Qed.

Lemma subs_opcode x : Z.land x 0xFE00 = 0x1A00 → Z.land x 0xF800 = 0x1800.
Proof.
  intros H. change 0xF800 with (Z.land 0xFE00 0xF800).
  by rewrite Z.land_assoc, H.
Qed.

Lemma inner_step_redefines data instr2 l r :
  redefines instr2 l = Some r → NoDup l →
  ∃ l', inner_step data instr2 l = Next l' None
        ∧ l' `sublist_of` l ∧ r ∉ l'.
Proof.
  unfold redefines, inner_step. fold (base_reg instr2).
  rewrite Z.shiftr_0_r. intros Hr Hnd.
  repeat case_match; simplify_eq;
    repeat match goal with
           | H : (_ =? _) = true |- _ => apply Z.eqb_eq in H
           end;
    try match goal with
        | H : Z.land _ 0xFE00 = 0x1A00 |- _ => apply subs_opcode in H
        end;
    try lia;
    match goal with
    | |- ∃ l', remove_if_tracked ?rd ?l = _ ∧ _ =>
        destruct (remove_if_tracked_spec rd l) as (l' & -> & ? & ?); eauto
    end.
Qed.

(** ** The scan and its trace *)

Section ScanFacts.
Context {R : Type} (regs_add : evidence → R → R).

Lemma record_all_app (xs ys : list (Z * Z * evidence)) (regs : R) :
  record_all regs_add (xs ++ ys) regs
  = record_all regs_add ys (record_all regs_add xs regs).
Proof. apply fold_left_app. Qed.

Lemma forward_scan_nocheck_spec fw data offs l regs :
  forward_scan_nocheck regs_add fw data offs l regs
  = inr (record_all regs_add (forward_accesses fw data offs l) regs).
Proof.
  revert l regs. induction offs as [|o offs IH]; intros l regs; [done|].
  destruct l as [|r l]; [done|]. cbn [forward_scan_nocheck forward_accesses].
  destruct (inner_step_spec data (halfword_at fw o) (r :: l))
    as [-> | (l' & item & -> & _)]; [done|].
  rewrite IH, record_all_app. by destruct item.
Qed.

Lemma forward_scan_unchecked fw prev_instr data offs l regs :
  (Z.land prev_instr 0xE000 =? 0xE000) = false →
  forward_scan regs_add fw prev_instr data offs l regs
  = forward_scan_nocheck regs_add fw data offs l regs.
Proof.
  intros Hprev. revert l regs.
  induction offs as [|o offs IH]; intros l regs; [done|].
  destruct l as [|r l]; [done|]. cbn [forward_scan forward_scan_nocheck].
  rewrite Hprev. destruct (inner_step data (halfword_at fw o) (r :: l)); auto.
Qed.

Lemma scan_candidate_unchecked fw o regs :
  scan_candidate regs_add fw o regs = scan_candidate_nocheck regs_add fw o regs.
Proof.
  unfold scan_candidate, scan_candidate_nocheck.
  destruct (negb _); [done|].
  destruct (Z.land _ 0xE000 =? 0xE000) eqn:Hprev; [done|].
  by apply forward_scan_unchecked.
Qed.

Lemma outer_loop_unchecked fw offs regs :
  outer_loop regs_add fw offs regs = outer_loop_nocheck regs_add fw offs regs.
Proof.
  revert regs. induction offs as [|o offs IH]; intros regs; [done|].
  cbn [outer_loop outer_loop_nocheck]. rewrite scan_candidate_unchecked.
  destruct (scan_candidate_nocheck _ _ _ _); simpl; auto.
Qed.

Lemma scan_candidate_spec fw o regs :
  scan_candidate regs_add fw o regs
  = inr (record_all regs_add (candidate_accesses fw o) regs).
Proof.
  rewrite scan_candidate_unchecked.
  unfold scan_candidate_nocheck, candidate_accesses, accepted.
  replace (halfword_at fw (o - 2))
    with (Py.int_from_bytes_little (Py.slice fw (o - 2) o))
    by (unfold halfword_at; do 2 f_equal; lia).
  destruct (Z.land (halfword_at fw o) _ =? _); [|done]. simpl.
  destruct (Z.land _ 0xE000 =? 0xE000); [done|]. simpl.
  apply forward_scan_nocheck_spec.
Qed.

Lemma outer_loop_spec fw offs regs :
  outer_loop regs_add fw offs regs
  = inr (record_all regs_add (scan_accesses fw offs) regs).
Proof.
  revert regs. induction offs as [|o offs IH]; intros regs; [done|].
  cbn [outer_loop]. rewrite scan_candidate_spec. simpl.
  rewrite IH. unfold scan_accesses. simpl. by rewrite record_all_app.
Qed.


Lemma find_used_registers_in_spec empty fw :
  find_used_registers_in regs_add empty fw
  = inr (record_all regs_add (scan_accesses fw (outer_offsets fw)) empty).
Proof. apply outer_loop_spec. Qed.
End ScanFacts.

(** Every access of a forward scan goes through a register of the list
    the scan started from. *)
Lemma forward_accesses_base fw data offs l a :
  a ∈ forward_accesses fw data offs l → (a.1).2 ∈ l.
Proof.
  revert l. induction offs as [|o offs IH]; intros l; [by intros ?%elem_of_nil|].
  destruct l as [|r l]; [by intros ?%elem_of_nil|]. cbn [forward_accesses].
  destruct (inner_step_spec data (halfword_at fw o) (r :: l))
    as [-> | (l' & item & -> & Hsub & Hit)]; [by intros ?%elem_of_nil|].
  rewrite elem_of_app. intros [Hin|Hin].
  - destruct item as [it|]; [|by apply elem_of_nil in Hin].
    apply list_elem_of_singleton in Hin as ->. by destruct (Hit it) as (_ & ? & _).
  - apply IH in Hin. by eapply elem_of_sublist.
Qed.

(** A forward scan around a literal below [2^24] records nothing. *)
Lemma forward_accesses_small fw data offs l :
  0 ≤ data < 2 ^ 24 → forward_accesses fw data offs l = [].
Proof.
  intros Hd. revert l. induction offs as [|o offs IH]; intros l; [done|].
  destruct l as [|r l]; [done|]. cbn [forward_accesses].
  destruct (inner_step_spec data (halfword_at fw o) (r :: l))
    as [-> | (l' & item & -> & Hsub & Hit)]; [done|].
  rewrite IH, app_nil_r. destruct item as [it|]; [|done].
  destruct (Hit it) as (_ & _ & Hw & Hb); [done|].
  unfold in_window in Hw. lia.
Qed.

(** ** Literal loads *)

Lemma data_offset_align4 o instr :
  data_offset o instr = align4 (o + imm8 instr * 4) + 4.
Proof.
  unfold data_offset, align4, imm8. change 0xFF with (Z.ones 8).
  rewrite Z.land_ones, Z.shiftl_mul_pow2 by lia. change (2 ^ 8) with 256.
  change (2 ^ 2) with 4. pose proof (Z.mod_eq (o + instr mod 256 * 4) 4). lia.
Qed.

Lemma align4_spec x : align4 x mod 4 = 0 ∧ align4 x ≤ x < align4 x + 4.
Proof.
  unfold align4. pose proof (Z.mod_pos_bound x 4). split; [|lia].
  rewrite (Z.mod_eq x 4) by lia.
  replace (x - (x - 4 * (x / 4))) with (x / 4 * 4) by lia.
  apply Z.mod_mul. lia.
Qed.

Lemma data_offset_pos o instr : 0 ≤ o → 4 ≤ data_offset o instr.
Proof.
  intros Ho. unfold data_offset. change 0xFF with (Z.ones 8).
  pose proof (land_mask_bound instr 8). rewrite Z.shiftl_mul_pow2 by lia.
  assert (0 ≤ (o + Z.land instr (Z.ones 8) * 2 ^ 2) / 4); [|lia].
  apply Z.div_pos; lia.
Qed.

Lemma scan_candidate_accepted {R} (regs_add : evidence → R → R) fw o regs :
  accepted fw o = true →
  scan_candidate regs_add fw o regs
  = forward_scan regs_add fw (halfword_at fw (o - 2))
      (literal_data fw o (halfword_at fw o))
      (Py.range (o + 2) (Z.of_nat (length fw)) 2)
      [Z.land (Z.shiftr (halfword_at fw o) 8) 0x07] regs.
Proof.
  unfold accepted, scan_candidate.
  replace (halfword_at fw (o - 2))
    with (Py.int_from_bytes_little (Py.slice fw (o - 2) o))
    by (unfold halfword_at; do 2 f_equal; lia).
  intros [-> ->%negb_true_iff]%andb_true_iff. done.
Qed.

Lemma scan_candidate_rejected {R} (regs_add : evidence → R → R) fw o regs :
  accepted fw o = false → scan_candidate regs_add fw o regs = inr regs.
Proof.
  intros Hacc. rewrite scan_candidate_spec. unfold candidate_accesses.
  by rewrite Hacc.
Qed.

Lemma slice_in_range {A} (l : list A) i n :
  0 ≤ i → 0 ≤ n → i + n ≤ Z.of_nat (length l) →
  Py.slice l i (i + n) = take (Z.to_nat n) (drop (Z.to_nat i) l).
Proof.
  intros Hi Hn Hlen. unfold Py.slice, Py.norm_index.
  destruct (Z.ltb_spec i 0); [lia|]. destruct (Z.ltb_spec (i + n) 0); [lia|].
  rewrite !Z.min_l by lia. do 2 f_equal. lia.
Qed.

(** C6: an accepted literal load at offset [o] reads its literal at
    [align4 (o + imm8 * 4) + 4], a multiple of four; [data] is the
    little-endian value of [firmware[slot : slot + 4]], and when these four
    bytes lie inside the image the forward scan runs on
    [b0 + 2^8 b1 + 2^16 b2 + 2^24 b3], a 32-bit value. *)
Theorem literal_slot_and_data (fw : list byte) (o : Z) :
  0 ≤ o → accepted fw o = true →
  let instr := halfword_at fw o in
  let slot := align4 (o + imm8 instr * 4) + 4 in
  data_offset o instr = slot
  ∧ slot mod 4 = 0
  ∧ literal_data fw o instr
    = Py.int_from_bytes_little (Py.slice fw slot (slot + 4))
  ∧ (slot + 4 ≤ Z.of_nat (length fw) →
     ∃ b0 b1 b2 b3 : byte,
       fw !! Z.to_nat slot = Some b0
       ∧ fw !! Z.to_nat (slot + 1) = Some b1
       ∧ fw !! Z.to_nat (slot + 2) = Some b2
       ∧ fw !! Z.to_nat (slot + 3) = Some b3
       ∧ let data := Py.byte_val b0 + 2 ^ 8 * Py.byte_val b1
                     + 2 ^ 16 * Py.byte_val b2 + 2 ^ 24 * Py.byte_val b3 in
         0 ≤ data < 2 ^ 32
         ∧ ∀ R (regs_add : evidence → R → R) regs,
             scan_candidate regs_add fw o regs
             = forward_scan regs_add fw (halfword_at fw (o - 2)) data
                 (Py.range (o + 2) (Z.of_nat (length fw)) 2)
                 [Z.land (Z.shiftr instr 8) 0x07] regs).
Proof.
  intros Ho Hacc instr slot.
  assert (data_offset o instr = slot) as Hslot by apply data_offset_align4.
  split_and!; [done | | by unfold literal_data; rewrite Hslot |].
  { unfold slot. pose proof (align4_spec (o + imm8 instr * 4)) as [Hm _].
    rewrite <-Z.add_mod_idemp_l, Hm by lia. done. }
  intros Hlen. pose proof (data_offset_pos o instr Ho) as Hpos.
  rewrite Hslot in Hpos.
  pose proof (slice_in_range fw slot 4 ltac:(lia) ltac:(lia) Hlen) as Hsl.
  assert (length (take (Z.to_nat 4) (drop (Z.to_nat slot) fw)) = 4%nat) as Hl4.
  { rewrite length_take, length_drop. lia. }
  destruct (take (Z.to_nat 4) (drop (Z.to_nat slot) fw))
    as [|b0 [|b1 [|b2 [|b3 [|]]]]] eqn:Htk; try done.
  assert (∀ i : nat, (i < 4)%nat →
            fw !! (Z.to_nat slot + i)%nat = [b0; b1; b2; b3] !! i) as Hget.
  { intros i Hi. rewrite <-Htk, lookup_take_lt by lia.
    by rewrite lookup_drop. }
  exists b0, b1, b2, b3.
  rewrite <-(Nat.add_0_r (Z.to_nat slot)) at 1.
  replace (Z.to_nat (slot + 1)) with (Z.to_nat slot + 1)%nat by lia.
  replace (Z.to_nat (slot + 2)) with (Z.to_nat slot + 2)%nat by lia.
  replace (Z.to_nat (slot + 3)) with (Z.to_nat slot + 3)%nat by lia.
  rewrite !Hget by lia. split_and!; [done..|]. intros data. split.
  - pose proof (byte_val_bound b0). pose proof (byte_val_bound b1).
    pose proof (byte_val_bound b2). pose proof (byte_val_bound b3).
    unfold data. lia.
  - intros R regs_add regs. rewrite scan_candidate_accepted by done.
    f_equal. unfold literal_data. fold instr. rewrite Hslot, Hsl.
    cbn [Py.int_from_bytes_little]. unfold data. lia.
Qed.

Lemma literal_slot_and_data_witness :
  data_offset 2 (halfword_at fw_read_then_write 2)
  = align4 (2 + imm8 (halfword_at fw_read_then_write 2) * 4) + 4.
Proof.
  exact (proj1 (literal_slot_and_data fw_read_then_write 2 ltac:(lia) eq_refl)).
Defined.

(** ** Redefined registers *)

(** C7: a step of the forward scan only ever shrinks the register list.
    When the halfword at [o] redefines register [r], the step records
    nothing and leaves a list without [r]; what the scan goes on to record
    never has [r] as base register, and the scan itself continues from the
    shrunk list.  From the one-register list the source starts with, the
    scan ends there. *)
Theorem redefined_register_stops_contributing
    (fw : list byte) (data o : Z) (offs l : list Z) (r : Z) :
  NoDup l → redefines (halfword_at fw o) l = Some r →
  (∀ instr2 l0 l1 item,
     inner_step data instr2 l0 = Next l1 item → l1 `sublist_of` l0)
  ∧ ∃ l',
      inner_step data (halfword_at fw o) l = Next l' None
      ∧ l' `sublist_of` l ∧ (r ∉ l')
      ∧ (∀ a, a ∈ forward_accesses fw data offs l' → (a.1).2 ≠ r)
      ∧ (∀ R (regs_add : evidence → R → R) prev_instr regs,
           l ≠ [] → (Z.land prev_instr 0xE000 =? 0xE000) = false →
           forward_scan regs_add fw prev_instr data (o :: offs) l regs
           = forward_scan regs_add fw prev_instr data offs l' regs
           ∧ forward_scan regs_add fw prev_instr data offs l' regs
             = inr (record_all regs_add (forward_accesses fw data offs l') regs)
           ∧ (l = [r] →
              forward_scan regs_add fw prev_instr data (o :: offs) l regs
              = inr regs)).
Proof.
  intros Hnd Hred. split.
  { intros instr2 l0 l1 item Hstep.
    destruct (inner_step_spec data instr2 l0)
      as [Hb | (l1' & item' & Heq & Hsub & _)]; congruence. }
  destruct (inner_step_redefines data _ _ _ Hred Hnd) as (l' & Hstep & Hsub & Hr).
  exists l'. split_and!; [done..| |].
  { intros a Ha%forward_accesses_base Heq. by rewrite Heq in Ha. }
  intros R regs_add prev_instr regs Hl Hprev.
  assert (forward_scan regs_add fw prev_instr data (o :: offs) l regs
          = forward_scan regs_add fw prev_instr data offs l' regs) as Hgo.
  { destruct l as [|x l]; [done|]. cbn [forward_scan].
    by rewrite Hprev, Hstep. }
  split_and!; [done | |].
  { by rewrite forward_scan_unchecked, forward_scan_nocheck_spec. }
  intros ->. rewrite Hgo.
  assert (l' = []) as ->; [|by destruct offs].
  destruct l' as [|x l']; [done|]. exfalso. apply Hr.
  assert (x ∈ [r]) as ->%list_elem_of_singleton;
    [eapply elem_of_sublist; [|done]|]; apply elem_of_cons; by left.
Qed.

Lemma redefined_register_stops_contributing_witness :
  ∃ l', inner_step 0x40000000 (halfword_at fw_redefined 4) [0] = Next l' None
        ∧ l' `sublist_of` [0] ∧ 0 ∉ l'.
Proof.
  destruct (redefined_register_stops_contributing fw_redefined 0x40000000 4
              [6; 8; 10] [0] 0) as (_ & l' & H1 & H2 & H3 & _).
  - apply NoDup_singleton.
  - reflexivity.
  - exists l'. by split_and!.
Defined.

(** ** Totality and reads past the end *)

Lemma literal_data_truncated fw o instr :
  0 ≤ o → Z.of_nat (length fw) < data_offset o instr + 4 →
  0 ≤ literal_data fw o instr < 2 ^ 24.
Proof.
  intros Ho Hlen. unfold literal_data.
  pose proof (data_offset_pos o instr Ho) as Hpos.
  pose proof (int_from_bytes_little_bound
                (Py.slice fw (data_offset o instr) (data_offset o instr + 4))) as Hb.
  pose proof (slice_length fw (data_offset o instr) (data_offset o instr + 4)
                ltac:(lia) ltac:(lia)) as Hsl.
  assert (Z.of_nat (length (Py.slice fw (data_offset o instr)
                                     (data_offset o instr + 4))) ≤ 3) as Hle by lia.
  assert (256 ^ Z.of_nat (length (Py.slice fw (data_offset o instr)
                                           (data_offset o instr + 4))) ≤ 256 ^ 3).
  { apply Z.pow_le_mono_r; lia. }
  change (2 ^ 24) with (256 ^ 3). lia.
Qed.

Lemma trailing_byte_halfword fw :
  Z.of_nat (length fw) mod 2 = 1 →
  0 ≤ halfword_at fw (Z.of_nat (length fw) - 1) < 256.
Proof.
  intros Hodd. unfold halfword_at.
  assert (1 ≤ Z.of_nat (length fw)).
  { destruct fw; [done | simpl; lia]. }
  pose proof (int_from_bytes_little_bound
    (Py.slice fw (Z.of_nat (length fw) - 1) (Z.of_nat (length fw) - 1 + 2))) as Hb.
  pose proof (slice_length fw (Z.of_nat (length fw) - 1)
                (Z.of_nat (length fw) - 1 + 2) ltac:(lia) ltac:(lia)) as Hsl.
  rewrite Z.min_r, Z.min_l in Hsl by lia.
  replace (Z.of_nat (length fw) - (Z.of_nat (length fw) - 1)) with 1 in Hsl by lia.
  rewrite Hsl in Hb. lia.
Qed.

(** C8: the scan is total and raises nothing, whatever the bytes.  A
    literal load whose slot is not wholly inside the image reads a value
    below [2^24], no address within 124 bytes above it is in a peripheral
    window, and the candidate records nothing.  The last byte of an image
    of odd length is read as a halfword below 256: it is never an accepted
    literal load, and a forward scan that reaches it stops. *)
Theorem find_used_registers_total (fw : list byte) :
  (∃ regs, find_used_registers fw = inr regs)
  ∧ (∀ o, 0 ≤ o →
       Z.of_nat (length fw) < data_offset o (halfword_at fw o) + 4 →
       let data := literal_data fw o (halfword_at fw o) in
       0 ≤ data < 2 ^ 24
       ∧ (∀ k, 0 ≤ k ≤ 124 → in_window (data + k) = false)
       ∧ candidate_accesses fw o = []
       ∧ ∀ R (regs_add : evidence → R → R) regs,
           scan_candidate regs_add fw o regs = inr regs)
  ∧ (Z.of_nat (length fw) mod 2 = 1 →
       let o := Z.of_nat (length fw) - 1 in
       accepted fw o = false
       ∧ (∀ R (regs_add : evidence → R → R) regs,
            scan_candidate regs_add fw o regs = inr regs)
       ∧ ∀ data l, inner_step data (halfword_at fw o) l = Break).
Proof.
  split_and!.
  - eexists. apply find_used_registers_in_spec.
  - intros o Ho Hlen data.
    pose proof (literal_data_truncated fw o _ Ho Hlen) as Hd. fold data in Hd.
    assert (candidate_accesses fw o = []) as Hnil.
    { unfold candidate_accesses. destruct (accepted fw o); [|done].
      by apply forward_accesses_small. }
    split_and!; [lia | lia | | done |].
    + intros k Hk. unfold in_window. lia.
    + intros R regs_add regs. by rewrite scan_candidate_spec, Hnil.
  - intros Hodd o. pose proof (trailing_byte_halfword fw Hodd) as Hv.
    fold o in Hv.
    assert (accepted fw o = false) as Hacc.
    { unfold accepted. by rewrite (small_not_opcode _ 0xF800 Hv). }
    split_and!; [done | |].
    + intros R regs_add regs. by apply scan_candidate_rejected.
    + intros data l. unfold inner_step.
      by rewrite (small_not_opcode _ 0xF800 Hv), (small_not_opcode _ 0xFE00 Hv).
Qed.

Lemma find_used_registers_total_witness :
  candidate_accesses fw_truncated 2 = [] ∧ accepted fw_odd 4 = false.
Proof.
  split.
  - destruct (find_used_registers_total fw_truncated) as (_ & H & _).
    destruct (H 2) as (_ & _ & Hnil & _); [lia | vm_compute; reflexivity |].
    exact Hnil.
  - destruct (find_used_registers_total fw_odd) as (_ & _ & H).
    destruct H as (Hacc & _); [reflexivity|]. exact Hacc.
Defined.

(** ** Offsets of the outer scan *)

Lemma outer_offsets_elem_of fw o :
  o ∈ outer_offsets fw ↔ 2 ≤ o < Z.of_nat (length fw) ∧ o mod 2 = 0.
Proof.
  unfold outer_offsets. rewrite range_elem_of.
  replace (o - 2) with (o + (-1) * 2) by lia. by rewrite Z.mod_add by lia.
Qed.

Lemma halfword_bound fw o : 0 ≤ o → 0 ≤ halfword_at fw o < 2 ^ 16.
Proof.
  intros Ho. unfold halfword_at.
  pose proof (int_from_bytes_little_bound (Py.slice fw o (o + 2))) as Hb.
  pose proof (slice_length fw o (o + 2) Ho ltac:(lia)) as Hsl.
  assert (256 ^ Z.of_nat (length (Py.slice fw o (o + 2))) ≤ 256 ^ 2).
  { apply Z.pow_le_mono_r; lia. }
  change (2 ^ 16) with (256 ^ 2). lia.
Qed.

Lemma land_top3 v :
  0 ≤ v < 2 ^ 16 → (Z.land v 0xE000 =? 0xE000) = (0xE000 <=? v).
Proof.
  intros Hv.
  assert (Z.land v 0xE000 = Z.shiftl (Z.land (Z.shiftr v 13) 7) 13) as ->.
  { apply Z.bits_inj'. intros i Hi.
    rewrite Z.land_spec. destruct (decide (i < 13)) as [Hlt|Hge].
    - rewrite Z.shiftl_spec_low by lia.
      change 0xE000 with (Z.shiftl 7 13).
      rewrite Z.shiftl_spec_low by lia. apply andb_false_r.
    - rewrite Z.shiftl_spec by lia. rewrite Z.land_spec, Z.shiftr_spec by lia.
      change 0xE000 with (Z.shiftl 7 13). rewrite Z.shiftl_spec by lia.
      by replace (i - 13 + 13) with i by lia. }
  change 7 with (Z.ones 3).
  rewrite Z.land_ones, Z.shiftr_div_pow2, Z.shiftl_mul_pow2 by lia.
  change (2 ^ 13) with 8192 in *. change (2 ^ 3) with 8. change (2 ^ 16) with 65536 in *.
  assert (0 ≤ v / 8192 < 8) as Hq.
  { split; [apply Z.div_pos; lia | apply Z.div_lt_upper_bound; lia]. }
  rewrite Z.mod_small by done.
  pose proof (Z.div_mod v 8192 ltac:(lia)) as Hdm.
  pose proof (Z.mod_pos_bound v 8192 ltac:(lia)) as Hr.
  destruct (Z.eqb_spec (v / 8192 * 8192) 57344);
    destruct (Z.leb_spec 57344 v); try done; lia.
Qed.

Lemma accepted_iff fw o :
  2 ≤ o →
  accepted fw o = true
  ↔ Z.land (halfword_at fw o) 0xF800 = 0x4800 ∧ halfword_at fw (o - 2) < 0xE000.
Proof.
  intros Ho. pose proof (halfword_bound fw (o - 2) ltac:(lia)) as Hb.
  unfold accepted. rewrite andb_true_iff, negb_true_iff, land_top3 by done.
  by rewrite Z.eqb_eq, Z.leb_gt.
Qed.





(** ** The inner 32-bit prefix test *)

(** C10: the inner loop tests the [prev_instr] of the outer loop, which
    an accepted candidate has already passed; the test never stops a
    forward scan, and the scan equals the scan without it, for the set of
    the source as for any other container. *)
Theorem inner_wide_prefix_check_is_dead (fw : list byte) :
  (∀ o, accepted fw o = true →
        (Z.land (halfword_at fw (o - 2)) 0xE000 =? 0xE000) = false)
  ∧ (∀ R (regs_add : evidence → R → R) prev_instr data offs l regs,
       (Z.land prev_instr 0xE000 =? 0xE000) = false →
       forward_scan regs_add fw prev_instr data offs l regs
       = forward_scan_nocheck regs_add fw data offs l regs)
  ∧ (∀ R (regs_add : evidence → R → R) empty,
       find_used_registers_in regs_add empty fw
       = find_used_registers_nocheck_in regs_add empty fw)
  ∧ find_used_registers fw = find_used_registers_nocheck fw.
Proof.
  split_and!.
  - unfold accepted. by intros o [_ ?%negb_true_iff]%andb_true_iff.
  - intros. by apply forward_scan_unchecked.
  - intros. apply outer_loop_unchecked.
  - apply outer_loop_unchecked.
Qed.

Lemma inner_wide_prefix_check_is_dead_witness :
  (Z.land (halfword_at fw_read_then_write (2 - 2)) 0xE000 =? 0xE000) = false.
Proof.
  exact (proj1 (inner_wide_prefix_check_is_dead fw_read_then_write) 2 eq_refl).
Defined.

(** ** The evidence container *)

Lemma record_all_set (xs : list (Z * Z * evidence)) (s : gset evidence) :
  record_all set_add xs s = s ∪ list_to_set xs.*2.
Proof.
  revert s. induction xs as [|x xs IH]; intros s; simpl.
  - set_solver.
  - unfold record_all in *. simpl. rewrite IH. unfold set_add. set_solver.
Qed.

Lemma ordered_add_elem_of x y (l : list evidence) :
  x ∈ ordered_add y l ↔ x ∈ l ∨ x = y.
Proof.
  unfold ordered_add. case_bool_decide as Hy.
  - naive_solver.
  - rewrite elem_of_app, list_elem_of_singleton. done.
Qed.

Lemma ordered_add_NoDup y (l : list evidence) :
  NoDup l → NoDup (ordered_add y l).
Proof.
  intros Hnd. unfold ordered_add. case_bool_decide as Hy; [done|].
  apply NoDup_app. split_and!; [done | | apply NoDup_singleton].
  intros x Hx ->%list_elem_of_singleton. done.
Qed.

(** Adding an item already present changes nothing: an item added twice
    stays once, where it was first put. *)
Lemma ordered_add_twice y (l : list evidence) :
  ordered_add y (ordered_add y l) = ordered_add y l.
Proof.
  unfold ordered_add at 1. rewrite bool_decide_eq_true_2; [done|].
  apply ordered_add_elem_of. by right.
Qed.

Lemma record_all_ordered (xs : list (Z * Z * evidence)) (l : list evidence) :
  NoDup l →
  NoDup (record_all ordered_add xs l)
  ∧ ∀ x, x ∈ record_all ordered_add xs l ↔ x ∈ l ∨ x ∈ xs.*2.
Proof.
  revert l. induction xs as [|a xs IH]; intros l Hnd.
  - split; [done|]. intros x. simpl. rewrite elem_of_nil. naive_solver.
  - destruct (IH (ordered_add a.2 l) (ordered_add_NoDup _ _ Hnd)) as [Hnd' Hel].
    split; [done|]. intros x. change (record_all ordered_add (a :: xs) l)
      with (record_all ordered_add xs (ordered_add a.2 l)).
    rewrite Hel, ordered_add_elem_of, fmap_cons, elem_of_cons. naive_solver.
Qed.

(** C1: the scan records each item once and the set of the source holds
    exactly the recorded items, but not their order: two images that
    record the same two items in opposite orders return the same set, so
    that no way of listing the returned set gives back the discovery order
    of every image. *)
Theorem find_used_registers_forgets_discovery_order :
  (∀ fw, ∃ log,
     discovery_order fw = inr log ∧ NoDup log
     ∧ find_used_registers fw = inr (list_to_set log))
  ∧ discovery_order fw_read_then_write
    = inr [(0x40000000, Read); (0x40000004, Write)]
  ∧ discovery_order fw_write_then_read
    = inr [(0x40000004, Write); (0x40000000, Read)]
  ∧ find_used_registers fw_read_then_write
    = find_used_registers fw_write_then_read
  ∧ ∀ set_iter : gset evidence → list evidence,
      ¬ ∀ fw regs, find_used_registers fw = inr regs →
                   discovery_order fw = inr (set_iter regs).
Proof.
  assert (find_used_registers fw_read_then_write
          = find_used_registers fw_write_then_read) as Hsame by (by vm_compute).
  split_and!; [| by vm_compute | by vm_compute | done |].
  - intros fw. eexists. unfold discovery_order, find_used_registers.
    rewrite !find_used_registers_in_spec.
    destruct (record_all_ordered (scan_accesses fw (outer_offsets fw)) [])
      as [Hnd Hel]; [apply NoDup_nil_2|].
    split_and!; [done | done |]. f_equal. rewrite record_all_set.
    apply set_eq. intros x. rewrite elem_of_list_to_set, Hel. set_solver.
  - intros set_iter Hiter.
    assert (∃ regs, find_used_registers fw_read_then_write = inr regs)
      as [regs Hregs] by (eexists; apply find_used_registers_in_spec).
    pose proof (Hiter _ _ Hregs) as H1.
    rewrite Hsame in Hregs. pose proof (Hiter _ _ Hregs) as H2.
    assert (discovery_order fw_read_then_write
            = discovery_order fw_write_then_read) as Hd by congruence.
    vm_compute in Hd. discriminate Hd.
Qed.

(** ** The catalog lookup *)

Lemma index_insert_perm rp rows : index_insert rp rows ≡ₚ rp :: rows.
Proof.
  induction rows as [|rp' rows IH]; [done|]. cbn [index_insert].
  destruct (index_before rp.1 rp'.1); [done|]. by rewrite IH, Permutation_swap.
Qed.

Lemma index_order_perm rows : index_order rows ≡ₚ rows.
Proof.
  induction rows as [|rp rows IH]; [done|].
  unfold index_order in *. cbn [foldr]. by rewrite index_insert_perm, IH.
Qed.







Lemma select_rows_elem_of cursor addr rp :
  rp ∈ select_rows cursor addr
  ↔ rp ∈ register_join_peripheral cursor ∧ where_clause addr rp.1 = true.
Proof.
  unfold select_rows.
  by rewrite index_order_perm, list_elem_of_filter, (comm and).
Qed.

Lemma where_clause_spec addr r :
  where_clause addr r = true
  ↔ register_address r ≤ addr
    < register_address r + Z.min 32 (register_size r ÷ 8).
Proof. unfold where_clause. rewrite !andb_true_iff. lia. Qed.

Lemma in_range_spec addr r :
  in_range addr r = true
  ↔ register_address r ≤ addr < register_address r + register_size r ÷ 8.
Proof. unfold in_range. rewrite !andb_true_iff. lia. Qed.

Lemma join_register cursor rp :
  rp ∈ register_join_peripheral cursor → rp.1 ∈ register cursor.
Proof.
  unfold register_join_peripheral. rewrite list_elem_of_In, in_flat_map.
  intros (r & Hr%list_elem_of_In & Hrp%in_map_iff).
  destruct Hrp as (p & <- & _). done.
Qed.

(** The fold behind the dict comprehension, from any heap and dictionary. *)
Lemma comprehension_spec access_ rows (h : heap) (d : gmap Z nat) :
  let res :=
    fold_left
      (λ (st : heap * gmap Z nat) (rp : register_row * peripheral_row),
         (st.1 ++ [[hit_of access_ rp]], <[device_id rp.2 := length st.1]> st.2))
      rows (h, d) in
  res.1 = h ++ ((λ rp, [hit_of access_ rp]) <$> rows)
  ∧ (∀ dev l, res.2 !! dev = Some l →
       match last (filter (λ rp, device_id rp.2 = dev) rows) with
       | Some rp => res.1 !! l = Some [hit_of access_ rp]
                    ∧ (length h ≤ l)%nat
       | None => d !! dev = Some l
       end)
  ∧ dom res.2
    = dom d ∪ list_to_set ((λ rp : register_row * peripheral_row, device_id rp.2)
                             <$> rows).
Proof.
  induction rows as [|rp rows IH] using rev_ind; intros res.
  { subst res. simpl. rewrite app_nil_r. split_and!; [done | done | set_solver]. }
  subst res. rewrite fold_left_app. cbn [fold_left].
  destruct IH as (Hh & Hd & Hdom).
  set (st := fold_left _ rows (h, d)) in *. cbn [fst snd].
  split_and!.
  - rewrite Hh, fmap_app. simpl. by rewrite <-app_assoc.
  - intros dev l. rewrite filter_app, lookup_insert.
    case_decide as Hdev.
    + intros [= <-]. rewrite filter_cons_True, filter_nil, last_snoc by done.
      split; [by rewrite lookup_app_r, Nat.sub_diag|].
      rewrite Hh, length_app. lia.
    + intros Hl. rewrite filter_cons_False, filter_nil, app_nil_r by done.
      specialize (Hd dev l Hl).
      destruct (last (filter _ rows)) as [rp'|]; [|done].
      destruct Hd as [Hget ?]. split; [|done].
      rewrite lookup_app_l; [done|]. by eapply lookup_lt_Some.
  - rewrite dom_insert_L, Hdom, fmap_app, list_to_set_app_L. simpl. set_solver.
Qed.

Lemma find_devices_by_register_spec cursor addr access_ h :
  let res := find_devices_by_register cursor addr access_ h in
  res.1 = h ++ ((λ rp, [hit_of access_ rp]) <$> select_rows cursor addr)
  ∧ dom res.2 = matching_devices cursor addr
  ∧ (∀ dev l, res.2 !! dev = Some l → (length h ≤ l < length res.1)%nat)
  ∧ ∀ dev,
      (deref res.1 <$> res.2) !! dev
      = (λ rp, [hit_of access_ rp])
          <$> last (filter (λ rp, device_id rp.2 = dev) (select_rows cursor addr)).
Proof.
  intros res.
  destruct (comprehension_spec access_ (select_rows cursor addr) h ∅)
    as (Hh & Hd & Hdom).
  fold (find_devices_by_register cursor addr access_ h) in Hh, Hd, Hdom.
  fold res in Hh, Hd, Hdom.
  assert (∀ dev l, res.2 !! dev = Some l →
            ∃ rp, last (filter (λ rp, device_id rp.2 = dev)
                          (select_rows cursor addr)) = Some rp
                  ∧ res.1 !! l = Some [hit_of access_ rp]
                  ∧ (length h ≤ l)%nat) as Hd'.
  { intros dev l Hl. specialize (Hd dev l Hl).
    destruct (last _) as [rp|]; [by exists rp | by rewrite lookup_empty in Hd]. }
  split_and!; [done | | |].
  - rewrite Hdom, dom_empty_L. unfold matching_devices. set_solver.
  - intros dev l (rp & _ & Hget%lookup_lt_Some & ?)%Hd'. lia.
  - intros dev. rewrite lookup_fmap.
    destruct (res.2 !! dev) as [l|] eqn:Hl.
    + destruct (Hd' dev l Hl) as (rp & -> & Hget & _). simpl.
      unfold deref. by rewrite Hget.
    + simpl. destruct (last _) as [rp|] eqn:Hlast; [|done]. exfalso.
      apply last_Some_elem_of in Hlast. apply list_elem_of_filter in Hlast as [Hdev Hin].
      apply not_elem_of_dom in Hl. apply Hl. rewrite Hdom.
      apply elem_of_union_r, elem_of_list_to_set, list_elem_of_fmap. eauto.
Qed.

(** ** Intersection and merge *)

Lemma merge_loop_spec (d2 : gmap Z nat) ks (h : heap) (d : gmap Z nat) :
  NoDup ks → (∀ k, k ∈ ks → is_Some (d !! k)) →
  ∃ h' d',
    merge_loop d2 ks (h, d) = inr (h', d')
    ∧ (∀ i, d' !! i
            = if decide (i ∈ ks ∧ d2 !! i = None) then None else d !! i)
    ∧ length h' = length h
    ∧ ((∀ k, k ∈ ks → d2 !! k = None) → h' = h).
Proof.
  revert h d. induction ks as [|k ks IH]; intros h d Hnd Hks.
  { exists h, d. split_and!; [done | | done | done].
    intros i. case_decide as Hi; [|done]. by destruct Hi as [?%elem_of_nil _]. }
  apply NoDup_cons in Hnd as [Hk Hnd].
  destruct (Hks k) as [l1 Hl1]; [by left|].
  cbn [merge_loop]. unfold merge_step. cbn [fst snd]. rewrite Hl1.
  destruct (d2 !! k) as [l2|] eqn:Hl2; cbn [Py.bind].
  - destruct (IH (<[l1 := deref h l1 ++ deref h l2]> h) d Hnd)
      as (h' & d' & -> & Hd' & Hlen & _).
    { intros k' Hk'. apply Hks. by right. }
    exists h', d'. split_and!; [done | | by rewrite Hlen, length_insert |].
    + intros i. rewrite Hd'. repeat case_decide; try done.
      * destruct H as [Hi ?]. exfalso. apply H0. split; [by right | done].
      * destruct H0 as [[->|Hi]%elem_of_cons Hn]; [congruence|]. by destruct H.
    + intros Hall. rewrite Hall in Hl2; [done | by left].
  - destruct (IH h (delete k d) Hnd) as (h' & d' & -> & Hd' & Hlen & Hh).
    { intros k' Hk'. rewrite lookup_delete_ne by congruence. apply Hks. by right. }
    exists h', d'. split_and!; [done | | done |].
    + intros i. rewrite Hd'. destruct (decide (i = k)) as [->|Hne].
      * rewrite lookup_delete_eq. rewrite (decide_True (P := k ∈ k :: ks ∧ _)).
        -- by case_decide.
        -- split; [by left | done].
      * rewrite lookup_delete_ne by done. repeat case_decide; try done.
        -- destruct H as [Hi ?]. exfalso. apply H0. split; [by right | done].
        -- destruct H0 as [[->|Hi]%elem_of_cons Hn]; [done|]. by destruct H.
    + intros Hall. apply Hh. intros k' Hk'. apply Hall. by right.
Qed.

Lemma dict_intersection_merge_some (h : heap) (d1 d2 : gmap Z nat) :
  ∃ h' d',
    dict_intersection_merge h (Some d1) d2 = inr (h', d')
    ∧ (∀ i, d' !! i = match d2 !! i with Some _ => d1 !! i | None => None end)
    ∧ dom d' = dom d1 ∩ dom d2
    ∧ d' ⊆ d1
    ∧ length h' = length h
    ∧ (dom d1 ∩ dom d2 = ∅ → h' = h).
Proof.
  unfold dict_intersection_merge.
  destruct (merge_loop_spec d2 (map_to_list d1).*1 h d1)
    as (h' & d' & Heq & Hd' & Hlen & Hh).
  { apply NoDup_fst_map_to_list. }
  { intros k [[k' l] [-> Hin%elem_of_map_to_list]]%list_elem_of_fmap. eauto. }
  assert (∀ i, d' !! i = match d2 !! i with Some _ => d1 !! i | None => None end) as Hlook.
  { intros i. rewrite Hd'. destruct (d2 !! i) eqn:H2.
    - by rewrite decide_False by naive_solver.
    - case_decide as Hi; [done|].
      destruct (d1 !! i) as [l|] eqn:H1; [|done]. exfalso. apply Hi.
      split; [|done]. apply list_elem_of_fmap. exists (i, l).
      split; [done|]. by apply elem_of_map_to_list. }
  exists h', d'. split_and!; [done | done | | | done |].
  - apply set_eq. intros i.
    rewrite elem_of_intersection, !elem_of_dom, Hlook.
    destruct (d2 !! i); [|by split; [intros [? ?] | intros [_ [? ?]]]].
    split; [eauto | by intros [? _]].
  - apply map_subseteq_spec. intros i l. rewrite Hlook. by destruct (d2 !! i).
  - intros Hdisj. apply Hh.
    intros k [[k' l] [-> Hin%elem_of_map_to_list]]%list_elem_of_fmap. simpl.
    apply not_elem_of_dom. intros Hk2.
    assert (k' ∈ dom d1 ∩ dom d2) as Hk; [|by rewrite Hdisj in Hk].
    apply elem_of_intersection. split; [by apply elem_of_dom|done].
Qed.

(** ** One evidence item *)

Lemma hits_of_extend (h extra : heap) (o : option (gmap Z nat)) :
  heap_ok (h, o) → hits_of (h ++ extra, o) = hits_of (h, o).
Proof.
  intros Hok. unfold hits_of. destruct o as [d|]; [|done]. simpl. f_equal.
  apply map_eq. intros dev. rewrite !lookup_fmap.
  destruct (d !! dev) as [l|] eqn:Hl; [|done]. simpl. f_equal.
  unfold deref. rewrite lookup_app_l; [done|]. by eapply Hok.
Qed.

Lemma heap_ok_mono (h h' : heap) (d d' : gmap Z nat) :
  heap_ok (h, Some d) → (length h ≤ length h')%nat → d' ⊆ d →
  heap_ok (h', Some d').
Proof.
  intros Hok Hlen Hsub d0 dev l [= <-] Hl.
  pose proof (lookup_weaken _ _ _ _ Hl Hsub) as Hl'.
  pose proof (Hok d dev l eq_refl Hl'). simpl in *. lia.
Qed.

Lemma heap_ok_none (h : heap) : heap_ok (h, None).
Proof. by intros d dev l [=]. Qed.

Lemma find_devices_step_spec cursor (st : heap * option (gmap Z nat)) item :
  heap_ok st →
  let m := (find_devices_by_register cursor item.1 item.2 st.1).2 in
  let found := matching_devices cursor item.1 in
  ∃ st',
    find_devices_step cursor st item = inr st'
    ∧ heap_ok st'
    ∧ dom m = found
    ∧ match st.2 with
      | None => st'.2 = if decide (found = ∅) then None else Some m
      | Some d =>
          if decide (dom d ∩ found = ∅)
          then st'.2 = Some d ∧ hits_of st' = hits_of st
          else ∃ d', st'.2 = Some d' ∧ dom d' = dom d ∩ found ∧ d' ⊆ d
      end
    ∧ (found = ∅ → st'.2 = st.2 ∧ hits_of st' = hits_of st).
Proof.
  intros Hok m found. destruct st as [h o].
  destruct (find_devices_by_register_spec cursor item.1 item.2 h)
    as (Hh1 & Hdom & Hloc & _).
  unfold find_devices_step. cbn [fst snd] in *. fold found in Hdom.
  destruct (find_devices_by_register cursor item.1 item.2 h) as [h1 m1] eqn:Hres.
  cbn [fst snd] in *. subst m.
  assert (hits_of (h1, o) = hits_of (h, o)) as Hext.
  { rewrite Hh1. by apply hits_of_extend. }
  assert (length h ≤ length h1)%nat as Hgrow by (rewrite Hh1, length_app; lia).
  assert (m1 = ∅ ↔ found = ∅) as Hempty.
  { rewrite <-Hdom. by rewrite dom_empty_iff_L. }
  case_bool_decide as Hm.
  { (* no device matches *)
    pose proof (proj1 Hempty Hm) as Hf.
    exists (h1, o). cbn [fst snd]. split_and!; [done | | done | |].
    - destruct o as [d|]; [|apply heap_ok_none].
      by apply (heap_ok_mono h h1 d d).
    - destruct o as [d|].
      + rewrite decide_True by (rewrite Hf; set_solver). done.
      + by rewrite decide_True.
    - done. }
  assert (found ≠ ∅) as Hf by (by rewrite <-Hempty).
  destruct o as [d|]; cbn [dict_intersection_merge Py.bind].
  2:{ (* first match *)
    rewrite bool_decide_eq_false_2 by done.
    exists (h1, Some m1). cbn [fst snd]. split_and!; [done | | done | | done].
    - intros d dev l [= <-] Hl. apply Hloc in Hl. simpl. lia.
    - by rewrite decide_False. }
  destruct (dict_intersection_merge_some h1 d m1)
    as (h2 & d' & Heq & _ & Hdom' & Hsub & Hlen & Hsame).
  unfold dict_intersection_merge in Heq. rewrite Heq. cbn [Py.bind fst snd].
  rewrite Hdom in Hdom', Hsame.
  case_bool_decide as Hd'.
  - (* empty intersection *)
    assert (dom d ∩ found = ∅) as Hdisj.
    { rewrite <-Hdom', Hd'. apply dom_empty_L. }
    rewrite (Hsame Hdisj). exists (h1, Some d). cbn [fst snd].
    split_and!; [done | | done | by rewrite decide_True | done].
    by apply (heap_ok_mono h h1 d d).
  - exists (h2, Some d'). cbn [fst snd].
    split_and!; [done | | done | | done].
    + apply (heap_ok_mono h h2 d d'); [done | lia | done].
    + rewrite decide_False; [eauto|].
      intros Hdisj. apply Hd'. apply dom_empty_iff_L. by rewrite Hdom'.
Qed.

(** ** The matcher *)

Lemma find_devices_loop_snoc cursor regs item st :
  find_devices_loop cursor (regs ++ [item]) st
  = try st' := find_devices_loop cursor regs st in
    find_devices_step cursor st' item.
Proof.
  revert st. induction regs as [|x regs IH]; intros st; simpl.
  - by destruct (find_devices_step cursor st item).
  - destruct (find_devices_step cursor st x); simpl; auto.
Qed.

Lemma find_devices_loop_ok cursor regs st :
  heap_ok st → ∃ st', find_devices_loop cursor regs st = inr st' ∧ heap_ok st'.
Proof.
  revert st. induction regs as [|x regs IH]; intros st Hok; [by exists st|].
  destruct (find_devices_step_spec cursor st x Hok) as (st1 & Hstep & Hok1 & _).
  simpl. rewrite Hstep. simpl. by apply IH.
Qed.

(** C5: at every step of [find_devices] the match state is defined, and a
    state that already holds candidates keeps a sub-dictionary of them:
    the candidate set can only lose devices.  When no device matches the
    item, or the devices that match share nothing with the candidates, the
    item is dropped: candidates and their hit records are what they were,
    although the in-place [+=] works on the lists of the running state. *)
Theorem narrowing_is_monotone (cursor : database) (regs : list evidence)
    (item : evidence) :
  ∃ st st',
    find_devices cursor regs = inr st
    ∧ find_devices_step cursor st item = inr st'
    ∧ find_devices cursor (regs ++ [item]) = inr st'
    ∧ (∀ d, st.2 = Some d →
         ∃ d', st'.2 = Some d' ∧ d' ⊆ d ∧ dom d' ⊆ dom d
               ∧ (size d' ≤ size d)%nat)
    ∧ (let found :=
         dom (find_devices_by_register cursor item.1 item.2 st.1).2 in
       found = ∅ ∨ (∃ d, st.2 = Some d ∧ dom d ∩ found = ∅) →
       st'.2 = st.2 ∧ hits_of st' = hits_of st).
Proof.
  destruct (find_devices_loop_ok cursor regs ([], None) (heap_ok_none []))
    as (st & Hst & Hok).
  destruct (find_devices_step_spec cursor st item Hok)
    as (st' & Hstep & _ & Hdom & Hcase & Hmiss).
  exists st, st'. split_and!; [done | done | | |].
  - unfold find_devices in *. by rewrite find_devices_loop_snoc, Hst.
  - intros d Hd. rewrite Hd in Hcase. case_decide as Hdisj.
    + destruct Hcase as [-> _]. exists d. by split_and!.
    + destruct Hcase as (d' & -> & _ & Hsub). exists d'.
      split_and!; [done | done | by apply subseteq_dom | by apply map_subseteq_size].
  - intros found. subst found. rewrite Hdom. intros [Hnone | (d & Hd & Hdisj)].
    + by apply Hmiss.
    + rewrite Hd in Hcase. rewrite decide_True in Hcase by done.
      by rewrite Hd.
Qed.

(** ** A single covering device *)

Lemma matching_devices_elem_of cursor addr dev :
  dev ∈ matching_devices cursor addr
  ↔ ∃ rp, rp ∈ register_join_peripheral cursor
          ∧ device_id rp.2 = dev ∧ where_clause addr rp.1 = true.
Proof.
  unfold matching_devices. rewrite elem_of_list_to_set, list_elem_of_fmap.
  split.
  - intros (rp & -> & [? ?]%select_rows_elem_of). eauto.
  - intros (rp & ? & <- & ?). exists rp. split; [done|].
    by apply select_rows_elem_of.
Qed.

(** On a catalog without registers wider than 32 bytes the query finds
    the devices that cover the address. *)
Lemma matching_devices_covers cursor addr dev :
  (∀ r, r ∈ register cursor → register_size r ÷ 8 ≤ 32) →
  dev ∈ matching_devices cursor addr ↔ covers cursor dev addr.
Proof.
  intros Hsize. rewrite matching_devices_elem_of. unfold covers.
  split; intros (rp & Hin & Hdev & Ht); exists rp; split_and!; try done.
  - apply in_range_spec. apply where_clause_spec in Ht. lia.
  - apply where_clause_spec. apply in_range_spec in Ht.
    pose proof (Hsize _ (join_register _ _ Hin)). lia.
Qed.

(** From a state with candidates, items that all match [dev] narrow the
    candidates to those matching every item. *)
Lemma find_devices_loop_narrows cursor regs (h : heap) (d : gmap Z nat) dev :
  heap_ok (h, Some d) → dev ∈ dom d →
  (∀ item, item ∈ regs → dev ∈ matching_devices cursor item.1) →
  ∃ h' d',
    find_devices_loop cursor regs (h, Some d) = inr (h', Some d')
    ∧ ∀ x, x ∈ dom d'
           ↔ x ∈ dom d ∧ ∀ item, item ∈ regs → x ∈ matching_devices cursor item.1.
Proof.
  revert h d. induction regs as [|item regs IH]; intros h d Hok Hdev Hall.
  { exists h, d. split; [done|]. intros x. split; [|by intros [? _]].
    intros ?. split; [done|]. by intros ? ?%elem_of_nil. }
  destruct (find_devices_step_spec cursor (h, Some d) item Hok)
    as ([h1 o1] & Hstep & Hok1 & _ & Hcase & _).
  cbn [fst snd] in Hcase. rewrite decide_False in Hcase.
  2:{ intros Hdisj. assert (dev ∈ dom d ∩ matching_devices cursor item.1) as Hin.
      { apply elem_of_intersection. split; [done|]. apply Hall. by left. }
      by rewrite Hdisj in Hin. }
  destruct Hcase as (d1 & -> & Hdom1 & _).
  destruct (IH h1 d1 Hok1) as (h' & d' & Hloop & Hd').
  { rewrite Hdom1. apply elem_of_intersection. split; [done|]. apply Hall. by left. }
  { intros it Hit. apply Hall. by right. }
  exists h', d'. split; [by simpl; rewrite Hstep|].
  intros x. rewrite Hd', Hdom1, elem_of_intersection. split.
  - intros [[? ?] Hrest]. split; [done|].
    intros it [->|Hit]%elem_of_cons; [done | by apply Hrest].
  - intros [? Hrest]. split_and!; [done | apply Hrest; by left |].
    intros it Hit. apply Hrest. by right.
Qed.

(** C3, amended: on a catalog without registers wider than 32 bytes, and
    for evidence that is not empty, if one device covers every evidence
    address and no other device does, [find_devices] ends with that device
    as its only candidate. *)
Theorem single_covering_device_is_identified (cursor : database)
    (regs : list evidence) (dev : Z) :
  regs ≠ [] →
  (∀ r, r ∈ register cursor → register_size r ÷ 8 ≤ 32) →
  (∀ item, item ∈ regs → covers cursor dev item.1) →
  (∀ dev', (∀ item, item ∈ regs → covers cursor dev' item.1) → dev' = dev) →
  ∃ st d, find_devices cursor regs = inr st ∧ st.2 = Some d ∧ dom d = {[ dev ]}.
Proof.
  intros Hne Hsize Hcov Honly.
  destruct regs as [|item regs]; [done|].
  assert (∀ it, it ∈ item :: regs → dev ∈ matching_devices cursor it.1) as Hall.
  { intros it Hit. apply matching_devices_covers; [done | by apply Hcov]. }
  destruct (find_devices_step_spec cursor ([], None) item (heap_ok_none []))
    as ([h1 o1] & Hstep & Hok1 & Hdom & Hcase & _).
  cbn [fst snd] in Hcase, Hdom. rewrite decide_False in Hcase.
  2:{ intros Hempty. assert (dev ∈ matching_devices cursor item.1) as Hin
        by (apply Hall; by left). by rewrite Hempty in Hin. }
  subst o1.
  destruct (find_devices_loop_narrows cursor regs h1 _ dev Hok1)
    as (h' & d' & Hloop & Hd').
  { rewrite Hdom. apply Hall. by left. }
  { intros it Hit. apply Hall. by right. }
  exists (h', Some d'), d'. split_and!; [| done |].
  - unfold find_devices. simpl. by rewrite Hstep.
  - apply set_eq. intros x. rewrite Hd', Hdom, elem_of_singleton. split.
    + intros [Hx Hrest]. apply Honly. intros it [->|Hit]%elem_of_cons.
      * by apply matching_devices_covers.
      * apply matching_devices_covers; [done | by apply Hrest].
    + intros ->. split; [apply Hall; by left|].
      intros it Hit. apply Hall. by right.
Qed.

Lemma single_covering_device_is_identified_witness :
  ∃ st d,
    find_devices db_two_devices [(0x40000000, Read); (0x40000004, Write)]
    = inr st
    ∧ st.2 = Some d ∧ dom d = {[ 1 ]}.
Proof.
  apply (single_covering_device_is_identified db_two_devices
           [(0x40000000, Read); (0x40000004, Write)] 1).
  - done.
  - intros r Hr. vm_compute in Hr.
    repeat (apply elem_of_cons in Hr as [->|Hr]; [by vm_compute|]).
    by apply elem_of_nil in Hr.
  - intros item Hitem.
    apply elem_of_cons in Hitem as [->|Hitem].
    { eexists (_, _). split_and!; [apply list_elem_of_here | done | done]. }
    apply list_elem_of_singleton in Hitem as ->.
    eexists (_, _).
    split_and!; [apply list_elem_of_further, list_elem_of_here | done | done].
  - intros dev' Hcov.
    destruct (Hcov (0x40000004, Write)) as (rp & Hin & <- & Hr);
      [apply list_elem_of_further, list_elem_of_here|].
    vm_compute in Hin.
    repeat (apply elem_of_cons in Hin as [->|Hin]; [done || by vm_compute in Hr|]).
    by apply elem_of_nil in Hin.
Defined.

(** C3 as stated fails in two ways.  Device 1 is the only device of the
    catalog and its register covers the address [0x40000020], 32 bytes
    into a 64-byte register, yet the query does not return it and
    [find_devices] ends without candidates; and without any evidence the
    only device "covers every item", and the result is again [None]. *)
Lemma covering_device_is_missed :
  (∀ item, item ∈ [(0x40000020, Read)] → covers db_wide_register 1 item.1)
  ∧ (∀ dev', (∀ item, item ∈ [(0x40000020, Read)] →
                      covers db_wide_register dev' item.1) → dev' = 1)
  ∧ find_devices db_wide_register [(0x40000020, Read)] = inr ([], None)
  ∧ find_devices db_wide_register [] = inr ([], None).
Proof.
  split_and!; [| | done | done].
  - intros item ->%list_elem_of_singleton. eexists (_, _).
    split_and!; [apply list_elem_of_here | done | done].
  - intros dev' Hcov.
    destruct (Hcov (0x40000020, Read)) as (rp & Hin & <- & _);
      [apply list_elem_of_here|].
    vm_compute in Hin. by apply list_elem_of_singleton in Hin as ->.
Qed.

(** ** What the lookup returns *)




(** ** No identification *)

Lemma find_devices_loop_unmatched cursor regs (h : heap) :
  (∀ item, item ∈ regs → matching_devices cursor item.1 = ∅) →
  ∃ h', find_devices_loop cursor regs (h, None) = inr (h', None).
Proof.
  revert h. induction regs as [|item regs IH]; intros h Hall; [by exists h|].
  destruct (find_devices_step_spec cursor (h, None) item (heap_ok_none h))
    as ([h1 o1] & Hstep & _ & _ & Hcase & _).
  cbn [fst snd] in Hcase. rewrite decide_True in Hcase by (apply Hall; by left).
  subst o1. destruct (IH h1) as (h' & Hloop).
  { intros it Hit. apply Hall. by right. }
  exists h'. simpl. by rewrite Hstep.
Qed.

(** C2: when no evidence item matches a catalog entry, [find_devices]
    returns [None], which is not the empty dictionary, and the report
    that follows raises [AttributeError] on it. *)
Theorem unmatched_evidence_crashes_report
    (set_iter : gset evidence → list evidence) (cursor : database)
    (fw : list byte) (regs : gset evidence) :
  find_used_registers fw = inr regs →
  (∀ item, item ∈ set_iter regs → matching_devices cursor item.1 = ∅) →
  (∃ st, find_devices cursor (set_iter regs) = inr st
         ∧ st.2 = None ∧ st.2 ≠ Some ∅)
  ∧ main_file set_iter cursor fw = inl Py.AttributeError.
Proof.
  intros Hregs Hall.
  destruct (find_devices_loop_unmatched cursor (set_iter regs) [] Hall)
    as (h' & Hloop).
  split.
  - exists (h', None). by split_and!.
  - unfold main_file. rewrite Hregs. cbn [Py.bind].
    unfold find_devices. by rewrite Hloop.
Qed.

Lemma unmatched_evidence_crashes_report_witness :
  main_file elements db_two_devices [] = inl Py.AttributeError.
Proof.
  refine (proj2 (unmatched_evidence_crashes_report elements db_two_devices
                   [] ∅ eq_refl _)).
  intros item Hitem. apply elem_of_elements in Hitem. set_solver.
Defined.

Lemma narrowing_is_monotone_witness :
  ∃ st st',
    find_devices db_two_devices [(0x40000000, Read)] = inr st
    ∧ find_devices_step db_two_devices st (0x40000004, Write) = inr st'.
Proof.
  destruct (narrowing_is_monotone db_two_devices [(0x40000000, Read)]
              (0x40000004, Write)) as (st & st' & H1 & H2 & _).
  by exists st, st'.
Defined.

(** * Further properties of the scan *)

Lemma sublist_singleton (r : Z) (l : list Z) :
  l `sublist_of` [r] → l = [] ∨ l = [r].
Proof.
  intros Hsub. destruct l as [|x l]; [by left|]. right.
  pose proof (sublist_length _ _ Hsub) as Hlen. simpl in Hlen.
  destruct l; [|simpl in Hlen; lia].
  assert (x ∈ [r]) as ->%list_elem_of_singleton; [|done].
  eapply elem_of_sublist; [|done]. by left.
Qed.

Lemma forward_accesses_nil fw data offs : forward_accesses fw data offs [] = [].
Proof. by destruct offs. Qed.

Lemma inner_step_break_iff data instr2 l :
  inner_step data instr2 l = Break ↔ recognized instr2 = false.
Proof.
  unfold recognized, inner_step, record_if_window.
  destruct (Z.land instr2 0xF800 =? 0x6800) eqn:E1; simpl.
  { split; [|done]. repeat case_match; try done.
    destruct (remove_if_tracked_spec (Z.land (Z.shiftr instr2 0) 7) l)
      as (l' & Hrem & _). congruence. }
  destruct (Z.land instr2 0xF800 =? 0x6000) eqn:E2; simpl.
  { split; [|done]. by repeat case_match. }
  destruct (Z.land instr2 0xF800 =? 0x8000) eqn:E3; simpl.
  { split; [|done]. by repeat case_match. }
  destruct (Z.land instr2 0xF800 =? 0x7000) eqn:E4; simpl.
  { split; [|done]. by repeat case_match. }
  destruct (Z.land instr2 0xF800 =? 0x4800) eqn:E5; simpl.
  { split; [|done].
    destruct (remove_if_tracked_spec (Z.land (Z.shiftr instr2 8) 7) l)
      as (l' & Hrem & _). congruence. }
  destruct (Z.land instr2 0xFE00 =? 0x1A00) eqn:E6; simpl.
  { split; [|done].
    destruct (remove_if_tracked_spec (Z.land (Z.shiftr instr2 0) 7) l)
      as (l' & Hrem & _). congruence. }
  destruct (Z.land instr2 0xF800 =? 0x2000) eqn:E7; simpl; [|done].
  split; [|done].
  destruct (remove_if_tracked_spec (Z.land (Z.shiftr instr2 8) 7) l)
    as (l' & Hrem & _). congruence.
Qed.

(** An access recorded by a forward scan that starts from one register:
    the scan reached its offset keeping that register, through steps that
    neither stopped nor removed it. *)
Lemma forward_accesses_single fw data offs r a :
  a ∈ forward_accesses fw data offs [r] →
  ∃ before after,
    offs = before ++ (a.1).1 :: after
    ∧ (∀ o', o' ∈ before →
         ∃ item, inner_step data (halfword_at fw o') [r] = Next [r] item)
    ∧ inner_step data (halfword_at fw (a.1).1) [r] = Next [r] (Some a.2)
    ∧ (a.1).2 = r.
Proof.
  induction offs as [|o offs IH]; [by intros ?%elem_of_nil|].
  cbn [forward_accesses].
  destruct (inner_step_spec data (halfword_at fw o) [r])
    as [-> | (l' & item & Hstep & Hsub & Hit)]; [by intros ?%elem_of_nil|].
  rewrite Hstep, elem_of_app. intros [Hin|Hin].
  - destruct item as [it|]; [|by apply elem_of_nil in Hin].
    apply list_elem_of_singleton in Hin as ->.
    destruct (Hit it eq_refl) as (-> & Hbase%list_elem_of_singleton & _).
    exists [], offs. split_and!; [done | by intros ? ?%elem_of_nil | done | done].
  - apply sublist_singleton in Hsub as [->| ->].
    { by rewrite forward_accesses_nil in Hin; apply elem_of_nil in Hin. }
    destruct (IH Hin) as (before & after & -> & Hbefore & Hat & Hbase).
    exists (o :: before), after. split_and!; [done | | done | done].
    intros o' [->|Ho']%elem_of_cons; [by exists item | by apply Hbefore].
Qed.

Lemma range_split_between start stop before o after :
  Py.range start stop 2 = before ++ o :: after →
  start ≤ o < stop ∧ (o - start) mod 2 = 0
  ∧ ∀ o', start ≤ o' < o → (o' - start) mod 2 = 0 → o' ∈ before.
Proof.
  revert start. induction before as [|b before IH]; intros start Hsplit.
  - destruct (decide (start < stop)) as [Hlt|Hge].
    2:{ rewrite range_nil in Hsplit by lia. done. }
    rewrite range_cons in Hsplit by done. injection Hsplit as <- _.
    rewrite Z.sub_diag. split_and!; [lia | lia | done | intros; lia].
  - destruct (decide (start < stop)) as [Hlt|Hge].
    2:{ rewrite range_nil in Hsplit by lia. done. }
    rewrite range_cons in Hsplit by done. injection Hsplit as <- Hrest.
    destruct (IH _ Hrest) as (Hr & Hm & Hall).
    assert ((o - start) mod 2 = 0) as Hm'.
    { replace (o - start) with (o - (start + 2) + 1 * 2) by lia.
      by rewrite Z.mod_add by lia. }
    split_and!; [lia | lia | done |].
    intros o' Ho' Hmo'. destruct (decide (o' = start)) as [->|Hne]; [by left|].
    right. apply Hall.
    + assert (o' ≠ start + 1); [|lia]. intros ->.
      replace (start + 1 - start) with 1 in Hmo' by lia. done.
    + replace (o' - (start + 2)) with (o' - start + (-1) * 2) by lia.
      by rewrite Z.mod_add by lia.
Qed.

Lemma scan_accesses_elem_of fw offs a :
  a ∈ scan_accesses fw offs ↔ ∃ o, o ∈ offs ∧ a ∈ candidate_accesses fw o.
Proof.
  unfold scan_accesses. rewrite list_elem_of_In, in_flat_map.
  split; intros (o & Ho & Ha); exists o; by rewrite ?list_elem_of_In in *.
Qed.

Lemma find_used_registers_elem_of fw regs item :
  find_used_registers fw = inr regs →
  item ∈ regs ↔ ∃ a, a ∈ scan_accesses fw (outer_offsets fw) ∧ a.2 = item.
Proof.
  unfold find_used_registers. rewrite find_used_registers_in_spec.
  intros [= <-]. rewrite record_all_set, elem_of_union, elem_of_list_to_set,
    list_elem_of_fmap. set_solver.
Qed.

(** A step from the one-element list [[r]] that goes on with [[r]]: the
    halfword has a branch in the chain and is none of those at which the
    source removes [r] from the list. *)
Lemma inner_step_keeps data instr2 r item :
  inner_step data instr2 [r] = Next [r] item →
  recognized instr2 = true
  ∧ ¬ (Z.land instr2 0xF800 = 0x4800 ∧ literal_rd instr2 = r)
  ∧ ¬ (Z.land instr2 0xF800 = 0x2000 ∧ literal_rd instr2 = r)
  ∧ ¬ (Z.land instr2 0xFE00 = 0x1A00 ∧ Z.land instr2 0x07 = r)
  ∧ ¬ (Z.land instr2 0xF800 = 0x6800 ∧ Z.land instr2 0x07 = r
       ∧ base_reg instr2 ≠ r).
Proof.
  intros Hstep.
  assert (redefines instr2 [r] ≠ Some r) as Hred.
  { intros Hred.
    destruct (inner_step_redefines data _ _ _ Hred (NoDup_singleton _))
      as (l' & Hstep' & _ & Hnot).
    rewrite Hstep in Hstep'. injection Hstep' as <- _. apply Hnot. by left. }
  split.
  { destruct (recognized instr2) eqn:Hrec; [done|].
    apply (inner_step_break_iff data _ [r]) in Hrec. congruence. }
  unfold redefines, literal_rd in *.
  split_and!.
  - intros [Hop Hrd]. apply Hred. rewrite Hop. simpl. by rewrite Hrd.
  - intros [Hop Hrd]. apply Hred. rewrite Hop. simpl.
    destruct (Z.land instr2 0xFE00 =? 0x1A00) eqn:Hsubs.
    { apply Z.eqb_eq, subs_opcode in Hsubs. congruence. }
    by rewrite Hrd.
  - intros [Hop Hrd]. apply Hred.
    rewrite (subs_opcode _ Hop), Hop. simpl. by rewrite Hrd.
  - intros (Hop & Hrd & Hbase). apply Hred. rewrite Hop. simpl.
    destruct (Z.eqb_spec (base_reg instr2) r) as [?|_]; [done|].
    simpl. by rewrite Hrd.
Qed.

(** X3: every item of the returned set was recorded at an even offset
    [o2] after an accepted literal load at an even offset [o >= 2], one
    whose preceding halfword is below [0xE000]: the access at [o2] uses
    the register the literal was loaded into, and at every halfword
    between the two the scan went on with that register in its list.
    Such a halfword has a branch in the chain and is none of those at
    which the source removes the register: a literal load or [MOVS] whose
    destination it is, a [SUBS] whose destination it is, or a word load
    whose destination it is and whose base is another register.  A word
    load through the register into the register itself is not among
    them. *)
Theorem evidence_provenance (fw : list byte) (regs : gset evidence)
    (item : evidence) :
  find_used_registers fw = inr regs → item ∈ regs →
  ∃ o o2,
    2 ≤ o ∧ o < o2 < Z.of_nat (length fw) ∧ o mod 2 = 0 ∧ o2 mod 2 = 0
    ∧ accepted fw o = true
    ∧ Z.land (halfword_at fw o) 0xF800 = 0x4800
    ∧ halfword_at fw (o - 2) < 0xE000
    ∧ inner_step (literal_data fw o (halfword_at fw o)) (halfword_at fw o2)
        [literal_rd (halfword_at fw o)]
      = Next [literal_rd (halfword_at fw o)] (Some item)
    ∧ base_reg (halfword_at fw o2) = literal_rd (halfword_at fw o)
    ∧ ∀ o', o < o' < o2 → o' mod 2 = 0 →
        (∃ item',
           inner_step (literal_data fw o (halfword_at fw o)) (halfword_at fw o')
             [literal_rd (halfword_at fw o)]
           = Next [literal_rd (halfword_at fw o)] item')
        ∧ recognized (halfword_at fw o') = true
        ∧ ¬ (Z.land (halfword_at fw o') 0xF800 = 0x4800
             ∧ literal_rd (halfword_at fw o') = literal_rd (halfword_at fw o))
        ∧ ¬ (Z.land (halfword_at fw o') 0xF800 = 0x2000
             ∧ literal_rd (halfword_at fw o') = literal_rd (halfword_at fw o))
        ∧ ¬ (Z.land (halfword_at fw o') 0xFE00 = 0x1A00
             ∧ Z.land (halfword_at fw o') 0x07 = literal_rd (halfword_at fw o))
        ∧ ¬ (Z.land (halfword_at fw o') 0xF800 = 0x6800
             ∧ Z.land (halfword_at fw o') 0x07 = literal_rd (halfword_at fw o)
             ∧ base_reg (halfword_at fw o') ≠ literal_rd (halfword_at fw o)).
Proof.
  intros Hregs Hitem.
  apply (find_used_registers_elem_of _ _ _ Hregs) in Hitem
    as ([[o2 base] it] & Ha & Hit). simpl in Hit. subst it.
  apply scan_accesses_elem_of in Ha as (o & Ho & Ha).
  apply outer_offsets_elem_of in Ho as [Ho Heven].
  unfold candidate_accesses in Ha.
  destruct (accepted fw o) eqn:Hacc; [|by apply elem_of_nil in Ha].
  fold (literal_rd (halfword_at fw o)) in Ha.
  destruct (forward_accesses_single _ _ _ _ _ Ha)
    as (before & after & Hsplit & Hbefore & Hat & Hbase).
  cbn [fst snd] in *.
  destruct (range_split_between _ _ _ _ _ Hsplit) as (Hr & Hm & Hall).
  assert (o2 mod 2 = 0) as Heven2.
  { replace o2 with ((o2 - (o + 2)) + o + 1 * 2) by lia.
    rewrite Z.mod_add by lia. rewrite Z.add_mod, Hm, Heven by lia. done. }
  destruct (proj1 (accepted_iff fw o ltac:(lia)) Hacc) as [Hop Hprev].
  exists o, o2.
  split_and!; [lia | lia | lia | done | done | done | done | done | done | |].
  - destruct (inner_step_spec (literal_data fw o (halfword_at fw o))
                (halfword_at fw o2) [literal_rd (halfword_at fw o)])
      as [Hb | (l' & it' & Hstep & _ & Hit')]; [congruence|].
    rewrite Hat in Hstep. injection Hstep as <- <-.
    destruct (Hit' item eq_refl) as (_ & Hin%list_elem_of_singleton & _). done.
  - intros o' Ho' Heven'.
    destruct (Hbefore o') as (it' & Hstep).
    { pose proof (Z.div_mod o 2 ltac:(lia)) as Hdo.
      pose proof (Z.div_mod o' 2 ltac:(lia)) as Hdo'.
      apply Hall; [lia|].
      replace (o' - (o + 2)) with (o' + ((- o) + (-1) * 2)) by lia.
      rewrite Z.add_mod, Z.mod_add, Heven' by lia.
      replace (- o) with (0 - o) by lia.
      rewrite Zminus_mod, Heven by lia. done. }
    split; [by exists it'|]. by eapply inner_step_keeps.
Qed.

Lemma evidence_provenance_witness :
  ∃ o o2,
    o = 2 ∧ o2 = 6
    ∧ Z.land (halfword_at fw_self_load 4) 0xF800 = 0x6800
    ∧ Z.land (halfword_at fw_self_load 4) 0x07
      = literal_rd (halfword_at fw_self_load o)
    ∧ ∃ item',
        inner_step (literal_data fw_self_load o (halfword_at fw_self_load o))
          (halfword_at fw_self_load 4) [literal_rd (halfword_at fw_self_load o)]
        = Next [literal_rd (halfword_at fw_self_load o)] item'.
Proof.
  destruct (evidence_provenance fw_self_load
              {[ (0x40000000, Read); (0x40000004, Write) ]}
              (0x40000004, Write))
    as (o & o2 & H1 & H2 & H3 & H4 & H5 & _ & _ & H6 & _ & H8).
  - by vm_compute.
  - set_solver.
  - pose proof (Z.div_mod o 2 ltac:(lia)) as Hdo.
    pose proof (Z.div_mod o2 2 ltac:(lia)) as Hdo2.
    change (Z.of_nat (length fw_self_load)) with 12 in H2.
    assert (o = 2) as ->.
    { assert (o = 2 ∨ o = 4 ∨ o = 6 ∨ o = 8) as [->|[->|[->| ->]]] by lia;
        [done | by vm_compute in H5..]. }
    assert (o2 = 6) as ->.
    { assert (o2 = 4 ∨ o2 = 6 ∨ o2 = 8 ∨ o2 = 10) as [->|[->|[->| ->]]] by lia;
        [by vm_compute in H6 | done | by vm_compute in H6..]. }
    exists 2, 6. split_and!; [done | done | by vm_compute | by vm_compute |].
    destruct (H8 4) as [Hkeep _]; [lia | done | exact Hkeep].
Defined.

Lemma forward_accesses_window fw data offs l a :
  a ∈ forward_accesses fw data offs l →
  in_window (a.2).1 = true ∧ data ≤ (a.2).1 ≤ data + 124.
Proof.
  revert l. induction offs as [|o offs IH]; intros l; [by intros ?%elem_of_nil|].
  destruct l as [|r l]; [by intros ?%elem_of_nil|]. cbn [forward_accesses].
  destruct (inner_step_spec data (halfword_at fw o) (r :: l))
    as [-> | (l' & item & -> & Hsub & Hit)]; [by intros ?%elem_of_nil|].
  rewrite elem_of_app. intros [Hin|Hin]; [|by eapply IH].
  destruct item as [it|]; [|by apply elem_of_nil in Hin].
  apply list_elem_of_singleton in Hin as ->.
  by destruct (Hit it eq_refl) as (_ & _ & ? & ?).
Qed.

(** X1: every item of the returned set has its address in one of the two
    peripheral windows. *)
Theorem evidence_in_window (fw : list byte) (regs : gset evidence)
    (item : evidence) :
  find_used_registers fw = inr regs → item ∈ regs →
  0x40000000 ≤ item.1 < 0x60000000 ∨ 0xA0000000 ≤ item.1 < 0xE0000000.
Proof.
  intros Hregs Hitem.
  apply (find_used_registers_elem_of _ _ _ Hregs) in Hitem as (a & Ha & <-).
  apply scan_accesses_elem_of in Ha as (o & _ & Ha).
  unfold candidate_accesses in Ha.
  destruct (accepted fw o); [|by apply elem_of_nil in Ha].
  apply forward_accesses_window in Ha as [Hw _].
  destruct a as [[o2 base] [addr kind]]. cbn [fst snd] in *.
  unfold in_window in Hw. lia.
Qed.

Lemma evidence_in_window_witness :
  0x40000000 ≤ 0x40000004 < 0x60000000 ∨ 0xA0000000 ≤ 0x40000004 < 0xE0000000.
Proof.
  apply (evidence_in_window fw_read_then_write
           {[ (0x40000000, Read); (0x40000004, Write) ]} (0x40000004, Write)).
  - by vm_compute.
  - set_solver.
Defined.

(** X2: an image of fewer than eight bytes yields no evidence, since no
    literal slot fits in it; eight bytes are enough for one item. *)
Theorem short_image_has_no_evidence (fw : list byte) :
  (length fw < 8)%nat →
  find_used_registers fw = inr ∅
  ∧ discovery_order fw = inr []
  ∧ find_used_registers fw_eight_bytes = inr {[ (0x40006800, Read) ]}.
Proof.
  intros Hlen.
  assert (scan_accesses fw (outer_offsets fw) = []) as Hnil.
  { assert (∀ offs, (∀ o, o ∈ offs → 0 ≤ o) → scan_accesses fw offs = [])
      as Hall.
    { induction offs as [|o offs IH]; intros Hpos; [done|].
      unfold scan_accesses. cbn [flat_map]. fold (scan_accesses fw offs).
      rewrite IH by (intros o' Ho'; apply Hpos; by right).
      rewrite app_nil_r. unfold candidate_accesses.
      destruct (accepted fw o); [|done].
      apply forward_accesses_small, literal_data_truncated.
      - apply Hpos. by left.
      - pose proof (data_offset_pos o (halfword_at fw o)
                      ltac:(apply Hpos; by left)). lia. }
    apply Hall. intros o Ho%outer_offsets_elem_of. lia. }
  unfold find_used_registers, discovery_order.
  rewrite !find_used_registers_in_spec, Hnil. split_and!; [done | done |].
  by vm_compute.
Qed.

Lemma short_image_has_no_evidence_witness :
  find_used_registers [x00; x00; x01; x48; x01; x68] = inr ∅.
Proof.
  refine (proj1 (short_image_has_no_evidence [x00; x00; x01; x48; x01; x68] _)).
  simpl. lia.
Defined.

(** ** Decoding of the accesses *)

Lemma imm5_field instr2 : Z.land (Z.shiftr instr2 6) 0x1F = imm5 instr2.
Proof.
  unfold imm5. change 0x1F with (Z.ones 5).
  by rewrite Z.land_ones, Z.shiftr_div_pow2 by lia.
Qed.

(** X4: a step of the forward scan records an item exactly when the
    halfword is a word load, a word store, a halfword store or a byte store
    whose base register is tracked and whose address [data + imm5 * size]
    (size 4, 4, 2, 1) is in a peripheral window; the item is that address,
    as a read for the load and as a write for the stores, and the register
    list is unchanged. *)
Theorem recorded_item_by_opcode (data instr2 : Z) (l l' : list Z)
    (addr : Z) (kind : access) :
  inner_step data instr2 l = Next l' (Some (addr, kind))
  ↔ l' = l ∧ base_reg instr2 ∈ l ∧ in_window addr = true
    ∧ ((Z.land instr2 0xF800 = 0x6800 ∧ kind = Read
        ∧ addr = data + 4 * imm5 instr2)
       ∨ (Z.land instr2 0xF800 = 0x6000 ∧ kind = Write
          ∧ addr = data + 4 * imm5 instr2)
       ∨ (Z.land instr2 0xF800 = 0x8000 ∧ kind = Write
          ∧ addr = data + 2 * imm5 instr2)
       ∨ (Z.land instr2 0xF800 = 0x7000 ∧ kind = Write
          ∧ addr = data + imm5 instr2)).
Proof.
  assert (∀ rd2 it, remove_if_tracked rd2 l ≠ Next l' (Some it)) as Hrem.
  { intros rd2 it. destruct (remove_if_tracked_spec rd2 l) as (l0 & -> & _).
    congruence. }
  assert (∀ a k, record_if_window l a k = Next l' (Some (addr, kind))
                 ↔ l' = l ∧ in_window addr = true ∧ a = addr ∧ k = kind)
    as Hrec.
  { intros a k. unfold record_if_window. destruct (in_window a) eqn:Hw.
    - split; [by intros [= <- <- <-] | by intros (-> & _ & -> & ->)].
    - split; [done | intros (_ & Hw' & -> & _); congruence]. }
  unfold inner_step. fold (base_reg instr2).
  rewrite !Z.shiftl_mul_pow2, !imm5_field by lia.
  change (2 ^ 2) with 4. change (2 ^ 1) with 2.
  rewrite <-(contains_elem_of (base_reg instr2) l).
  destruct (Z.eqb_spec (Z.land instr2 0xF800) 0x6800) as [E1|E1].
  { rewrite E1. destruct (Py.contains (base_reg instr2) l).
    - rewrite Hrec. split; [intros (-> & ? & <- & <-) | ]; [by auto 10 with lia|].
      intros (-> & _ & ? & [(_ & -> & ->)|[(? & _)|[(? & _)|(? & _)]]]);
        try lia. split_and!; [done | done | lia | done].
    - split; [by intros ?%Hrem | by intros (_ & ? & _)]. }
  destruct (Z.eqb_spec (Z.land instr2 0xF800) 0x6000) as [E2|E2].
  { rewrite E2. destruct (Py.contains (base_reg instr2) l).
    - rewrite Hrec. split; [intros (-> & ? & <- & <-) | ]; [by auto 10 with lia|].
      intros (-> & _ & ? & [(? & _)|[(_ & -> & ->)|[(? & _)|(? & _)]]]);
        try lia. split_and!; [done | done | lia | done].
    - split; [done | by intros (_ & ? & _)]. }
  destruct (Z.eqb_spec (Z.land instr2 0xF800) 0x8000) as [E3|E3].
  { rewrite E3. destruct (Py.contains (base_reg instr2) l).
    - rewrite Hrec. split; [intros (-> & ? & <- & <-) | ]; [by auto 10 with lia|].
      intros (-> & _ & ? & [(? & _)|[(? & _)|[(_ & -> & ->)|(? & _)]]]);
        try lia. split_and!; [done | done | lia | done].
    - split; [done | by intros (_ & ? & _)]. }
  destruct (Z.eqb_spec (Z.land instr2 0xF800) 0x7000) as [E4|E4].
  { rewrite E4. destruct (Py.contains (base_reg instr2) l).
    - rewrite Hrec. split; [intros (-> & ? & <- & <-) | ]; [by auto 10 with lia|].
      intros (-> & _ & ? & [(? & _)|[(? & _)|[(? & _)|(_ & -> & ->)]]]);
        try lia. split_and!; [done | done | lia | done].
    - split; [done | by intros (_ & ? & _)]. }
  split.
  - repeat case_match; try done; by intros ?%Hrem.
  - intros (_ & _ & _ & [(? & _)|[(? & _)|[(? & _)|(? & _)]]]); lia.
Qed.

Lemma recorded_item_by_opcode_witness :
  [0] = [0] ∧ base_reg 0x6841 ∈ [0] ∧ in_window 0x40000004 = true
  ∧ ((Z.land 0x6841 0xF800 = 0x6800 ∧ Read = Read
      ∧ 0x40000004 = 0x40000000 + 4 * imm5 0x6841)
     ∨ (Z.land 0x6841 0xF800 = 0x6000 ∧ Read = Write
        ∧ 0x40000004 = 0x40000000 + 4 * imm5 0x6841)
     ∨ (Z.land 0x6841 0xF800 = 0x8000 ∧ Read = Write
        ∧ 0x40000004 = 0x40000000 + 2 * imm5 0x6841)
     ∨ (Z.land 0x6841 0xF800 = 0x7000 ∧ Read = Write
        ∧ 0x40000004 = 0x40000000 + imm5 0x6841)).
Proof.
  exact (proj1 (recorded_item_by_opcode 0x40000000 0x6841 [0] [0]
                  0x40000004 Read) eq_refl).
Defined.

(** ** The halfword before a literal load *)

(** X5: a literal load at an offset [o >= 2] is accepted exactly when the
    halfword before it is below [0xE000]; behind any halfword from
    [0xE000] up, the 16-bit branch [B] (up to [0xE7FF]) included, the
    candidate is skipped and the set is as it was. *)
Theorem candidate_after_high_halfword_is_skipped (fw : list byte) (o : Z) :
  2 ≤ o →
  (accepted fw o = true
   ↔ Z.land (halfword_at fw o) 0xF800 = 0x4800
     ∧ halfword_at fw (o - 2) < 0xE000)
  ∧ (0xE000 ≤ halfword_at fw (o - 2) →
     ∀ R (regs_add : evidence → R → R) regs,
       scan_candidate regs_add fw o regs = inr regs).
Proof.
  intros Ho. pose proof (halfword_bound fw (o - 2) ltac:(lia)) as Hb.
  assert (accepted fw o = true
          ↔ Z.land (halfword_at fw o) 0xF800 = 0x4800
            ∧ halfword_at fw (o - 2) < 0xE000) as Hiff.
  { unfold accepted. rewrite andb_true_iff, negb_true_iff, land_top3 by done.
    rewrite Z.eqb_eq, Z.leb_gt. done. }
  split; [done|]. intros Hhigh R regs_add regs.
  apply scan_candidate_rejected.
  destruct (accepted fw o) eqn:Hacc; [|done].
  destruct (proj1 Hiff eq_refl) as [_ ?]. lia.
Qed.

Lemma candidate_after_high_halfword_is_skipped_witness :
  scan_candidate set_add fw_after_branch 2 ∅ = inr ∅.
Proof.
  refine (proj2 (candidate_after_high_halfword_is_skipped fw_after_branch 2 _)
            _ _ set_add ∅).
  - lia.
  - by vm_compute.
Defined.

(** * Further properties of the matcher *)

Lemma find_devices_ok cursor regs :
  ∃ st, find_devices cursor regs = inr st ∧ heap_ok st.
Proof. apply find_devices_loop_ok, heap_ok_none. Qed.

(** From a state with candidates the loop keeps a non-empty
    sub-dictionary of them. *)
Lemma find_devices_loop_from_some cursor regs (h : heap) (d : gmap Z nat) :
  heap_ok (h, Some d) → d ≠ ∅ →
  ∃ h' d',
    find_devices_loop cursor regs (h, Some d) = inr (h', Some d')
    ∧ d' ⊆ d ∧ d' ≠ ∅.
Proof.
  revert h d. induction regs as [|item regs IH]; intros h d Hok Hne.
  { by exists h, d. }
  destruct (find_devices_step_spec cursor (h, Some d) item Hok)
    as ([h1 o1] & Hstep & Hok1 & _ & Hcase & _).
  cbn [fst snd] in Hcase. simpl. rewrite Hstep. simpl.
  case_decide as Hdisj.
  - destruct Hcase as [-> _]. by apply IH.
  - destruct Hcase as (d1 & -> & Hdom1 & Hsub1).
    destruct (IH h1 d1 Hok1) as (h' & d' & Hloop & Hsub' & Hne').
    { intros ->. rewrite dom_empty_L in Hdom1. done. }
    exists h', d'. split_and!; [done | by etrans | done].
Qed.

(** X6: [find_devices] raises nothing, and its result is never an empty
    dictionary: either [None] or at least one candidate. *)
Theorem find_devices_never_empty (cursor : database) (regs : list evidence) :
  ∃ st, find_devices cursor regs = inr st ∧ st.2 ≠ Some ∅.
Proof.
  unfold find_devices. generalize (@nil (list hit)).
  induction regs as [|item regs IH]; intros h.
  { by exists (h, None). }
  destruct (find_devices_step_spec cursor (h, None) item (heap_ok_none h))
    as ([h1 o1] & Hstep & Hok1 & Hdom & Hcase & _).
  cbn [fst snd] in Hcase, Hdom. simpl. rewrite Hstep. simpl.
  case_decide as Hfound; subst o1; [by apply IH|].
  destruct (find_devices_loop_from_some cursor regs h1 _ Hok1)
    as (h' & d' & Hloop & _ & Hne').
  { intros Hm. rewrite Hm, dom_empty_L in Hdom. done. }
  exists (h', Some d'). split; [done|]. by intros [= ->].
Qed.

(** X7: [find_devices] returns [None] exactly when no evidence item
    matches a catalog row; otherwise the candidates are among the devices
    matching the first item that matches anything. *)
Theorem find_devices_none_iff_unmatched (cursor : database)
    (regs : list evidence) :
  ∃ st,
    find_devices cursor regs = inr st
    ∧ (st.2 = None
       ↔ ∀ item, item ∈ regs → matching_devices cursor item.1 = ∅)
    ∧ ∀ d, st.2 = Some d →
        ∃ before item after,
          regs = before ++ item :: after
          ∧ (∀ it, it ∈ before → matching_devices cursor it.1 = ∅)
          ∧ matching_devices cursor item.1 ≠ ∅
          ∧ dom d ⊆ matching_devices cursor item.1.
Proof.
  unfold find_devices. generalize (@nil (list hit)).
  induction regs as [|item regs IH]; intros h.
  { exists (h, None). split_and!; [done | | done].
    split; [by intros _ ? ?%elem_of_nil | done]. }
  destruct (find_devices_step_spec cursor (h, None) item (heap_ok_none h))
    as ([h1 o1] & Hstep & Hok1 & Hdom & Hcase & _).
  cbn [fst snd] in Hcase, Hdom. simpl. rewrite Hstep. simpl.
  case_decide as Hfound; subst o1.
  - destruct (IH h1) as (st & Hloop & Hnone & Hsome).
    exists st. split_and!; [done | |].
    + rewrite Hnone. split.
      * intros Hall it [->|Hit]%elem_of_cons; [done | by apply Hall].
      * intros Hall it Hit. apply Hall. by right.
    + intros d Hd.
      destruct (Hsome d Hd) as (before & it & after & -> & Hb & Hne & Hsub).
      exists (item :: before), it, after. split_and!; [done | | done | done].
      intros it' [->|Hit']%elem_of_cons; [done | by apply Hb].
  - destruct (find_devices_loop_from_some cursor regs h1 _ Hok1)
      as (h' & d' & Hloop & Hsub & Hne').
    { intros Hm. rewrite Hm, dom_empty_L in Hdom. done. }
    exists (h', Some d'). split_and!; [done | |].
    + split; [done|]. intros Hall. exfalso. apply Hfound, Hall. by left.
    + intros d [= <-]. exists [], item, regs.
      split_and!; [done | by intros ? ?%elem_of_nil | done |].
      rewrite <-Hdom. by apply subseteq_dom.
Qed.

Lemma find_devices_never_empty_witness :
  ∃ st, find_devices db_wide_register [(0x40000020, Read)] = inr st
        ∧ st.2 ≠ Some ∅.
Proof. exact (find_devices_never_empty db_wide_register [(0x40000020, Read)]). Defined.

(** When one device matches every item that matches anything, no item is
    dropped for an empty intersection, and the candidates are the devices
    matching all those items. *)
Lemma find_devices_loop_consistent cursor regs (h : heap)
    (o : option (gmap Z nat)) dev :
  heap_ok (h, o) → (∀ d, o = Some d → dev ∈ dom d) →
  (∀ item, item ∈ regs →
     matching_devices cursor item.1 = ∅ ∨ dev ∈ matching_devices cursor item.1) →
  ∃ st',
    find_devices_loop cursor regs (h, o) = inr st'
    ∧ (st'.2 = None
       ↔ o = None ∧ ∀ item, item ∈ regs → matching_devices cursor item.1 = ∅)
    ∧ ∀ d', st'.2 = Some d' →
        ∀ x, x ∈ dom d'
             ↔ (∀ d, o = Some d → x ∈ dom d)
               ∧ ∀ item, item ∈ regs → matching_devices cursor item.1 ≠ ∅ →
                         x ∈ matching_devices cursor item.1.
Proof.
  revert h o. induction regs as [|item regs IH]; intros h o Hok Hdev Hall.
  { exists (h, o). split_and!; [done | |].
    - simpl. split; [by intros ->; split; [|intros ? ?%elem_of_nil] | by intros [-> _]].
    - intros d' Hd' x. simpl in Hd'. subst o. split.
      + intros Hx. split; [by intros d [= <-] | by intros ? ?%elem_of_nil].
      + intros [Hx _]. by apply Hx. }
  destruct (find_devices_step_spec cursor (h, o) item Hok)
    as ([h1 o1] & Hstep & Hok1 & Hdom & Hcase & Hmiss).
  cbn [fst snd] in Hcase, Hdom, Hmiss. simpl. rewrite Hstep. simpl.
  assert (∀ it, it ∈ regs →
            matching_devices cursor it.1 = ∅
            ∨ dev ∈ matching_devices cursor it.1) as Hall'.
  { intros it Hit. apply Hall. by right. }
  destruct (decide (matching_devices cursor item.1 = ∅)) as [Hfound|Hfound].
  - destruct (Hmiss Hfound) as [-> _].
    destruct (IH h1 o Hok1 Hdev Hall') as (st' & Hloop & Hnone & Hsome).
    exists st'. split_and!; [done | |].
    + rewrite Hnone. split; intros [-> Hun]; (split; [done|]).
      * intros it [->|Hit]%elem_of_cons; [done | by apply Hun].
      * intros it Hit. apply Hun. by right.
    + intros d' Hd' x. rewrite (Hsome d' Hd' x). split; intros [Hx Hrest];
        (split; [done|]).
      * intros it [->|Hit]%elem_of_cons Hne; [done | by apply Hrest].
      * intros it Hit. apply Hrest. by right.
  - assert (dev ∈ matching_devices cursor item.1) as Hdevin.
    { destruct (Hall item) as [?|?]; [by left | done | done]. }
    assert (∃ d1, o1 = Some d1
                  ∧ ∀ x, x ∈ dom d1
                         ↔ (∀ d, o = Some d → x ∈ dom d)
                           ∧ x ∈ matching_devices cursor item.1)
      as (d1 & -> & Hd1).
    { destruct o as [d|].
      - rewrite decide_False in Hcase.
        2:{ intros Hdisj.
            assert (dev ∈ dom d ∩ matching_devices cursor item.1) as Hin
              by (apply elem_of_intersection; split; [by apply Hdev | done]).
            by rewrite Hdisj in Hin. }
        destruct Hcase as (d1 & -> & Hdom1 & _). exists d1. split; [done|].
        intros x. rewrite Hdom1, elem_of_intersection. split.
        + intros [? ?]. split; [by intros ? [= <-] | done].
        + intros [Hx ?]. split; [by apply Hx | done].
      - eexists. split; [done|].
        intros x. rewrite Hdom. split; [by intros ?; split | by intros [_ ?]]. }
    destruct (IH h1 (Some d1) Hok1) as (st' & Hloop & Hnone & Hsome).
    { intros d [= <-]. apply Hd1. split; [|done]. intros d0 ->. by apply Hdev. }
    { done. }
    exists st'. split_and!; [done | |].
    + split; [by intros [? _]%Hnone|]. intros [_ Hun]. exfalso.
      apply Hfound, Hun. by left.
    + intros d' Hd' x. rewrite (Hsome d' Hd' x). split.
      * intros [Hx Hrest]. specialize (Hx d1 eq_refl). apply Hd1 in Hx as [Hx1 Hx2].
        split; [done|].
        intros it [->|Hit]%elem_of_cons Hne; [done | by apply Hrest].
      * intros [Hx Hrest]. split.
        -- intros d [= <-]. apply Hd1. split; [done|]. apply Hrest; [by left | done].
        -- intros it Hit. apply Hrest. by right.
Qed.

(** X8: if some device matches every evidence item that matches
    anything, the candidates do not depend on the order in which the items
    are processed: they are the devices matching all those items. *)
Theorem candidates_do_not_depend_on_order (cursor : database)
    (regs regs' : list evidence) (dev : Z) :
  regs ≡ₚ regs' →
  (∀ item, item ∈ regs →
     matching_devices cursor item.1 = ∅ ∨ dev ∈ matching_devices cursor item.1) →
  ∃ st st',
    find_devices cursor regs = inr st
    ∧ find_devices cursor regs' = inr st'
    ∧ candidates st = candidates st'
    ∧ ∀ d, st.2 = Some d →
        ∀ x, x ∈ dom d
             ↔ ∀ item, item ∈ regs → matching_devices cursor item.1 ≠ ∅ →
                       x ∈ matching_devices cursor item.1.
Proof.
  intros Hperm Hall.
  destruct (find_devices_loop_consistent cursor regs [] None dev
              (heap_ok_none []) ltac:(done) Hall)
    as (st & Hloop & Hnone & Hsome).
  destruct (find_devices_loop_consistent cursor regs' [] None dev
              (heap_ok_none []) ltac:(done))
    as (st' & Hloop' & Hnone' & Hsome').
  { intros item Hitem. apply Hall. by rewrite Hperm. }
  assert (∀ d x, st.2 = Some d →
            x ∈ dom d
            ↔ ∀ item, item ∈ regs → matching_devices cursor item.1 ≠ ∅ →
                      x ∈ matching_devices cursor item.1) as Hchar.
  { intros d x Hd. rewrite (Hsome d Hd x). split; [by intros [_ ?] | by intros ?]. }
  exists st, st'. split_and!; [done | done | | by intros d Hd x; apply Hchar].
  unfold candidates. destruct st as [h [d|]], st' as [h' [d'|]]; simpl in *.
  - f_equal. apply set_eq. intros x.
    rewrite (Hchar d x eq_refl), (Hsome' d' eq_refl x). split.
    + intros Hx. split; [done|]. intros it Hit. apply Hx. by rewrite Hperm.
    + intros [_ Hx] it Hit. apply Hx. by rewrite <-Hperm.
  - exfalso. destruct (proj1 Hnone' eq_refl) as [_ Hun].
    assert (Some d = None) as Habs; [|done]. apply Hnone. split; [done|].
    intros it Hit. apply Hun. by rewrite <-Hperm.
  - exfalso. destruct (proj1 Hnone eq_refl) as [_ Hun].
    assert (Some d' = None) as Habs; [|done]. apply Hnone'. split; [done|].
    intros it Hit. apply Hun. by rewrite Hperm.
  - done.
Qed.

Lemma candidates_do_not_depend_on_order_witness :
  ∃ st st',
    find_devices db_two_devices [(0x40000000, Read); (0x40000004, Write)]
    = inr st
    ∧ find_devices db_two_devices [(0x40000004, Write); (0x40000000, Read)]
      = inr st'
    ∧ candidates st = candidates st'.
Proof.
  destruct (candidates_do_not_depend_on_order db_two_devices
              [(0x40000000, Read); (0x40000004, Write)]
              [(0x40000004, Write); (0x40000000, Read)] 1)
    as (st & st' & H1 & H2 & H3 & _).
  - apply perm_swap.
  - intros item Hitem. right. apply matching_devices_elem_of.
    apply elem_of_cons in Hitem as [->|Hitem].
    { eexists (_, _). split_and!; [apply list_elem_of_here | done | done]. }
    apply list_elem_of_singleton in Hitem as ->. eexists (_, _).
    split_and!; [apply list_elem_of_further, list_elem_of_here | done | done].
  - by exists st, st'.
Defined.

(** ** Shared lists *)

Lemma lookup_hits_lookup cursor addr access_ dev :
  lookup_hits cursor addr access_ !! dev
  = (λ rp, [hit_of access_ rp])
      <$> last (filter (λ rp, device_id rp.2 = dev) (select_rows cursor addr)).
Proof.
  unfold lookup_hits.
  induction (select_rows cursor addr) as [|rp rows IH] using rev_ind; [done|].
  rewrite fold_left_app, filter_app. cbn [fold_left].
  rewrite lookup_insert. case_decide as Hdev.
  - by rewrite filter_cons_True, filter_nil, last_snoc.
  - by rewrite filter_cons_False, filter_nil, app_nil_r.
Qed.

Lemma find_devices_by_register_values cursor addr access_ (h : heap) :
  let res := find_devices_by_register cursor addr access_ h in
  deref res.1 <$> res.2 = lookup_hits cursor addr access_.
Proof.
  intros res. apply map_eq. intros dev. rewrite lookup_hits_lookup.
  by destruct (find_devices_by_register_spec cursor addr access_ h)
    as (_ & _ & _ & ->).
Qed.

(** Each entry of the comprehension holds the list made for one row of
    its device: the list at position [length h + i] for row [i]. *)
Lemma comprehension_index access_ rows (h : heap) :
  let res :=
    fold_left
      (λ (st : heap * gmap Z nat) (rp : register_row * peripheral_row),
         (st.1 ++ [[hit_of access_ rp]], <[device_id rp.2 := length st.1]> st.2))
      rows (h, ∅) in
  length res.1 = (length h + length rows)%nat
  ∧ ∀ dev l, res.2 !! dev = Some l →
      ∃ i rp, l = (length h + i)%nat ∧ rows !! i = Some rp
              ∧ device_id rp.2 = dev.
Proof.
  induction rows as [|rp rows IH] using rev_ind; intros res.
  { subst res. simpl. split; [lia|]. by intros dev l. }
  subst res. rewrite fold_left_app. cbn [fold_left].
  destruct IH as (Hlen & Hidx).
  set (st := fold_left _ rows (h, ∅)) in *. cbn [fst snd]. split.
  - rewrite !length_app, Hlen. simpl. lia.
  - intros dev l. rewrite lookup_insert. case_decide as Hdev.
    + intros [= <-]. exists (length rows), rp. split_and!; [done | | done].
      by rewrite lookup_app_r, Nat.sub_diag.
    + intros (i & rp' & -> & Hi & Hd)%Hidx. exists i, rp'.
      split_and!; [done | | done]. by apply lookup_app_l_Some.
Qed.

Lemma find_devices_by_register_inj cursor addr access_ (h : heap) :
  dict_inj (find_devices_by_register cursor addr access_ h).2.
Proof.
  destruct (comprehension_index access_ (select_rows cursor addr) h)
    as (_ & Hidx).
  intros k k' l (i & rp & -> & Hi & <-)%Hidx (i' & rp' & Heq & Hi' & <-)%Hidx.
  assert (i = i') as <- by lia. congruence.
Qed.

(** The store after the merge loop: a list is extended once, by the list
    of the other dictionary under the same key, and every other list is
    as it was. *)
Lemma merge_loop_heap (d2 : gmap Z nat) ks (h : heap) (d : gmap Z nat) h' d' :
  NoDup ks → (∀ k, k ∈ ks → is_Some (d !! k)) → dict_inj d →
  (∀ k l1 k' l2, d !! k = Some l1 → d2 !! k' = Some l2 → l1 ≠ l2) →
  (∀ k l, d !! k = Some l → (l < length h)%nat) →
  merge_loop d2 ks (h, d) = inr (h', d') →
  (∀ l, (∀ k, k ∈ ks → d !! k = Some l → d2 !! k = None) → h' !! l = h !! l)
  ∧ ∀ k l1 l2, k ∈ ks → d !! k = Some l1 → d2 !! k = Some l2 →
      deref h' l1 = deref h l1 ++ deref h l2.
Proof.
  revert h d. induction ks as [|k ks IH]; intros h d Hnd Hks Hinj Hsep Hlt Hrun.
  { injection Hrun as <- <-. split; [done | by intros ? ? ? ?%elem_of_nil]. }
  apply NoDup_cons in Hnd as [Hk Hnd].
  destruct (Hks k) as [l1 Hl1]; [by left|].
  cbn [merge_loop] in Hrun. unfold merge_step in Hrun. cbn [fst snd] in Hrun.
  rewrite Hl1 in Hrun. destruct (d2 !! k) as [l2|] eqn:Hl2; cbn [Py.bind] in Hrun.
  - (* the list of [k] is extended *)
    destruct (IH (<[l1 := deref h l1 ++ deref h l2]> h) d Hnd) as [Hframe Hext];
      [by intros; apply Hks; right | done | done
      | by intros ? ? ?%Hlt; rewrite length_insert | done |].
    assert (∀ l, l ≠ l1 →
              deref (<[l1 := deref h l1 ++ deref h l2]> h) l = deref h l) as Hne.
    { intros l Hl. unfold deref. by rewrite list_lookup_insert_ne. }
    split.
    + intros l Hl. rewrite Hframe.
      * apply list_lookup_insert_ne. intros <-.
        specialize (Hl k ltac:(by left) Hl1). congruence.
      * intros k' Hk'. apply Hl. by right.
    + intros k0 l1' l2' [->|Hk0]%elem_of_cons Hl1' Hl2'.
      * rewrite Hl1 in Hl1'. injection Hl1' as <-.
        rewrite Hl2 in Hl2'. injection Hl2' as <-.
        unfold deref at 1. rewrite Hframe.
        -- rewrite list_lookup_insert_eq by (by eapply Hlt). done.
        -- intros k' Hk' Hl'. rewrite (Hinj _ _ _ Hl' Hl1) in Hk'. done.
      * assert (l1' ≠ l1) as Hn1.
        { intros ->. rewrite (Hinj _ _ _ Hl1' Hl1) in Hk0. done. }
        assert (l2' ≠ l1) as Hn2.
        { intros ->. exact (Hsep _ _ _ _ Hl1 Hl2' eq_refl). }
        rewrite (Hext k0 l1' l2' Hk0 Hl1' Hl2'). by rewrite !Hne.
  - (* the key is popped *)
    destruct (IH h (delete k d) Hnd) as [Hframe Hext];
      [ | | | | done |].
    { intros k' Hk'. rewrite lookup_delete_ne by congruence. apply Hks. by right. }
    { intros k1 k2 l [_ H1]%lookup_delete_Some [_ H2]%lookup_delete_Some.
      by eapply Hinj. }
    { intros k1 l1' k2 l2' [_ H1]%lookup_delete_Some H2.
      exact (Hsep _ _ _ _ H1 H2). }
    { intros k1 l [_ H1]%lookup_delete_Some. by eapply Hlt. }
    split.
    + intros l Hl. apply Hframe. intros k' Hk' [_ Hl']%lookup_delete_Some.
      apply Hl; [by right | done].
    + intros k0 l1' l2' [->|Hk0]%elem_of_cons Hl1' Hl2'; [congruence|].
      apply (Hext k0); [done | | done]. apply lookup_delete_Some. split; [|done].
      intros <-. done.
Qed.

Lemma store_ok_none (h : heap) : store_ok (h, None).
Proof. split; [apply heap_ok_none | by intros d [=]]. Qed.

Lemma dict_inj_subseteq (d d' : gmap Z nat) : d' ⊆ d → dict_inj d → dict_inj d'.
Proof.
  intros Hsub Hinj k k' l Hk Hk'.
  eapply Hinj; by eapply lookup_weaken.
Qed.

(** One step of [find_devices] shows what the step on values computes. *)
Lemma find_devices_step_refines cursor (st : heap * option (gmap Z nat)) item :
  store_ok st →
  ∃ st',
    find_devices_step cursor st item = inr st'
    ∧ store_ok st'
    ∧ hits_of st' = narrow_step cursor (hits_of st) item.
Proof.
  intros [Hok Hinj]. destruct st as [h o].
  destruct (find_devices_by_register_spec cursor item.1 item.2 h)
    as (Hh1 & Hdom & Hloc & _).
  pose proof (find_devices_by_register_values cursor item.1 item.2 h) as Hval.
  pose proof (find_devices_by_register_inj cursor item.1 item.2 h) as Hminj.
  unfold find_devices_step, narrow_step. cbn [fst snd] in *.
  destruct (find_devices_by_register cursor item.1 item.2 h) as [h1 m1].
  cbn [fst snd] in *. rewrite <-Hval.
  assert (length h ≤ length h1)%nat as Hgrow by (rewrite Hh1, length_app; lia).
  assert (hits_of (h1, o) = hits_of (h, o)) as Hext.
  { rewrite Hh1. by apply hits_of_extend. }
  case_bool_decide as Hm.
  { rewrite bool_decide_eq_true_2 by (by rewrite Hm, fmap_empty).
    exists (h1, o). split_and!; [done | | done].
    split; [|done]. destruct o as [d|]; [|apply heap_ok_none].
    by apply (heap_ok_mono h h1 d d). }
  rewrite bool_decide_eq_false_2 by (by rewrite fmap_empty_iff).
  destruct o as [d|]; cbn [dict_intersection_merge Py.bind hits_of fst snd
                           merge_hits option_fmap option_map fmap].
  2:{ rewrite bool_decide_eq_false_2 by done.
      rewrite bool_decide_eq_false_2 by (by rewrite fmap_empty_iff).
      exists (h1, Some m1). split_and!; [done | | done]. split.
      - intros d dev l [= <-] Hl. apply Hloc in Hl. simpl. lia.
      - by intros d [= <-]. }
  destruct (dict_intersection_merge_some h1 d m1)
    as (h2 & d' & Heq & Hlook & Hdom' & Hsub & Hlen & Hsame).
  unfold dict_intersection_merge in Heq. rewrite Heq. cbn [Py.bind fst snd].
  assert (∀ k l, d !! k = Some l → (l < length h)%nat) as Hlt.
  { intros k l Hl. by apply (Hok d k l). }
  destruct (merge_loop_heap m1 (map_to_list d).*1 h1 d h2 d') as [_ Hcat];
    [apply NoDup_fst_map_to_list | | by apply Hinj | | | done |].
  { intros k [[k' l] [-> Hin%elem_of_map_to_list]]%list_elem_of_fmap. eauto. }
  { intros k l1 k' l2 Hl1%Hlt Hl2%Hloc. lia. }
  { intros k l Hl%Hlt. lia. }
  assert (deref h2 <$> d'
          = intersection_with (λ hits1 hits2 : list hit, Some (hits1 ++ hits2))
              (deref h <$> d) (deref h1 <$> m1)) as Hnew.
  { apply map_eq. intros i.
    rewrite lookup_intersection_with, !lookup_fmap, Hlook.
    destruct (m1 !! i) as [l2|] eqn:Hl2, (d !! i) as [l1|] eqn:Hl1; try done.
    simpl. f_equal. rewrite (Hcat i l1 l2); [| | done | done].
    - f_equal. unfold deref. rewrite Hh1, lookup_app_l; [done | by eapply Hlt].
    - apply list_elem_of_fmap. exists (i, l1). split; [done|].
      by apply elem_of_map_to_list. }
  rewrite <-Hnew. case_bool_decide as Hd'.
  - rewrite bool_decide_eq_true_2 by (by rewrite Hd', fmap_empty).
    rewrite Hsame by (by rewrite <-Hdom', Hd', dom_empty_L).
    exists (h1, Some d). split_and!; [done | | done]. split.
    + by apply (heap_ok_mono h h1 d d).
    + intros d0 [= <-]. by apply Hinj.
  - rewrite bool_decide_eq_false_2 by (by rewrite fmap_empty_iff).
    exists (h2, Some d'). split_and!; [done | | done]. split.
    + apply (heap_ok_mono h h2 d d'); [done | lia | done].
    + intros d0 [= <-]. eapply dict_inj_subseteq; [done | by apply Hinj].
Qed.

Lemma find_devices_loop_refines cursor regs (st : heap * option (gmap Z nat)) :
  store_ok st →
  ∃ st',
    find_devices_loop cursor regs st = inr st'
    ∧ hits_of st' = fold_left (narrow_step cursor) regs (hits_of st).
Proof.
  revert st. induction regs as [|item regs IH]; intros st Hok.
  { by exists st. }
  destruct (find_devices_step_refines cursor st item Hok)
    as (st1 & Hstep & Hok1 & Hhits).
  destruct (IH st1 Hok1) as (st' & Hloop & Hhits').
  exists st'. simpl. rewrite Hstep. simpl. by rewrite <-Hhits.
Qed.

(** X9: what [find_devices] shows at the end, each candidate with its
    hit records, is what the matcher on values computes: the lists shared
    between the running state and its shallow copy, and extended in place,
    never show a record that a copy would not have. *)
Theorem find_devices_refines_narrow (cursor : database) (regs : list evidence) :
  ∃ st, find_devices cursor regs = inr st ∧ hits_of st = narrow cursor regs.
Proof.
  destruct (find_devices_loop_refines cursor regs ([], None) (store_ok_none []))
    as (st & Hloop & Hhits).
  exists st. split; [exact Hloop|]. by rewrite Hhits.
Qed.

Lemma find_devices_refines_narrow_witness :
  ∃ st,
    find_devices db_two_devices [(0x40000000, Read); (0x40000004, Write)]
    = inr st
    ∧ hits_of st
      = narrow db_two_devices [(0x40000000, Read); (0x40000004, Write)].
Proof.
  exact (find_devices_refines_narrow db_two_devices
           [(0x40000000, Read); (0x40000004, Write)]).
Defined.

(** ** Hit records *)

Lemma lookup_hits_entry cursor item dev hits :
  lookup_hits cursor item.1 item.2 !! dev = Some hits →
  ∃ ht, hits = [ht] ∧ hit_from cursor [item] dev ht.
Proof.
  rewrite lookup_hits_lookup.
  destruct (last _) as [rp|] eqn:Hlast; [|done]. intros [= <-].
  apply last_Some_elem_of, list_elem_of_filter in Hlast as [Hdev Hin].
  exists (hit_of item.2 rp). split; [done|].
  exists item, rp. by split_and!; [apply list_elem_of_here | | |].
Qed.

Lemma hit_from_mono cursor items items' dev ht :
  items ⊆ items' → hit_from cursor items dev ht → hit_from cursor items' dev ht.
Proof.
  intros Hsub (item & rp & Hin & ?). exists item, rp. split; [by apply Hsub | done].
Qed.

Lemma narrow_step_inv cursor seen n s item :
  hits_inv cursor seen n s →
  hits_inv cursor (seen ++ [item]) n (narrow_step cursor s item)
  ∨ hits_inv cursor (seen ++ [item]) (S n) (narrow_step cursor s item).
Proof.
  intros Hinv.
  assert (hits_inv cursor (seen ++ [item]) n s) as Hkeep.
  { destruct s as [d|]; [|done]. destruct Hinv as [Hn Hd]. split; [done|].
    intros dev hits [Hlen Hall]%Hd. split; [done|].
    eapply Forall_impl; [done|]. intros ht. apply hit_from_mono.
    intros x Hx. apply elem_of_app. by left. }
  assert (∀ dev hits, lookup_hits cursor item.1 item.2 !! dev = Some hits →
            length hits = 1%nat
            ∧ Forall (hit_from cursor (seen ++ [item]) dev) hits) as Hm.
  { intros dev hits (ht & -> & Hfrom)%lookup_hits_entry. split; [done|].
    apply Forall_singleton. eapply hit_from_mono; [|done].
    intros x Hx. apply elem_of_app. by right. }
  unfold narrow_step. case_bool_decide; [by left|].
  case_bool_decide; [by left|]. right.
  destruct s as [d|]; simpl.
  - destruct Hkeep as [Hn Hd]. split; [lia|]. intros dev hits.
    rewrite lookup_intersection_with.
    destruct (d !! dev) as [hits1|] eqn:H1; [|done].
    destruct (lookup_hits cursor item.1 item.2 !! dev) as [hits2|] eqn:H2;
      [|done].
    intros [= <-]. destruct (Hd dev hits1 H1) as [Hl1 Hf1].
    destruct (Hm dev hits2 H2) as [Hl2 Hf2].
    split; [rewrite length_app; lia | by apply Forall_app].
  - simpl in Hinv. subst n. split; [done|]. intros dev hits Hl.
    by apply Hm.
Qed.

Lemma narrow_fold_inv cursor regs seen n s :
  hits_inv cursor seen n s →
  ∃ n', (n ≤ n' ≤ n + length regs)%nat
        ∧ hits_inv cursor (seen ++ regs) n' (fold_left (narrow_step cursor) regs s).
Proof.
  revert seen n s. induction regs as [|item regs IH]; intros seen n s Hinv.
  { exists n. rewrite app_nil_r. split; [simpl; lia | done]. }
  simpl. destruct (narrow_step_inv cursor seen n s item Hinv) as [H1|H1];
    destruct (IH _ _ _ H1) as (n' & Hn' & Hinv');
    exists n'; rewrite <-app_assoc in Hinv'; (split; [simpl; lia | done]).
Qed.

(** X10: at the end every candidate has the same number of hit records,
    one for each evidence item that was kept, at least one and at most
    the number of items; and every record is the record of a register row
    of that very device, selected for the address of one of the items,
    with the access kind of that item. *)
Theorem candidates_have_sound_hit_lists (cursor : database)
    (regs : list evidence) :
  ∃ st,
    find_devices cursor regs = inr st
    ∧ ∀ d, hits_of st = Some d →
        ∃ n, (1 ≤ n ≤ length regs)%nat
             ∧ ∀ dev hits, d !! dev = Some hits →
                 length hits = n
                 ∧ ∀ ht, ht ∈ hits → hit_from cursor regs dev ht.
Proof.
  destruct (find_devices_loop_refines cursor regs ([], None) (store_ok_none []))
    as (st & Hloop & Hhits).
  exists st. split; [done|]. intros d Hd.
  destruct (narrow_fold_inv cursor regs [] 0 None eq_refl) as (n & Hn & Hinv).
  change (hits_of ([], None)) with (@None (gmap Z (list hit))) in Hhits.
  rewrite <-Hhits, Hd in Hinv. destruct Hinv as [Hn1 Hall].
  exists n. split; [simpl in Hn; lia|].
  intros dev hits [Hlen Hfrom]%Hall. split; [done|].
  intros ht Hht. revert ht Hht. by apply Forall_forall.
Qed.

Lemma candidates_have_sound_hit_lists_witness :
  ∃ st,
    find_devices db_two_devices [(0x40000000, Read); (0x40000004, Write)]
    = inr st.
Proof.
  destruct (candidates_have_sound_hit_lists db_two_devices
              [(0x40000000, Read); (0x40000004, Write)]) as (st & Hst & _).
  by exists st.
Defined.

(** * The report *)

Lemma join_peripheral cursor rp :
  rp ∈ register_join_peripheral cursor → rp.2 ∈ peripheral cursor.
Proof.
  unfold register_join_peripheral. rewrite list_elem_of_In, in_flat_map.
  intros (r & _ & Hrp%in_map_iff). destruct Hrp as (p & <- & Hp).
  apply list_elem_of_In, list_elem_of_filter in Hp as [_ Hp]. done.
Qed.

Lemma device_header_ok cursor dev :
  (∃ d, d ∈ device cursor ∧ device_pk d = dev) →
  ∃ header, device_header cursor dev = inr header.
Proof.
  intros (d & Hd & Hpk). unfold device_header.
  destruct (filter _ (device cursor)) as [|d' ds] eqn:Hf; [|by eexists].
  exfalso. by eapply (filter_nil_not_elem_of _ _ d Hf).
Qed.

Lemma device_header_error cursor dev e :
  device_header cursor dev = inl e → e = Py.TypeError.
Proof. unfold device_header. destruct (filter _ _); by intros [=]. Qed.

Lemma report_ok cursor (h : heap) (items : list (Z * nat)) :
  (∀ kv, kv ∈ items → ∃ d, d ∈ device cursor ∧ device_pk d = kv.1) →
  ∃ rep, report cursor h items = inr rep
         ∧ rep.*2 = (λ kv, deref h kv.2) <$> items.
Proof.
  induction items as [|[dev l] items IH]; intros Hall; [by exists []|].
  destruct (device_header_ok cursor dev) as (header & Hhead).
  { apply (Hall (dev, l)). by left. }
  destruct IH as (rep & Hrep & Hhits).
  { intros kv Hkv. apply Hall. by right. }
  exists ((header, deref h l) :: rep). split.
  - simpl. by rewrite Hhead, Hrep.
  - by rewrite !fmap_cons, Hhits.
Qed.

Lemma report_error cursor (h : heap) (items : list (Z * nat)) e :
  report cursor h items = inl e → e = Py.TypeError.
Proof.
  induction items as [|[dev l] items IH]; simpl; [done|].
  destruct (device_header cursor dev) eqn:Hhead; simpl.
  { intros [= <-]. by eapply device_header_error. }
  destruct (report cursor h items); simpl; [|done].
  intros [= <-]. by apply IH.
Qed.

(** Every candidate matches at least one of the items. *)
Lemma find_devices_loop_candidates cursor regs (all : list evidence)
    (st : heap * option (gmap Z nat)) :
  heap_ok st → regs ⊆ all →
  (∀ d dev, st.2 = Some d → dev ∈ dom d →
     ∃ item, item ∈ all ∧ dev ∈ matching_devices cursor item.1) →
  ∃ st',
    find_devices_loop cursor regs st = inr st'
    ∧ ∀ d dev, st'.2 = Some d → dev ∈ dom d →
        ∃ item, item ∈ all ∧ dev ∈ matching_devices cursor item.1.
Proof.
  revert st. induction regs as [|item regs IH]; intros st Hok Hsub Hinv.
  { by exists st. }
  destruct (find_devices_step_spec cursor st item Hok)
    as (st1 & Hstep & Hok1 & Hdom & Hcase & _).
  destruct (IH st1 Hok1) as (st' & Hloop & Hinv').
  { intros x Hx. apply Hsub. by right. }
  { intros d1 dev Hd1 Hdev. destruct st as [h [d|]]; cbn [fst snd] in *.
    - case_decide.
      + destruct Hcase as [Heq _]. rewrite Heq in Hd1. injection Hd1 as <-.
        by apply (Hinv d).
      + destruct Hcase as (d' & Heq & Hdom' & _). rewrite Heq in Hd1.
        injection Hd1 as <-. rewrite Hdom' in Hdev.
        apply elem_of_intersection in Hdev as [Hdev _]. by apply (Hinv d).
    - case_decide; [congruence|]. rewrite Hcase in Hd1. injection Hd1 as <-.
      rewrite Hdom in Hdev. exists item. split; [|done]. apply Hsub. by left. }
  exists st'. simpl. by rewrite Hstep.
Qed.

(** An item that matches something leaves candidates behind. *)
Lemma find_devices_loop_matched cursor regs (st : heap * option (gmap Z nat))
    item :
  heap_ok st → st.2 ≠ Some ∅ → item ∈ regs →
  matching_devices cursor item.1 ≠ ∅ →
  ∃ h' d', find_devices_loop cursor regs st = inr (h', Some d') ∧ d' ≠ ∅.
Proof.
  revert st. induction regs as [|x regs IH]; intros st Hok Hne Hin Hfound;
    [by apply elem_of_nil in Hin|].
  destruct (find_devices_step_spec cursor st x Hok)
    as ([h1 o1] & Hstep & Hok1 & Hdom & Hcase & Hmiss).
  simpl. rewrite Hstep. simpl. destruct st as [h o]. cbn [fst snd] in *.
  assert (∀ d, o1 = Some d → d ≠ ∅ →
            ∃ h' d', find_devices_loop cursor regs (h1, o1) = inr (h', Some d')
                     ∧ d' ≠ ∅) as Hsome.
  { intros d -> Hd.
    destruct (find_devices_loop_from_some cursor regs h1 d Hok1 Hd)
      as (h' & d' & ? & _ & ?). by exists h', d'. }
  destruct o as [d|].
  - assert (d ≠ ∅) as Hd by congruence. case_decide.
    + destruct Hcase as [-> _]. by apply (Hsome d).
    + destruct Hcase as (d' & -> & Hdom' & _). apply (Hsome d'); [done|].
      intros ->. by rewrite dom_empty_L in Hdom'.
  - case_decide as Hx; subst o1.
    + apply elem_of_cons in Hin as [->|Hin]; [done|]. by apply IH.
    + eapply Hsome; [done|]. intros Hm. rewrite Hm, dom_empty_L in Hdom. done.
Qed.

(** X11: on a catalog where every peripheral row names an existing
    device, the body of the main loop has two outcomes: when no evidence
    item matches a catalog row it raises [AttributeError]; otherwise it
    prints one header per candidate, at least one, each with the hit
    records of that candidate. *)
Theorem main_file_outcomes (set_iter : gset evidence → list evidence)
    (cursor : database) (fw : list byte) :
  devices_exist cursor →
  ∃ regs st,
    find_used_registers fw = inr regs
    ∧ find_devices cursor (set_iter regs) = inr st
    ∧ (((∀ item, item ∈ set_iter regs → matching_devices cursor item.1 = ∅)
        ∧ st.2 = None
        ∧ main_file set_iter cursor fw = inl Py.AttributeError)
       ∨ ((∃ item, item ∈ set_iter regs ∧ matching_devices cursor item.1 ≠ ∅)
          ∧ ∃ d rep,
              st.2 = Some d
              ∧ main_file set_iter cursor fw = inr rep
              ∧ (1 ≤ size d)%nat ∧ length rep = size d
              ∧ rep.*2 = (λ kv, deref st.1 kv.2) <$> map_to_list d)).
Proof.
  intros Hdev.
  assert (∃ regs, find_used_registers fw = inr regs) as [regs Hregs]
    by (eexists; apply find_used_registers_in_spec).
  exists regs. unfold main_file. rewrite Hregs. cbn [Py.bind].
  destruct (decide (Forall (λ item : evidence,
                              matching_devices cursor item.1 = ∅)
                      (set_iter regs))) as [Hall|Hsome].
  - rewrite Forall_forall in Hall.
    destruct (find_devices_loop_unmatched cursor (set_iter regs) [] Hall)
      as (h' & Hloop).
    exists (h', None). unfold find_devices. rewrite Hloop.
    split_and!; [done | done |]. left. by split_and!.
  - apply not_Forall_Exists in Hsome; [|apply _].
    apply Exists_exists in Hsome as (item & Hin & Hne).
    simpl in Hne.
    destruct (find_devices_loop_matched cursor (set_iter regs) ([], None) item
                (heap_ok_none []) ltac:(done) Hin Hne) as (h' & d & Hloop & Hd).
    destruct (find_devices_loop_candidates cursor (set_iter regs)
                (set_iter regs) ([], None) (heap_ok_none []))
      as (st' & Hloop' & Hcand); [done | done |].
    rewrite Hloop in Hloop'. injection Hloop' as <-.
    destruct (report_ok cursor h' (map_to_list d)) as (rep & Hrep & Hhits).
    { intros [dev l] Hkv%elem_of_map_to_list. simpl.
      destruct (Hcand d dev eq_refl) as (it & _ & Hm).
      { apply elem_of_dom. eauto. }
      apply matching_devices_elem_of in Hm as (rp & Hrp & <- & _).
      apply Hdev. by apply join_peripheral. }
    exists (h', Some d). unfold find_devices. rewrite Hloop. cbn [Py.bind snd fst].
    split_and!; [done | done |]. right. split; [by exists item|].
    exists d, rep. split_and!; [done | done | | | done].
    + destruct (decide (size d = 0%nat)) as [Hz%map_size_empty_iff|]; [done | lia].
    + rewrite <-(length_map_to_list d), <-(length_fmap snd rep), Hhits.
      by rewrite length_fmap.
Qed.

(** X12: whatever the catalog, the only exceptions the body of the main
    loop can raise are the [AttributeError] of the no-match case and the
    [TypeError] of a candidate without a device row. *)
Theorem main_file_raises_only_attribute_or_type_error
    (set_iter : gset evidence → list evidence) (cursor : database)
    (fw : list byte) (e : Py.exn) :
  main_file set_iter cursor fw = inl e →
  e = Py.AttributeError ∨ e = Py.TypeError.
Proof.
  unfold main_file.
  assert (∃ regs, find_used_registers fw = inr regs) as [regs ->]
    by (eexists; apply find_used_registers_in_spec).
  cbn [Py.bind].
  destruct (find_devices_ok cursor (set_iter regs)) as (st & -> & _).
  cbn [Py.bind]. destruct st.2 as [d|]; [|by intros [= <-]; left].
  intros Hrep. right. by eapply report_error.
Qed.

Lemma main_file_outcomes_witness :
  ∃ regs st,
    find_used_registers fw_read_then_write = inr regs
    ∧ find_devices db_two_devices (elements regs) = inr st.
Proof.
  destruct (main_file_outcomes elements db_two_devices fw_read_then_write)
    as (regs & st & H1 & H2 & _).
  - intros p Hp. vm_compute in Hp.
    repeat (apply elem_of_cons in Hp as [->|Hp];
            [first [ solve [eexists; split;
                             [apply list_elem_of_here | reflexivity]]
                   | solve [eexists; split;
                             [apply list_elem_of_further, list_elem_of_here
                             | reflexivity]] ] |]).
    by apply elem_of_nil in Hp.
  - by exists regs, st.
Defined.

Lemma main_file_raises_only_attribute_or_type_error_witness :
  Py.AttributeError = Py.AttributeError ∨ Py.AttributeError = Py.TypeError.
Proof.
  exact (main_file_raises_only_attribute_or_type_error elements db_two_devices
           [] Py.AttributeError eq_refl).
Defined.

(** * Properties of the importer *)

#[local] Instance extends_preorder : PreOrder Svd.extends.
Proof.
  split.
  - by intros c; split_and!.
  - intros c1 c2 c3 (? & ? & ?) (? & ? & ?). split_and!; by etrans.
Qed.

Lemma head_filter_prefix {A} (P : A → Prop) `{!∀ x, Decision (P x)}
    (l l' : list A) :
  l `prefix_of` l' → Exists P l → head (filter P l') = head (filter P l).
Proof.
  intros [k ->] (x & Hx & HP)%Exists_exists. rewrite filter_app.
  destruct (filter P l) as [|y ys] eqn:Hf; [|done].
  exfalso. by eapply (filter_nil_not_elem_of _ _ x Hf).
Qed.

Lemma Exists_prefix {A} (P : A → Prop) (l l' : list A) :
  l `prefix_of` l' → Exists P l → Exists P l'.
Proof. intros [k ->] H. apply Exists_app. by left. Qed.

Lemma Exists_snoc {A} (P : A → Prop) (l : list A) x : P x → Exists P (l ++ [x]).
Proof. intros H. apply Exists_app. right. by constructor. Qed.

(** ** Insert and select *)

Lemma insert_device_extends next_id c name vendor filename :
  Svd.extends c (Svd.insert_device next_id c name vendor filename)
  ∧ Exists (λ d, device_name d = name)
      (device (Svd.insert_device next_id c name vendor filename)).
Proof.
  unfold Svd.insert_device. case_bool_decide as Hex; [by split|].
  split; [|by apply Exists_snoc].
  split_and!; simpl; [by apply prefix_app_r | done | done].
Qed.

Lemma insert_device_present next_id c name vendor filename :
  Exists (λ d, device_name d = name) (device c) →
  Svd.insert_device next_id c name vendor filename = c.
Proof. intros Hex. unfold Svd.insert_device. by rewrite bool_decide_eq_true_2. Qed.

Lemma insert_peripheral_extends next_id c dev_id name address :
  Svd.extends c (Svd.insert_peripheral next_id c dev_id name address)
  ∧ Exists (λ p, peripheral_name p = name ∧ device_id p = dev_id)
      (peripheral (Svd.insert_peripheral next_id c dev_id name address)).
Proof.
  unfold Svd.insert_peripheral. case_bool_decide as Hex; [by split|].
  split; [|by apply Exists_snoc].
  split_and!; simpl; [done | by apply prefix_app_r | done].
Qed.

Lemma insert_peripheral_present next_id c dev_id name address :
  Exists (λ p, peripheral_name p = name ∧ device_id p = dev_id) (peripheral c) →
  Svd.insert_peripheral next_id c dev_id name address = c.
Proof.
  intros Hex. unfold Svd.insert_peripheral. by rewrite bool_decide_eq_true_2.
Qed.

Lemma insert_register_extends next_id c p_id name access_ address size :
  Svd.extends c (Svd.insert_register next_id c p_id name access_ address size)
  ∧ ∀ n, name = Some n →
      Exists (λ r, register_name r = n ∧ peripheral_id r = p_id)
        (register (Svd.insert_register next_id c p_id name access_ address size)).
Proof.
  unfold Svd.insert_register. destruct name as [n|]; [|by split].
  case_bool_decide as Hex; [by split; [|intros ? [= <-]]|].
  split; [|by intros ? [= <-]; apply Exists_snoc].
  split_and!; simpl; [done | done | by apply prefix_app_r].
Qed.

Lemma insert_register_present next_id c p_id name access_ address size :
  (∀ n, name = Some n →
        Exists (λ r, register_name r = n ∧ peripheral_id r = p_id) (register c)) →
  Svd.insert_register next_id c p_id name access_ address size = c.
Proof.
  intros Hex. unfold Svd.insert_register. destruct name as [n|]; [|done].
  by rewrite bool_decide_eq_true_2 by (by apply Hex).
Qed.

Lemma select_device_id_extends c c' name :
  Svd.extends c c' → Exists (λ d, device_name d = name) (device c) →
  Svd.select_device_id c' name = Svd.select_device_id c name.
Proof.
  intros (Hd & _ & _) Hex. unfold Svd.select_device_id.
  by rewrite (head_filter_prefix _ _ _ Hd Hex).
Qed.

Lemma select_peripheral_id_extends c c' name dev_id :
  Svd.extends c c' →
  Exists (λ p, peripheral_name p = name ∧ device_id p = dev_id) (peripheral c) →
  Svd.select_peripheral_id c' name dev_id = Svd.select_peripheral_id c name dev_id.
Proof.
  intros (_ & Hp & _) Hex. unfold Svd.select_peripheral_id.
  by rewrite (head_filter_prefix _ _ _ Hp Hex).
Qed.

(** ** Importing twice *)

Lemma for_each_replays {A} (body : database → A → Svd.result database) l :
  replays body → replays (λ c (_ : unit), Svd.for_each body l c).
Proof.
  intros Hbody [] c c1. revert c. induction l as [|x l IH]; intros c Hrun.
  { injection Hrun as <-. by split. }
  simpl in Hrun. destruct (body c x) as [e|c2] eqn:Hstep; [done|].
  simpl in Hrun. destruct (Hbody x c c2 Hstep) as [Hext Hagain].
  destruct (IH c2 Hrun) as [Hext' Hagain']. split; [by etrans|].
  intros c' Hc'. simpl. rewrite Hagain by (by etrans). simpl. by apply Hagain'.
Qed.

Section ImportFacts.
Variables (next_id : string → list Z → Z)
  (strip upper lower : string → string)
  (py_int : string → option Z).

Lemma register_step_replays p_id p_address :
  replays (Svd.register_step next_id strip lower py_int p_id p_address).
Proof.
  intros reg c c1. unfold Svd.register_step.
  destruct (Svd.find reg ["name"]) as [name|]; [|done].
  destruct (Svd.find reg ["addressOffset"]) as [offset|]; [|done].
  destruct (Svd.text_of offset) as [t|]; [|done].
  destruct (Svd.int_of py_int t) as [|o]; [done|]. cbn [Svd.bind].
  destruct (Svd.int_of py_int _) as [|size]; [done|]. cbn [Svd.bind].
  destruct (Svd.fix_reg_access_typo _) as [|acc]; [done|]. cbn [Svd.bind].
  destruct (Svd.sqlite_int (p_address + o)) as [|addr']; [done|]. cbn [Svd.bind].
  destruct (Svd.sqlite_int size) as [|size']; [done|]. cbn [Svd.bind].
  intros [= <-].
  destruct (insert_register_extends next_id c p_id (Svd.text_of name) acc addr'
              size')
    as [Hext Hkey].
  split; [done|]. intros c' (_ & _ & Hreg). f_equal.
  apply insert_register_present. intros n Hn.
  eapply Exists_prefix; [done | by apply Hkey].
Qed.

Lemma peripheral_step_replays dev_id offsets :
  replays (Svd.peripheral_step next_id strip upper lower py_int dev_id offsets).
Proof.
  intros per c c1. unfold Svd.peripheral_step.
  destruct (Svd.find per ["name"]) as [name|]; [|done].
  destruct (Svd.text_of name) as [t|]; [|done].
  destruct (Svd.find per ["baseAddress"]) as [base|].
  2:{ intros [= <-]. split; [done|]. by intros c' _. }
  destruct (Svd.text_of base) as [b|].
  2:{ intros [= <-]. split; [done|]. by intros c' _. }
  destruct (Svd.int_of py_int b) as [|a]; [done|]. cbn [Svd.bind].
  destruct (Svd.sqlite_int _) as [|addr]; [done|]. cbn [Svd.bind].
  destruct (insert_peripheral_extends next_id c dev_id (upper (strip t)) addr)
    as [Hext Hkey].
  destruct (Svd.select_peripheral_id _ _ _) as [p_id|] eqn:Hsel; [|done].
  intros Hrun.
  destruct (for_each_replays _ (Svd.findall per ["registers"; "register"])
              (register_step_replays p_id addr) () _ _ Hrun) as [Hext' Hagain].
  split; [by etrans|]. intros c' Hc'.
  assert (Svd.extends
            (Svd.insert_peripheral next_id c dev_id (upper (strip t)) addr) c')
    as Hc2 by (by etrans).
  rewrite insert_peripheral_present.
  2:{ destruct Hc2 as (_ & Hp & _). by eapply Exists_prefix. }
  rewrite (select_peripheral_id_extends _ _ _ _ Hc2 Hkey), Hsel.
  by apply Hagain.
Qed.

(** X13: importing a file into the catalog that its own import produced
    changes nothing: every [INSERT OR IGNORE] of the second run finds its
    row, and the run returns the same three tables, whatever ids the
    database gives to new rows. *)
Theorem import_twice_is_import_once (cursor cursor' : database)
    (filename : string) (root : Svd.element) :
  Svd.add_svd_to_database next_id strip upper lower py_int cursor filename root
  = inr cursor' →
  Svd.extends cursor cursor'
  ∧ Svd.add_svd_to_database next_id strip upper lower py_int cursor' filename root
    = inr cursor'.
Proof.
  unfold Svd.add_svd_to_database.
  destruct (Svd.for_each _ _ ∅) as [|offsets]; [done|]. cbn [Svd.bind].
  destruct (Svd.find root ["name"]) as [name|]; [|done].
  destruct (Svd.text_of name) as [t|]; [|done].
  set (vendor := Svd.xml_get_text_or strip root ["vendor"] "").
  destruct (insert_device_extends next_id cursor (strip t) vendor filename)
    as [Hext Hkey].
  destruct (Svd.select_device_id _ _) as [dev_id|] eqn:Hsel; [|done].
  intros Hrun.
  destruct (for_each_replays _ (Svd.findall root ["peripherals"; "peripheral"])
              (peripheral_step_replays dev_id offsets) () _ _ Hrun)
    as [Hext' Hagain].
  split; [by etrans|].
  rewrite insert_device_present.
  2:{ destruct Hext' as (Hd & _ & _). by eapply Exists_prefix. }
  rewrite (select_device_id_extends _ _ _ Hext' Hkey), Hsel.
  by apply Hagain.
Qed.

End ImportFacts.

Lemma import_twice_is_import_once_witness :
  ∃ cursor',
    Svd.add_svd_to_database sample_next_id sample_str sample_str sample_str
      sample_int Svd.empty_database "stm32.svd" sample_svd = inr cursor'
    ∧ Svd.add_svd_to_database sample_next_id sample_str sample_str sample_str
        sample_int cursor' "stm32.svd" sample_svd = inr cursor'.
Proof.
  eexists. split; [by vm_compute|].
  refine (proj2 (import_twice_is_import_once sample_next_id sample_str
                   sample_str sample_str sample_int Svd.empty_database _
                   "stm32.svd" sample_svd _)).
  by vm_compute.
Defined.

(** ** What the import keeps *)

Lemma for_each_preserves {A S} (I : S → Prop) (body : S → A → Svd.result S)
    (l : list A) s s' :
  (∀ x s s', I s → body s x = inr s' → I s') →
  I s → Svd.for_each body l s = inr s' → I s'.
Proof.
  intros Hbody. revert s. induction l as [|x l IH]; intros s Hs Hrun.
  { by injection Hrun as <-. }
  simpl in Hrun. destruct (body s x) as [|s1] eqn:Hstep; [done|].
  eapply IH; [by eapply Hbody | done].
Qed.

Lemma select_device_id_exists c name dev_id :
  Svd.select_device_id c name = Some dev_id →
  ∃ d, d ∈ device c ∧ device_pk d = dev_id.
Proof.
  unfold Svd.select_device_id.
  destruct (filter _ (device c)) as [|d ds] eqn:Hf; [done|]. intros [= <-].
  exists d. split; [|done].
  assert (d ∈ filter (λ d, device_name d = name) (device c)) as Hd
    by (rewrite Hf; by left).
  by apply list_elem_of_filter in Hd as [_ ?].
Qed.

Lemma select_peripheral_id_exists c name dev_id p_id :
  Svd.select_peripheral_id c name dev_id = Some p_id →
  ∃ p, p ∈ peripheral c ∧ peripheral_pk p = p_id.
Proof.
  unfold Svd.select_peripheral_id.
  destruct (filter _ (peripheral c)) as [|p ps] eqn:Hf; [done|]. intros [= <-].
  exists p. split; [|done].
  assert (p ∈ filter (λ p, peripheral_name p = name ∧ device_id p = dev_id)
                (peripheral c)) as Hp by (rewrite Hf; by left).
  by apply list_elem_of_filter in Hp as [_ ?].
Qed.

Lemma extends_device_exists c c' dev_id :
  Svd.extends c c' → (∃ d, d ∈ device c ∧ device_pk d = dev_id) →
  ∃ d, d ∈ device c' ∧ device_pk d = dev_id.
Proof.
  intros ([k ->] & _) (d & Hd & ?). exists d. split; [|done].
  apply elem_of_app. by left.
Qed.

Section ImportInvariant.
Variables (next_id : string → list Z → Z)
  (strip upper lower : string → string)
  (py_int : string → option Z).

(** The import keeps every property of the catalog that its three
    [INSERT] statements keep, the identifiers given to them being those of
    rows that exist. *)
Lemma import_preserves (I : database → Prop) :
  (∀ c name vendor filename,
     I c → I (Svd.insert_device next_id c name vendor filename)) →
  (∀ c dev_id name address,
     I c → (∃ d, d ∈ device c ∧ device_pk d = dev_id) →
     I (Svd.insert_peripheral next_id c dev_id name address)) →
  (∀ c p_id name access_ address size,
     I c → (∃ p, p ∈ peripheral c ∧ peripheral_pk p = p_id) →
     I (Svd.insert_register next_id c p_id name access_ address size)) →
  ∀ cursor cursor' filename root,
    I cursor →
    Svd.add_svd_to_database next_id strip upper lower py_int cursor filename root
    = inr cursor' →
    I cursor'.
Proof.
  intros Hdev Hper Hreg cursor cursor' filename root HI.
  assert (∀ p_id addr reg c c1,
            I c ∧ (∃ p, p ∈ peripheral c ∧ peripheral_pk p = p_id) →
            Svd.register_step next_id strip lower py_int p_id addr c reg = inr c1 →
            I c1 ∧ (∃ p, p ∈ peripheral c1 ∧ peripheral_pk p = p_id)) as Hrstep.
  { intros p_id addr reg c c1 [Hc Hp] Hstep.
    destruct (register_step_replays next_id strip lower py_int p_id addr reg c
                c1 Hstep) as [(_ & [k Hk] & _) _].
    split.
    - revert Hstep. unfold Svd.register_step.
      destruct (Svd.find reg ["name"]) as [name|]; [|done].
      destruct (Svd.find reg ["addressOffset"]) as [offset|]; [|done].
      destruct (Svd.text_of offset) as [t|]; [|done].
      destruct (Svd.int_of py_int t) as [|o]; [done|]. cbn [Svd.bind].
      destruct (Svd.int_of py_int _) as [|size]; [done|]. cbn [Svd.bind].
      destruct (Svd.fix_reg_access_typo _) as [|acc]; [done|]. cbn [Svd.bind].
      destruct (Svd.sqlite_int (addr + o)) as [|addr']; [done|]. cbn [Svd.bind].
      destruct (Svd.sqlite_int size) as [|size']; [done|]. cbn [Svd.bind].
      intros [= <-]. by apply Hreg.
    - destruct Hp as (p & Hp & ?). exists p. split; [|done].
      rewrite Hk. apply elem_of_app. by left. }
  assert (∀ dev_id offsets per c c1,
            I c ∧ (∃ d, d ∈ device c ∧ device_pk d = dev_id) →
            Svd.peripheral_step next_id strip upper lower py_int dev_id offsets c per
            = inr c1 →
            I c1 ∧ (∃ d, d ∈ device c1 ∧ device_pk d = dev_id)) as Hpstep.
  { intros dev_id offsets per c c1 [Hc Hd] Hstep.
    destruct (peripheral_step_replays next_id strip upper lower py_int dev_id offsets
                per c c1 Hstep) as [Hext _].
    split; [|by eapply extends_device_exists].
    revert Hstep. unfold Svd.peripheral_step.
    destruct (Svd.find per ["name"]) as [name|]; [|done].
    destruct (Svd.text_of name) as [t|]; [|done].
    destruct (Svd.find per ["baseAddress"]) as [base|]; [|by intros [= <-]].
    destruct (Svd.text_of base) as [b|]; [|by intros [= <-]].
    destruct (Svd.int_of py_int b) as [|a]; [done|]. cbn [Svd.bind].
    destruct (Svd.sqlite_int _) as [|addr]; [done|]. cbn [Svd.bind].
    destruct (Svd.select_peripheral_id _ _ _) as [p_id|] eqn:Hsel; [|done].
    intros Hrun.
    apply (for_each_preserves
             (λ c, I c ∧ ∃ p, p ∈ peripheral c ∧ peripheral_pk p = p_id)
             _ _ _ _ (Hrstep p_id addr)) in Hrun as [? _]; [done|].
    split; [by apply Hper | by eapply select_peripheral_id_exists]. }
  unfold Svd.add_svd_to_database.
  destruct (Svd.for_each _ _ ∅) as [|offsets]; [done|]. cbn [Svd.bind].
  destruct (Svd.find root ["name"]) as [name|]; [|done].
  destruct (Svd.text_of name) as [t|]; [|done].
  destruct (Svd.select_device_id _ _) as [dev_id|] eqn:Hsel; [|done].
  intros Hrun.
  apply (for_each_preserves
           (λ c, I c ∧ ∃ d, d ∈ device c ∧ device_pk d = dev_id)
           _ _ _ _ (Hpstep dev_id offsets)) in Hrun as [? _]; [done|].
  split; [by apply Hdev | by eapply select_device_id_exists].
Qed.

(** X14: the import keeps the references between the tables resolved:
    if every peripheral row names an existing device and every register
    row an existing peripheral, the same holds after the import. *)
Theorem import_keeps_references (cursor cursor' : database)
    (filename : string) (root : Svd.element) :
  Svd.references_ok cursor →
  Svd.add_svd_to_database next_id strip upper lower py_int cursor filename root
  = inr cursor' →
  Svd.references_ok cursor' ∧ devices_exist cursor'.
Proof.
  intros Hok Hrun.
  assert (Svd.references_ok cursor') as Hok'; [|by split; [|apply Hok']].
  revert Hok Hrun. apply import_preserves.
  - intros c name vendor file [Hd Hr]. unfold Svd.insert_device.
    case_bool_decide; [done|]. split; simpl; [|done].
    intros p Hp. destruct (Hd p Hp) as (d & ? & ?). exists d.
    split; [|done]. apply elem_of_app. by left.
  - intros c dev_id name address [Hd Hr] (d & Hdin & Hdpk).
    unfold Svd.insert_peripheral. case_bool_decide; [done|]. split; simpl.
    + intros p [Hp| ->%list_elem_of_singleton]%elem_of_app; [by apply Hd|].
      by exists d.
    + intros r Hrin. destruct (Hr r Hrin) as (p & ? & ?). exists p.
      split; [|done]. apply elem_of_app. by left.
  - intros c p_id name acc address size [Hd Hr] (p & Hpin & Hppk).
    unfold Svd.insert_register. destruct name as [n|]; [|done].
    case_bool_decide; [done|]. split; simpl; [done|].
    intros r [Hrin| ->%list_elem_of_singleton]%elem_of_app; [by apply Hr|].
    by exists p.
Qed.

(** X15: rows are rejected, not duplicated: the import keeps device
    names distinct, peripheral names distinct within a device and register
    names distinct within a peripheral. *)
Theorem import_keeps_names_unique (cursor cursor' : database)
    (filename : string) (root : Svd.element) :
  Svd.unique_ok cursor →
  Svd.add_svd_to_database next_id strip upper lower py_int cursor filename root
  = inr cursor' →
  Svd.unique_ok cursor'.
Proof.
  assert (∀ {A B} (f : A → B) (l : list A) (x : A),
            NoDup (f <$> l) → ¬ Exists (λ y, f y = f x) l →
            NoDup (f <$> (l ++ [x]))) as Hsnoc.
  { intros A B f l x Hnd Hnew. rewrite fmap_app. apply NoDup_app.
    split_and!; [done | | apply NoDup_singleton].
    intros b Hb ->%list_elem_of_singleton.
    apply list_elem_of_fmap in Hb as (y & Hy & Hyin).
    apply Hnew, Exists_exists. by exists y. }
  apply import_preserves.
  - intros c name vendor file (Hd & Hp & Hr). unfold Svd.insert_device.
    case_bool_decide as Hex; [done|]. split_and!; simpl; [|done|done].
    by apply (Hsnoc _ _ device_name).
  - intros c dev_id name address (Hd & Hp & Hr) _. unfold Svd.insert_peripheral.
    case_bool_decide as Hex; [done|]. split_and!; simpl; [done| |done].
    apply (Hsnoc _ _ (λ p, (peripheral_name p, device_id p))); [done|].
    intros Hex'. apply Hex. eapply Exists_impl; [done|].
    by intros p [= -> ->].
  - intros c p_id name acc address size (Hd & Hp & Hr) _.
    unfold Svd.insert_register. destruct name as [n|]; [|done].
    case_bool_decide as Hex; [done|]. split_and!; simpl; [done|done|].
    apply (Hsnoc _ _ (λ r, (register_name r, peripheral_id r))); [done|].
    intros Hex'. apply Hex. eapply Exists_impl; [done|].
    by intros r [= -> ->].
Qed.

End ImportInvariant.

Lemma import_keeps_references_witness :
  Svd.references_ok
    {| device := [ {| device_pk := 1; device_name := "STM32";
                      device_vendor := ""; svd_filename := "stm32.svd" |} ];
       peripheral := [ {| peripheral_pk := 1; device_id := 1;
                          peripheral_name := "GPIOA";
                          peripheral_address := 0x40000000 |} ];
       register := [ {| register_pk := 1; peripheral_id := 1;
                        register_name := "MODER";
                        register_access := "read-write";
                        register_address := 0x40000000;
                        register_size := 32 |};
                     {| register_pk := 2; peripheral_id := 1;
                        register_name := "IDR";
                        register_access := "read-only";
                        register_address := 0x40000010;
                        register_size := 32 |} ] |}.
Proof.
  refine (proj1 (import_keeps_references sample_next_id sample_str sample_str
                   sample_str sample_int Svd.empty_database _ "stm32.svd"
                   sample_svd _ _)).
  - split; by intros ? ?%elem_of_nil.
  - by vm_compute.
Defined.

Lemma import_keeps_names_unique_witness :
  Svd.unique_ok
    {| device := [ {| device_pk := 1; device_name := "STM32";
                      device_vendor := ""; svd_filename := "stm32.svd" |} ];
       peripheral := [ {| peripheral_pk := 1; device_id := 1;
                          peripheral_name := "GPIOA";
                          peripheral_address := 0x40000000 |} ];
       register := [ {| register_pk := 1; peripheral_id := 1;
                        register_name := "MODER";
                        register_access := "read-write";
                        register_address := 0x40000000;
                        register_size := 32 |};
                     {| register_pk := 2; peripheral_id := 1;
                        register_name := "IDR";
                        register_access := "read-only";
                        register_address := 0x40000010;
                        register_size := 32 |} ] |}.
Proof.
  refine (import_keeps_names_unique sample_next_id sample_str sample_str
            sample_str sample_int Svd.empty_database _ "stm32.svd" sample_svd
            _ _).
  - split_and!; apply NoDup_nil_2.
  - by vm_compute.
Defined.

(** ** Exceptions of the import *)

Lemma for_each_error {A S} (body : S → A → Svd.result S) (l : list A) s e :
  Svd.for_each body l s = inl e → ∃ x s', x ∈ l ∧ body s' x = inl e.
Proof.
  revert s. induction l as [|x l IH]; intros s; [done|]. simpl.
  destruct (body s x) as [e'|s1] eqn:Hstep; simpl.
  - intros [= <-]. exists x, s. split; [by left | done].
  - intros (y & s' & Hy & Hs')%IH. exists y, s'. split; [by right | done].
Qed.

Lemma select_device_id_after_insert next_id c name vendor filename :
  is_Some (Svd.select_device_id (Svd.insert_device next_id c name vendor filename) name).
Proof.
  destruct (insert_device_extends next_id c name vendor filename)
    as [_ (d & Hd & Hname)%Exists_exists].
  unfold Svd.select_device_id.
  destruct (filter _ _) as [|d' ds] eqn:Hf; [|by eexists].
  exfalso. by eapply (filter_nil_not_elem_of _ _ d Hf).
Qed.

Lemma select_peripheral_id_after_insert next_id c dev_id name address :
  is_Some (Svd.select_peripheral_id
             (Svd.insert_peripheral next_id c dev_id name address) name dev_id).
Proof.
  destruct (insert_peripheral_extends next_id c dev_id name address)
    as [_ (p & Hp & Hkey)%Exists_exists].
  unfold Svd.select_peripheral_id.
  destruct (filter _ _) as [|p' ps] eqn:Hf; [|by eexists].
  exfalso. by eapply (filter_nil_not_elem_of _ _ p Hf).
Qed.

Lemma int_of_error py_int s e : Svd.int_of py_int s = inl e → e = Svd.ValueError.
Proof. unfold Svd.int_of. destruct (py_int s); by intros [=]. Qed.

Lemma sqlite_int_error z e : Svd.sqlite_int z = inl e → e = Svd.OverflowError.
Proof. unfold Svd.sqlite_int. case_match; by intros [=]. Qed.

Lemma fix_reg_access_typo_error s e :
  Svd.fix_reg_access_typo s = inl e → e = Svd.AssertionError.
Proof. unfold Svd.fix_reg_access_typo. case_bool_decide; by intros [=]. Qed.

Section ImportErrors.
Variables (next_id : string → list Z → Z)
  (strip upper lower : string → string)
  (py_int : string → option Z).

(** X16: the [fetchone()] after each [INSERT OR IGNORE] always returns
    the row, so that unpacking it never fails; the import raises
    [TypeError] only for a register whose [addressOffset] element has no
    text ([int(None, 0)]). *)
Theorem import_type_error_is_empty_offset (cursor : database)
    (filename : string) (root : Svd.element) :
  Svd.add_svd_to_database next_id strip upper lower py_int cursor filename root
  = inl Svd.TypeError →
  ∃ peripheral_ register_ offset,
    peripheral_ ∈ Svd.findall root ["peripherals"; "peripheral"]
    ∧ register_ ∈ Svd.findall peripheral_ ["registers"; "register"]
    ∧ Svd.find register_ ["addressOffset"] = Some offset
    ∧ Svd.text_of offset = None.
Proof.
  unfold Svd.add_svd_to_database.
  destruct (Svd.for_each _ _ ∅) as [e|offsets] eqn:Hoff; cbn [Svd.bind].
  { intros [= ->]. exfalso.
    apply for_each_error in Hoff as (per & offs & _ & Hstep).
    unfold Svd.offset_step in Hstep.
    destruct (Svd.find per ["name"]); [|done].
    destruct (Svd.find per ["addressBlock"; "offset"]) as [o|]; [|done].
    destruct (Svd.text_of o) as [t|]; [|done].
    destruct (Svd.int_of py_int t) as [e0|] eqn:Hint; [|done].
    apply int_of_error in Hint as ->. done. }
  destruct (Svd.find root ["name"]) as [name|]; [|done].
  destruct (Svd.text_of name) as [t|]; [|done].
  destruct (select_device_id_after_insert next_id cursor (strip t)
              (Svd.xml_get_text_or strip root ["vendor"] "") filename)
    as [dev_id ->].
  intros (per & c & Hper & Hstep)%for_each_error.
  exists per. unfold Svd.peripheral_step in Hstep.
  destruct (Svd.find per ["name"]) as [pname|]; [|done].
  destruct (Svd.text_of pname) as [pt|]; [|done].
  destruct (Svd.find per ["baseAddress"]) as [base|]; [|done].
  destruct (Svd.text_of base) as [b|]; [|done].
  destruct (Svd.int_of py_int b) as [e|a] eqn:Hint; cbn [Svd.bind] in Hstep.
  { apply int_of_error in Hint as ->. done. }
  destruct (Svd.sqlite_int _) as [e|addr] eqn:Hsql; cbn [Svd.bind] in Hstep.
  { apply sqlite_int_error in Hsql as ->. done. }
  destruct (select_peripheral_id_after_insert next_id c dev_id (upper (strip pt)) addr)
    as [p_id Hsel].
  rewrite Hsel in Hstep.
  apply for_each_error in Hstep as (reg & c' & Hreg & Hstep).
  exists reg. unfold Svd.register_step in Hstep.
  destruct (Svd.find reg ["name"]) as [rname|]; [|done].
  destruct (Svd.find reg ["addressOffset"]) as [offset|]; [|done].
  exists offset. destruct (Svd.text_of offset) as [ot|]; [|done]. exfalso.
  destruct (Svd.int_of py_int ot) as [e|o] eqn:Hint'; cbn [Svd.bind] in Hstep.
  { apply int_of_error in Hint' as ->. done. }
  destruct (Svd.int_of py_int (Svd.xml_get_text_or strip reg ["size"] "32"))
    as [e|size] eqn:Hint''; cbn [Svd.bind] in Hstep.
  { apply int_of_error in Hint'' as ->. done. }
  destruct (Svd.fix_reg_access_typo _) as [e|acc] eqn:Hfix; cbn [Svd.bind] in Hstep.
  { apply fix_reg_access_typo_error in Hfix as ->. done. }
  destruct (Svd.sqlite_int (addr + o)) as [e|addr'] eqn:Hs1; cbn [Svd.bind] in Hstep.
  { apply sqlite_int_error in Hs1 as ->. done. }
  destruct (Svd.sqlite_int size) as [e|size'] eqn:Hs2; cbn [Svd.bind] in Hstep.
  { apply sqlite_int_error in Hs2 as ->. done. }
  done.
Qed.

End ImportErrors.

Lemma import_type_error_is_empty_offset_witness :
  ∃ peripheral_ register_ offset,
    peripheral_ ∈ Svd.findall sample_svd_no_offset ["peripherals"; "peripheral"]
    ∧ register_ ∈ Svd.findall peripheral_ ["registers"; "register"]
    ∧ Svd.find register_ ["addressOffset"] = Some offset
    ∧ Svd.text_of offset = None.
Proof.
  apply (import_type_error_is_empty_offset sample_next_id sample_str
           sample_str sample_str sample_int Svd.empty_database "stm32.svd"
           sample_svd_no_offset).
  by vm_compute.
Defined.

(** ** Access strings *)

(** X17: [fix_reg_access_typo] returns only the three access strings of
    the schema, returns each of them as it is, so that fixing a fixed
    string changes nothing; the strings it returns unchanged are exactly
    those three. *)
Theorem fix_reg_access_typo_is_idempotent (s v : string) :
  Svd.fix_reg_access_typo s = inr v →
  v ∈ Svd.canonical_access
  ∧ Svd.fix_reg_access_typo v = inr v
  ∧ ∀ w, Svd.fix_reg_access_typo w = inr w ↔ w ∈ Svd.canonical_access.
Proof.
  assert (∀ w, w ∈ Svd.canonical_access → Svd.fix_reg_access_typo w = inr w)
    as Hfix.
  { intros w Hw. unfold Svd.canonical_access in Hw.
    repeat (apply elem_of_cons in Hw as [->|Hw]; [by vm_compute|]).
    by apply elem_of_nil in Hw. }
  assert (∀ x y, Svd.fix_reg_access_typo x = inr y → y ∈ Svd.canonical_access)
    as Hran.
  { intros x y. unfold Svd.fix_reg_access_typo.
    case_bool_decide as Hin; [|done]. by intros [= <-]. }
  intros Hv. split_and!; [by eapply Hran | by eapply Hfix, Hran |].
  intros w. split; [apply Hran | apply Hfix].
Qed.

Lemma fix_reg_access_typo_is_idempotent_witness :
  Svd.fix_reg_access_typo "read-only" = inr "read-only".
Proof.
  exact (proj1 (proj2 (fix_reg_access_typo_is_idempotent "read-onlye"
                         "read-only" eq_refl))).
Defined.

(** * Conflicting evidence *)

Lemma dom_lookup_hits cursor addr access_ :
  dom (lookup_hits cursor addr access_) = matching_devices cursor addr.
Proof.
  rewrite <-(find_devices_by_register_values cursor addr access_ []).
  cbn zeta. rewrite dom_fmap_L.
  by destruct (find_devices_by_register_spec cursor addr access_ [])
    as (_ & -> & _).
Qed.

(** The items before the first match leave the state at [None], the
    first match sets the candidates, and every later item whose devices
    are disjoint from them is dropped. *)
Lemma find_devices_first_match cursor (pre post : list evidence) item :
  (∀ it, it ∈ pre → matching_devices cursor it.1 = ∅) →
  matching_devices cursor item.1 ≠ ∅ →
  (∀ it, it ∈ post →
     matching_devices cursor item.1 ∩ matching_devices cursor it.1 = ∅) →
  ∃ st,
    find_devices cursor (pre ++ item :: post) = inr st
    ∧ candidates st = Some (matching_devices cursor item.1)
    ∧ hits_of st = Some (lookup_hits cursor item.1 item.2).
Proof.
  intros Hpre Hfound Hdisj.
  destruct (find_devices_loop_refines cursor (pre ++ item :: post) ([], None)
              (store_ok_none [])) as (st & Hrun & Hhits).
  assert (fold_left (narrow_step cursor) (pre ++ item :: post) None
          = Some (lookup_hits cursor item.1 item.2)) as Hnarrow.
  { assert (lookup_hits cursor item.1 item.2 ≠ ∅) as Hne.
    { intros Hempty. apply Hfound.
      by rewrite <-(dom_lookup_hits _ _ item.2), Hempty, dom_empty_L. }
    rewrite fold_left_app.
    assert (fold_left (narrow_step cursor) pre None = None) as ->.
    { clear Hrun Hhits. induction pre as [|x pre IH]; [done|].
      cbn [fold_left].
      assert (narrow_step cursor None x = None) as ->.
      { unfold narrow_step. rewrite bool_decide_eq_true_2; [done|].
        apply dom_empty_iff_L. rewrite dom_lookup_hits. apply Hpre. by left. }
      apply IH. intros it Hit. apply Hpre. by right. }
    cbn [fold_left]. unfold narrow_step at 2. cbn [merge_hits].
    rewrite !bool_decide_eq_false_2 by done.
    clear Hrun Hhits. induction post as [|x post IH]; [done|].
    cbn [fold_left].
    assert (narrow_step cursor (Some (lookup_hits cursor item.1 item.2)) x
            = Some (lookup_hits cursor item.1 item.2)) as ->.
    { unfold narrow_step. case_bool_decide; [done|]. cbn [merge_hits].
      rewrite bool_decide_eq_true_2; [done|].
      apply map_eq. intros dev.
      rewrite lookup_intersection_with, lookup_empty.
      destruct (lookup_hits cursor item.1 item.2 !! dev) as [hits1|] eqn:H1;
        [|done].
      destruct (lookup_hits cursor x.1 x.2 !! dev) as [hits2|] eqn:H2; [|done].
      exfalso.
      assert (dev ∈ matching_devices cursor item.1
                    ∩ matching_devices cursor x.1) as Hin.
      { rewrite <-(dom_lookup_hits _ _ item.2), <-(dom_lookup_hits _ _ x.2).
        apply elem_of_intersection. split; apply elem_of_dom; eauto. }
      rewrite Hdisj in Hin by (by left). done. }
    apply IH. intros it Hit. apply Hdisj. by right. }
  exists st. split; [done|].
  change (hits_of ([], None)) with (@None (gmap Z (list hit))) in Hhits.
  rewrite Hnarrow in Hhits. split; [|done].
  unfold hits_of, candidates in *. destruct st.2 as [d|]; [|done].
  simpl in *. injection Hhits as Hd. f_equal.
  by rewrite <-(dom_lookup_hits _ _ item.2), <-Hd, dom_fmap_L.
Qed.

(** X18: the first item that matches anything decides.  If the items
    before it match nothing and every item after it matches no device in
    common with it, all of these are skipped and the candidates are
    exactly the devices matching that item, each with its one hit record.
    So of two items matching disjoint, non-empty sets of devices the one
    processed first gives the candidates, and the two orders give
    different candidates. *)
Theorem first_match_wins (cursor : database) (pre post : list evidence)
    (item : evidence) :
  (∀ it, it ∈ pre → matching_devices cursor it.1 = ∅) →
  matching_devices cursor item.1 ≠ ∅ →
  (∀ it, it ∈ post →
     matching_devices cursor item.1 ∩ matching_devices cursor it.1 = ∅) →
  (∃ st,
     find_devices cursor (pre ++ item :: post) = inr st
     ∧ candidates st = Some (matching_devices cursor item.1)
     ∧ hits_of st = Some (lookup_hits cursor item.1 item.2))
  ∧ ∀ other,
      matching_devices cursor other.1 ≠ ∅ →
      matching_devices cursor item.1 ∩ matching_devices cursor other.1 = ∅ →
      ∃ st1 st2,
        find_devices cursor [item; other] = inr st1
        ∧ find_devices cursor [other; item] = inr st2
        ∧ candidates st1 = Some (matching_devices cursor item.1)
        ∧ candidates st2 = Some (matching_devices cursor other.1)
        ∧ hits_of st1 = Some (lookup_hits cursor item.1 item.2)
        ∧ hits_of st2 = Some (lookup_hits cursor other.1 other.2)
        ∧ candidates st1 ≠ candidates st2.
Proof.
  intros Hpre Hfound Hdisj.
  split; [by apply find_devices_first_match|].
  intros other Hother Hconflict.
  destruct (find_devices_first_match cursor [] [other] item)
    as (st1 & Hrun1 & Hcand1 & Hhits1);
    [by intros ? ?%elem_of_nil | done
    | by intros it ->%list_elem_of_singleton |].
  destruct (find_devices_first_match cursor [] [item] other)
    as (st2 & Hrun2 & Hcand2 & Hhits2);
    [by intros ? ?%elem_of_nil | done
    | intros it ->%list_elem_of_singleton; set_solver |].
  exists st1, st2. split_and!; try done.
  rewrite Hcand1, Hcand2. intros [= Heq]. set_solver.
Qed.

Lemma first_match_wins_witness :
  ∃ st st1 st2,
    find_devices db_conflict
      [(0x40000020, Read); (0x40000000, Read); (0x40000004, Write)] = inr st
    ∧ candidates st = Some {[ 1 ]}
    ∧ find_devices db_conflict [(0x40000000, Read); (0x40000004, Write)]
      = inr st1
    ∧ find_devices db_conflict [(0x40000004, Write); (0x40000000, Read)]
      = inr st2
    ∧ candidates st1 = Some {[ 1 ]}
    ∧ candidates st2 = Some {[ 2 ]}.
Proof.
  destruct (first_match_wins db_conflict [(0x40000020, Read)]
              [(0x40000004, Write)] (0x40000000, Read))
    as ((st & Hrun & Hcand & _) & Horders).
  - intros it ->%list_elem_of_singleton. by vm_compute.
  - by vm_compute.
  - intros it ->%list_elem_of_singleton. by vm_compute.
  - destruct (Horders (0x40000004, Write))
      as (st1 & st2 & Hrun1 & Hrun2 & Hcand1 & Hcand2 & _);
      [by vm_compute | by vm_compute |].
    exists st, st1, st2. by split_and!.
Defined.
